(** * hcsshim: the GCS bridge protocol and the SCSI mount manager

    A shallow embedding of two packages of the repository:

    - package [prot]: the message identifier bit field
      ([GetResponseIdentifier]) and the two-phase decoder
      [UnmarshalContainerModifySettings];
    - package [scsi]: the reference-counted mount table [mountManager]
      with its methods [mount], [unmount], [trackMount], [untrackMount].

    Unsigned Go integers are [Z] with the wrap-around written out, Go
    slices that hold pointers are lists of optional heap addresses, Go
    strings are [string]. *)

From Stdlib Require Import ZArith Lia Bool Ascii String.
From stdpp Require Import base tactics option list strings numbers pretty sorting.

Local Open Scope Z_scope.

(** ** Package prot: message identifiers *)

Module prot.

(** [uint32(x)]: conversion to a 32-bit unsigned integer. *)
Definition uint32 (x : Z) : Z := x mod 2 ^ 32.

(** The identifier is split as [T:4 | CC:8 | III:12 | VV:8]. *)
Definition messageTypeMask : Z := 0xF0000000.
Definition messageCategoryMask : Z := 0x0FF00000.
Definition messageIDMask : Z := 0x000FFF00.
Definition messageVersionMask : Z := 0x000000FF.

Definition MtNone : Z := 0.
Definition MtRequest : Z := 0x10000000.
Definition MtResponse : Z := 0x20000000.
Definition MtNotification : Z := 0x30000000.

Definition McComputeSystem : Z := 0x00100000.

(** [^uint32(x)]: bitwise complement on 32 bits. *)
Definition not32 (x : Z) : Z := Z.lxor (uint32 x) 0xFFFFFFFF.

(** [MessageIdentifier(MtResponse | (uint32(identifier) & ^uint32(messageTypeMask)))] *)
Definition GetResponseIdentifier (identifier : Z) : Z :=
  uint32 (Z.lor MtResponse (Z.land (uint32 identifier) (not32 messageTypeMask))).

Definition ComputeSystemCreateV1 : Z := 0x10100101.
Definition ComputeSystemModifySettingsV1 : Z := 0x10100a01.
Definition ComputeSystemNegotiateProtocolV1 : Z := 0x10100b01.
Definition ComputeSystemResponseCreateV1 : Z := 0x20100101.
Definition ComputeSystemResponseModifySettingsV1 : Z := 0x20100a01.
Definition ComputeSystemResponseNegotiateProtocolV1 : Z := 0x20100b01.

(** ** Package prot: decoding a modify-settings message *)

(** [json.RawMessage] *)
Definition RawMessage := list Byte.byte.

Record ocspancontext := Ocspancontext {
  TraceID : string;
  SpanID : string;
  TraceOptions : Z;
  Tracestate : string
}.

Record MessageBase := MkMessageBase {
  ContainerID : string;
  ActivityID : string;
  OpenCensusSpanContext : option ocspancontext
}.

(** The Go types a [Settings] value is decoded into, one per case of the
    [switch]. *)
Inductive settingsType :=
| SCSIDevice
| LCOWMappedVirtualDisk
| LCOWMappedDirectory
| LCOWMappedVPMemDevice
| LCOWCombinedLayers
| LCOWNetworkAdapter
| LCOWMappedVPCIDevice
| LCOWContainerConstraints
| LCOWConfidentialOptions
| LCOWSecurityPolicyFragment.

(** The [guestresource.ResourceType...] constants the [switch] compares
    with; their declarations are in package [guestresource]. *)
Record resourceTypes := ResourceTypes {
  ResourceTypeSCSIDevice : string;
  ResourceTypeMappedVirtualDisk : string;
  ResourceTypeMappedDirectory : string;
  ResourceTypeVPMemDevice : string;
  ResourceTypeCombinedLayers : string;
  ResourceTypeNetwork : string;
  ResourceTypeVPCIDevice : string;
  ResourceTypeContainerConstraints : string;
  ResourceTypeSecurityPolicy : string;
  ResourceTypePolicyFragment : string
}.

Section decode.

(** The JSON layer: [commonutils.UnmarshalJSONWithHresult] at the three
    targets the function uses it with, and the records of package
    [guestresource] it fills.

    - [unmarshalEnvelope b]: into a [containerModifySettings] whose
      [Request] points to a [json.RawMessage]; gives the base fields and
      the raw bytes of [Request] ([None] when the JSON value is [null],
      which resets the field to nil and leaves the raw message empty);
    - [unmarshalRequest raw]: into a [guestrequest.ModificationRequest]
      whose [Settings] points to a [json.RawMessage]; gives
      [ResourceType], [RequestType] and the raw bytes of [Settings];
    - [unmarshalSettings t raw]: into a fresh record of type [t]. *)
Variable jsonError : Type.
Variable record : settingsType -> Type.
Variable unmarshalEnvelope : RawMessage -> jsonError + (MessageBase * option RawMessage).
Variable unmarshalRequest : RawMessage -> jsonError + (string * string * RawMessage).
Variable unmarshalSettings : forall t : settingsType, RawMessage -> jsonError + record t.
Variable names : resourceTypes.
(** [guestrequest.RequestTypeAdd] *)
Variable RequestTypeAdd : string.

Inductive error :=
| Hresult (e : jsonError)
| Wrap (e : error) (message : string)           (* [errors.Wrap] *)
| ErrInvalidResourceType (resourceType : string). (* "invalid ResourceType '%s'" *)

(** A decoded [Settings]: a pointer to a record of one of the ten types. *)
Inductive settings :=
| Decoded (t : settingsType) (v : record t).

(** [guestrequest.ModificationRequest] *)
Record ModificationRequest := MkModificationRequest {
  ResourceType : string;
  RequestType : string;
  Settings : settings
}.

(** The interface field [Request]: nil, the pointer to the raw message
    it is initialised with, or the pointer to the decoded request. *)
Inductive requestField :=
| RequestNil
| RequestRaw (raw : RawMessage)
| RequestParsed (msr : ModificationRequest).

Record containerModifySettings := MkContainerModifySettings {
  Base : MessageBase;
  Request : requestField
}.

(** One [case] of the [switch]: decode [msrRawSettings] as [t], wrap the
    failure with the case's message, else store the record in [msr] and
    [msr] in [request]. *)
Definition decodeCase (request : containerModifySettings) (resourceType requestType : string)
    (msrRawSettings : RawMessage) (t : settingsType) (message : string)
    : option containerModifySettings * option error :=
  match unmarshalSettings t msrRawSettings with
  | inl err => (Some request, Some (Wrap (Hresult err) message))
  | inr v =>
      (Some (MkContainerModifySettings (Base request)
               (RequestParsed (MkModificationRequest resourceType requestType (Decoded t v)))),
       None)
  end.

Definition UnmarshalContainerModifySettings (b : RawMessage)
    : option containerModifySettings * option error :=
  match unmarshalEnvelope b with
  | inl err => (None, Some (Wrap (Hresult err) "failed to unmarshal ContainerModifySettings"))
  | inr (base, field) =>
      let requestRawSettings : RawMessage := default [] field in
      let request :=
        MkContainerModifySettings base
          (match field with Some raw => RequestRaw raw | None => RequestNil end) in
      match unmarshalRequest requestRawSettings with
      | inl err =>
          (Some request,
           Some (Wrap (Hresult err)
                   "failed to unmarshal request.Settings as ModifySettingRequest"))
      | inr (resourceType, requestType0, msrRawSettings) =>
          let requestType :=
            if String.eqb requestType0 "" then RequestTypeAdd else requestType0 in
          let case := decodeCase request resourceType requestType msrRawSettings in
          if String.eqb resourceType (ResourceTypeSCSIDevice names) then
            case SCSIDevice "failed to unmarshal settings as SCSIDevice"
          else if String.eqb resourceType (ResourceTypeMappedVirtualDisk names) then
            case LCOWMappedVirtualDisk "failed to unmarshal settings as MappedVirtualDiskV2"
          else if String.eqb resourceType (ResourceTypeMappedDirectory names) then
            case LCOWMappedDirectory "failed to unmarshal settings as MappedDirectoryV2"
          else if String.eqb resourceType (ResourceTypeVPMemDevice names) then
            case LCOWMappedVPMemDevice
              "failed to unmarshal hosted settings as MappedVPMemDeviceV2"
          else if String.eqb resourceType (ResourceTypeCombinedLayers names) then
            case LCOWCombinedLayers "failed to unmarshal settings as CombinedLayersV2"
          else if String.eqb resourceType (ResourceTypeNetwork names) then
            case LCOWNetworkAdapter "failed to unmarshal settings as NetworkAdapterV2"
          else if String.eqb resourceType (ResourceTypeVPCIDevice names) then
            case LCOWMappedVPCIDevice "failed to unmarshal settings as MappedVPCIDeviceV2"
          else if String.eqb resourceType (ResourceTypeContainerConstraints names) then
            case LCOWContainerConstraints
              "failed to unmarshal settings as ContainerConstraintsV2"
          else if String.eqb resourceType (ResourceTypeSecurityPolicy names) then
            case LCOWConfidentialOptions
              "failed to unmarshal settings as LCOWConfidentialOptions"
          else if String.eqb resourceType (ResourceTypePolicyFragment names) then
            case LCOWSecurityPolicyFragment
              "failed to unmarshal settings as LCOWSecurityPolicyFragment"
          else (Some request, Some (ErrInvalidResourceType resourceType))
      end
  end.

(** *** The decoder as the specification words it

    Three stages: the envelope with [Request] left raw; the request as
    [{ResourceType, RequestType, Settings}] with [Settings] left raw and
    [RequestType] defaulted; the settings against the record the
    [ResourceType] selects in a table of variants. *)
Definition variants : list (string * settingsType) :=
  [ (ResourceTypeSCSIDevice names, SCSIDevice);
    (ResourceTypeMappedVirtualDisk names, LCOWMappedVirtualDisk);
    (ResourceTypeMappedDirectory names, LCOWMappedDirectory);
    (ResourceTypeVPMemDevice names, LCOWMappedVPMemDevice);
    (ResourceTypeCombinedLayers names, LCOWCombinedLayers);
    (ResourceTypeNetwork names, LCOWNetworkAdapter);
    (ResourceTypeVPCIDevice names, LCOWMappedVPCIDevice);
    (ResourceTypeContainerConstraints names, LCOWContainerConstraints);
    (ResourceTypeSecurityPolicy names, LCOWConfidentialOptions);
    (ResourceTypePolicyFragment names, LCOWSecurityPolicyFragment) ].

Fixpoint variantOf (table : list (string * settingsType)) (resourceType : string)
    : option settingsType :=
  match table with
  | [] => None
  | (name, t) :: table' =>
      if String.eqb resourceType name then Some t else variantOf table' resourceType
  end.

(** What went wrong, without the message text. *)
Inductive failure :=
| BadEnvelope (e : jsonError)
| BadRequest (e : jsonError)
| BadSettings (t : settingsType) (e : jsonError)
| InvalidResourceType (resourceType : string).

Definition twoPhaseDecode (b : RawMessage) : failure + (MessageBase * ModificationRequest) :=
  match unmarshalEnvelope b with
  | inl e => inl (BadEnvelope e)
  | inr (base, field) =>
      match unmarshalRequest (default [] field) with
      | inl e => inl (BadRequest e)
      | inr (resourceType, requestType, rawSettings) =>
          match variantOf variants resourceType with
          | None => inl (InvalidResourceType resourceType)
          | Some t =>
              match unmarshalSettings t rawSettings with
              | inl e => inl (BadSettings t e)
              | inr v =>
                  inr (base,
                       MkModificationRequest resourceType
                         (if String.eqb requestType "" then RequestTypeAdd else requestType)
                         (Decoded t v))
              end
          end
      end
  end.

End decode.

Arguments Hresult {jsonError} e.
Arguments Wrap {jsonError} e message.
Arguments ErrInvalidResourceType {jsonError} resourceType.
Arguments Decoded {record} t v.
Arguments MkModificationRequest {record} _ _ _.
Arguments ResourceType {record} _.
Arguments RequestType {record} _.
Arguments Settings {record} _.
Arguments RequestNil {record}.
Arguments RequestRaw {record} raw.
Arguments RequestParsed {record} msr.
Arguments MkContainerModifySettings {record} _ _.
Arguments Base {record} _.
Arguments Request {record} _.
Arguments BadEnvelope {jsonError} e.
Arguments BadRequest {jsonError} e.
Arguments BadSettings {jsonError} t e.
Arguments InvalidResourceType {jsonError} resourceType.
Arguments UnmarshalContainerModifySettings {jsonError record} _ _ _ _ _ _.
Arguments twoPhaseDecode {jsonError record} _ _ _ _ _ _.

End prot.

(** ** Package scsi: the mount manager *)

Module scsi.

(** [uint] is 64 bits wide on the platforms the shim is built for;
    [refCount++] and [refCount--] wrap around. *)
Definition uintSize : Z := 64.
Definition uint (x : Z) : Z := x mod 2 ^ uintSize.

(** Errors.  [ErrMounter] and [ErrContext] stand for the values the
    mounter collaborator and [ctx.Err()] produce; the other three are the
    [fmt.Errorf] calls of the package, named after their message. *)
Inductive error :=
| ErrMounter (msg : string)
| ErrContext (msg : string)
| ErrMountScsi (controller_ lun_ : Z) (path_ : string) (cause : error)
    (* "mount scsi controller %d lun %d at %s: %w" *)
| ErrUnmountScsi (controller_ lun_ : Z) (path_ : string) (cause : error)
    (* "unmount scsi controller %d lun %d at path %s: %w" *)
| ErrExistingMountpoint (path_ : string).
    (* "cannot mount over an existing mountpoint: %s" *)

(** [options] is a Go slice: [None] is the nil slice, [Some []] an empty,
    non-nil one; [reflect.DeepEqual] tells them apart. *)
Record mountConfig := MountConfig {
  partition : Z;
  readOnly : bool;
  encrypted : bool;
  blockDev : bool;
  options : option (list string);
  ensureFilesystem : bool;
  filesystem : string
}.

#[global] Instance mountConfig_eq_dec : EqDecision mountConfig.
Proof. solve_decision. Defined.

(** [sort.Strings]: increasing byte-wise order. *)
Fixpoint insertString (s : string) (l : list string) : list string :=
  match l with
  | [] => [s]
  | t :: l' => if String.leb s t then s :: t :: l' else t :: insertString s l'
  end.

Fixpoint sortStrings (l : list string) : list string :=
  match l with
  | [] => []
  | s :: l' => insertString s (sortStrings l')
  end.

(** The effect of [sort.Strings(c.options)] on the configuration [c]
    points to; a nil slice stays nil. *)
Definition sortOptions (c : mountConfig) : mountConfig :=
  {| partition := partition c; readOnly := readOnly c; encrypted := encrypted c;
     blockDev := blockDev c; options := sortStrings <$> options c;
     ensureFilesystem := ensureFilesystem c; filesystem := filesystem c |}.

(** [chan struct{}] that is only ever closed. *)
Inductive chan := ChanOpen | ChanClosed.

Record mount := Mount {
  path : string;
  index : Z;
  controller : Z;
  lun : Z;
  config : mountConfig;
  waitErr : option error;
  waitCh : chan;
  refCount : Z
}.

Definition zeroConfig : mountConfig :=
  MountConfig 0 false false false None false "".

#[global] Instance mount_inhabited : Inhabited mount :=
  populate (Mount "" 0 0 0 zeroConfig None ChanOpen 0).

Definition set_refCount (m : mount) (n : Z) : mount :=
  Mount (path m) (index m) (controller m) (lun m) (config m) (waitErr m) (waitCh m) n.

(** [mount.waitErr = err; close(mount.waitCh)] *)
Definition set_ready (m : mount) (err : option error) : mount :=
  Mount (path m) (index m) (controller m) (lun m) (config m) err ChanClosed (refCount m).

(** A [*mount] is an address in [heap]; [mounts] is the Go slice
    [[]*mount], with [None] for a nil entry.  The mutex [m] is the
    atomicity of the functions below, the [mounter] collaborator is an
    oracle: its results are arguments. *)
Abbreviation addr := nat (only parsing).

Record mountManager := MountManager {
  heap : list mount;
  mounts : list (option addr);
  mountFmt : string
}.

Definition newMountManager (mountFmt_ : string) : mountManager :=
  MountManager [] [] mountFmt_.

Definition deref (mm : mountManager) (a : addr) : mount := heap mm !!! a.

Definition store (mm : mountManager) (a : addr) (m : mount) : mountManager :=
  MountManager (<[a := m]> (heap mm)) (mounts mm) (mountFmt mm).

Definition set_mounts (mm : mountManager) (l : list (option addr)) : mountManager :=
  MountManager (heap mm) l (mountFmt mm).

(** A runtime panic (nil dereference, index out of range) or a normal return. *)
Inductive outcome (A : Type) :=
| Normal (a : A)
| Panic.
Arguments Normal {A} a.
Arguments Panic {A}.

Section manager.

(** [fmt.Sprintf(format, index)] with one [int] operand. *)
Variable Sprintf : string -> Z -> string.

(** How the loop of [trackMount] ends. *)
Inductive scanResult :=
| Found (a : addr)
| Conflict
| Exhausted (freeIndex : Z).

(** The loop [for i, mount := range mm.mounts] of [trackMount], from slot
    [i] on. *)
Fixpoint trackScan (h : list mount) (controller_ lun_ : Z) (path_ : string)
    (c : mountConfig) (i freeIndex : Z) (slots : list (option addr)) : scanResult :=
  match slots with
  | [] => Exhausted freeIndex
  | None :: rest =>
      trackScan h controller_ lun_ path_ c (i + 1)
        (if freeIndex =? -1 then i else freeIndex) rest
  | Some a :: rest =>
      let m := h !!! a in
      if (controller_ =? controller m) && (lun_ =? lun m) && bool_decide (c = config m)
      then Found a
      else if negb (String.eqb path_ "") && String.eqb path_ (path m)
      then Conflict
      else trackScan h controller_ lun_ path_ c (i + 1) freeIndex rest
  end.

(** [trackMount] returns the triple of a mount pointer, the [existed]
    flag and an error. *)
Definition trackMount (mm : mountManager) (controller_ lun_ : Z) (path_ : string)
    (c : mountConfig) : mountManager * (option addr * bool * option error) :=
  match trackScan (heap mm) controller_ lun_ path_ c 0 (-1) (mounts mm) with
  | Found a =>
      let m := deref mm a in
      (store mm a (set_refCount m (uint (refCount m + 1))), (Some a, true, None))
  | Conflict => (mm, (None, false, Some (ErrExistingMountpoint path_)))
  | Exhausted freeIndex =>
      let a := length (heap mm) in
      let index_ := if freeIndex =? -1 then Z.of_nat (length (mounts mm)) else freeIndex in
      let mounts' :=
        if freeIndex =? -1 then mounts mm ++ [Some a]
        else <[Z.to_nat freeIndex := Some a]> (mounts mm) in
      let path' := if String.eqb path_ "" then Sprintf (mountFmt mm) index_ else path_ in
      (MountManager (heap mm ++ [Mount path' index_ controller_ lun_ c None ChanOpen 1])
         mounts' (mountFmt mm),
       (Some a, false, None))
  end.

(** [mm.mounts[mount.index] = nil] *)
Definition untrackMount (mm : mountManager) (a : addr) : outcome mountManager :=
  let i := index (deref mm a) in
  if (0 <=? i) && (i <? Z.of_nat (length (mounts mm)))
  then Normal (set_mounts mm (<[Z.to_nat i := None]> (mounts mm)))
  else Panic.

(** The loop [for _, mount = range mm.mounts] of [unmount]: [cur] is the
    variable [mount] declared before the loop, assigned at every
    iteration and kept on [break]. *)
Fixpoint unmountScan (h : list mount) (path_ : string) (cur : option addr)
    (slots : list (option addr)) : option addr :=
  match slots with
  | [] => cur
  | slot :: rest =>
      match slot with
      | Some a =>
          if String.eqb (path (h !!! a)) path_ then slot
          else unmountScan h path_ slot rest
      | None => unmountScan h path_ slot rest
      end
  end.

(** One invocation of the mounter collaborator. *)
Record mounterCall := MounterCall {
  call_controller : Z;
  call_lun : Z;
  call_path : string;
  call_config : mountConfig
}.

(** [unmount(ctx, path)].  [mounterResult] is what [mm.mounter.unmount]
    returns if it is invoked; the third component lists the invocations
    made. *)
Definition unmount (mm : mountManager) (path_ : string) (mounterResult : option error)
    : outcome (mountManager * option error * list mounterCall) :=
  match unmountScan (heap mm) path_ None (mounts mm) with
  | None => Panic
  | Some a =>
      let m := set_refCount (deref mm a) (uint (refCount (deref mm a) - 1)) in
      let mm1 := store mm a m in
      if 0 <? refCount m then Normal (mm1, None, [])
      else
        let call := MounterCall (controller m) (lun m) (path m) (config m) in
        match mounterResult with
        | Some err =>
            Normal (mm1, Some (ErrUnmountScsi (controller m) (lun m) (path m) err), [call])
        | None =>
            match untrackMount mm1 a with
            | Normal mm2 => Normal (mm2, None, [call])
            | Panic => Panic
            end
        end
  end.

(** *** The method [mount], phase by phase

    [mount] takes the mutex only inside [trackMount] and inside its
    deferred function, and blocks in between (in the mounter, or in the
    [select]).  A goroutine that executes it is therefore a sequence of
    atomic phases; [frame] says which phase comes next. *)

Inductive exit :=
| ExitTrack                (* [trackMount] returned an error *)
| ExitDone (a : addr)      (* [case <-ctx.Done()] *)
| ExitReady (a : addr)     (* [case <-mount.waitCh] *)
| ExitPioneer (a : addr).  (* the caller that ran the mounter *)

Inductive frame :=
| InSelect (a : addr)
| InMounter (a : addr) (controller_ lun_ : Z) (c : mountConfig)
| InDeferUntrack (a : addr) (ret : string) (err : error)
| InDeferPublish (a : addr) (ret : string) (err : option error)
| Returned (via : exit) (ret : string) (err : option error).

(** From [sort.Strings(c.options)] to the branch on [existed]. *)
Definition mount_track (mm : mountManager) (controller_ lun_ : Z) (path_ : string)
    (c : mountConfig) : outcome (mountManager * frame * option addr) :=
  let c := sortOptions c in
  match trackMount mm controller_ lun_ path_ c with
  | (mm', (_, _, Some err)) => Normal (mm', Returned ExitTrack "" (Some err), None)
  | (mm', (Some a, true, None)) => Normal (mm', InSelect a, Some a)
  | (mm', (Some a, false, None)) => Normal (mm', InMounter a controller_ lun_ c, Some a)
  | (_, (None, _, None)) => Panic
  end.

(** The [select].  [cancelled = Some e] takes [case <-ctx.Done()] with
    [ctx.Err() = e]; [cancelled = None] takes [case <-mount.waitCh], which
    is enabled once the channel is closed. *)
Definition mount_select (mm : mountManager) (a : addr) (cancelled : option error)
    : option frame :=
  match cancelled with
  | Some e => Some (Returned (ExitDone a) "" (Some e))
  | None =>
      match waitCh (deref mm a) with
      | ChanOpen => None
      | ChanClosed =>
          match waitErr (deref mm a) with
          | Some e => Some (Returned (ExitReady a) "" (Some e))
          | None => Some (Returned (ExitReady a) (path (deref mm a)) None)
          end
      end
  end.

(** [mm.mounter.mount(ctx, controller, lun, mount.path, c)] returned [res]:
    the [return] statement that follows sets the results, then the
    deferred function runs. *)
Definition mount_mounter (mm : mountManager) (a : addr) (controller_ lun_ : Z)
    (res : option error) : frame :=
  match res with
  | Some e => InDeferUntrack a "" (ErrMountScsi controller_ lun_ (path (deref mm a)) e)
  | None => InDeferPublish a (path (deref mm a)) None
  end.

(** The deferred function, first half: under the mutex, when [err != nil]. *)
Definition mount_defer_untrack (mm : mountManager) (a : addr) : outcome mountManager :=
  untrackMount mm a.

(** The deferred function, second half: [mount.waitErr = err] and
    [close(mount.waitCh)]; closing a closed channel panics. *)
Definition mount_defer_publish (mm : mountManager) (a : addr) (err : option error)
    : outcome mountManager :=
  match waitCh (deref mm a) with
  | ChanOpen => Normal (store mm a (set_ready (deref mm a) err))
  | ChanClosed => Panic
  end.

(** *** Goroutines sharing one manager *)

Record system := System {
  manager : mountManager;
  goroutines : list frame
}.

Definition init (mountFmt_ : string) : system :=
  System (newMountManager mountFmt_) [].

(** What can happen next: a new call enters, or goroutine [g] runs its
    next phase.  The mounter's results and the fate of [ctx] come with
    the action. *)
Inductive action :=
| CallMount (controller_ lun_ : Z) (path_ : string) (c : mountConfig)
| CallUnmount (path_ : string) (mounterResult : option error)
| MounterReturns (g : nat) (res : option error)
| DeferUntrack (g : nat)
| DeferPublish (g : nat)
| Select (g : nat) (cancelled : option error).

(** What an action did to the entries and to the mounter. *)
Inductive label :=
| Ref (a : addr)      (* [trackMount] handed out entry [a] with one more reference *)
| Unref (a : addr)    (* [unmount] did [refCount--] on entry [a] *)
| MountCall (a : addr) (call : mounterCall) (res : option error)
| UnmountCall (a : addr) (call : mounterCall) (res : option error).

Definition set_frame (s : system) (g : nat) (f : frame) : system :=
  System (manager s) (<[g := f]> (goroutines s)).

(** One action; [None] when the action is not enabled, or when it panics
    (which takes the process down). *)
Definition step (s : system) (act : action) : option (system * list label) :=
  match act with
  | CallMount controller_ lun_ path_ c =>
      match mount_track (manager s) controller_ lun_ path_ c with
      | Normal (mm', f, got) =>
          Some (System mm' (goroutines s ++ [f]),
                match got with Some a => [Ref a] | None => [] end)
      | Panic => None
      end
  | CallUnmount path_ mounterResult =>
      match unmountScan (heap (manager s)) path_ None (mounts (manager s)),
            unmount (manager s) path_ mounterResult with
      | Some a, Normal (mm', _, calls) =>
          Some (System mm' (goroutines s),
                Unref a :: map (fun call => UnmountCall a call mounterResult) calls)
      | _, _ => None
      end
  | MounterReturns g res =>
      match goroutines s !! g with
      | Some (InMounter a controller_ lun_ c) =>
          Some (set_frame s g (mount_mounter (manager s) a controller_ lun_ res),
                [MountCall a
                   (MounterCall controller_ lun_ (path (deref (manager s) a)) c) res])
      | _ => None
      end
  | DeferUntrack g =>
      match goroutines s !! g with
      | Some (InDeferUntrack a ret err) =>
          match mount_defer_untrack (manager s) a with
          | Normal mm' =>
              Some (System mm' (<[g := InDeferPublish a ret (Some err)]> (goroutines s)), [])
          | Panic => None
          end
      | _ => None
      end
  | DeferPublish g =>
      match goroutines s !! g with
      | Some (InDeferPublish a ret err) =>
          match mount_defer_publish (manager s) a err with
          | Normal mm' =>
              Some (System mm' (<[g := Returned (ExitPioneer a) ret err]> (goroutines s)), [])
          | Panic => None
          end
      | _ => None
      end
  | Select g cancelled =>
      match goroutines s !! g with
      | Some (InSelect a) =>
          match mount_select (manager s) a cancelled with
          | Some f => Some (set_frame s g f, [])
          | None => None
          end
      | _ => None
      end
  end.

(** A schedule, run from [s]; the labels come out in order. *)
Fixpoint run (s : system) (acts : list action) : option (system * list label) :=
  match acts with
  | [] => Some (s, [])
  | act :: rest =>
      match step s act with
      | Some (s', ls) =>
          match run s' rest with
          | Some (s'', ls') => Some (s'', ls ++ ls')
          | None => None
          end
      | None => None
      end
  end.

End manager.

(** *** A model of [fmt.Sprintf] with one [int] operand

    Enough of the verb syntax for the formats a manager is created with:
    literal text, [%d] and [%%].  A second [%d] finds no operand, an
    unused operand is reported at the end, as [fmt] does. *)
Fixpoint SprintfGo (format : string) (operand : option Z) : string :=
  match format with
  | EmptyString =>
      match operand with
      | Some i => "%!(EXTRA int=" +:+ pretty i +:+ ")"
      | None => ""
      end
  | String ch rest =>
      if Ascii.eqb ch "%"%char then
        match rest with
        | String v rest' =>
            if Ascii.eqb v "d"%char then
              match operand with
              | Some i => pretty i +:+ SprintfGo rest' None
              | None => "%!d(MISSING)" +:+ SprintfGo rest' None
              end
            else if Ascii.eqb v "%"%char then String "%"%char (SprintfGo rest' operand)
            else String ch (SprintfGo rest operand)
        | EmptyString => "%!(NOVERB)" +:+ SprintfGo rest operand
        end
      else String ch (SprintfGo rest operand)
  end.

Definition SprintfInt (format : string) (i : Z) : string := SprintfGo format (Some i).

(** *** Vocabulary for statements about managers and schedules *)

(** Entry [a] is live: slot [i] of the table points to it. *)
Definition live (mm : mountManager) (i : nat) (a : addr) : Prop :=
  mounts mm !! i = Some (Some a).

Definition tracked (mm : mountManager) (a : addr) : Prop :=
  exists i, live mm i a.

(** The key comparison of [trackMount], as a proposition. *)
Definition keyEqual (m : mount) (controller_ lun_ : Z) (c : mountConfig) : Prop :=
  controller m = controller_ /\ lun m = lun_ /\ config m = c.

(** Entry [b] decides the loop of [trackMount]: it has the caller's key,
    or the caller's non-empty path. *)
Definition decisive (h : list mount) (controller_ lun_ : Z) (path_ : string)
    (c : mountConfig) (b : addr) : Prop :=
  keyEqual (h !!! b) controller_ lun_ c \/ (path_ <> "" /\ path (h !!! b) = path_).

(** Entry [a], live at slot [i], owns [path_]: it is the first live
    entry with that path, the one the loop of [unmount] stops at. *)
Definition owns (mm : mountManager) (i : nat) (a : addr) (path_ : string) : Prop :=
  live mm i a /\ path (deref mm a) = path_ /\
  forall j b, (j < i)%nat -> live mm j b -> path (deref mm b) <> path_.

(** Table entries point into the heap and know their slot. *)
Definition wf (mm : mountManager) : Prop :=
  forall i a, live mm i a ->
    (a < length (heap mm))%nat /\ index (deref mm a) = Z.of_nat i.

(** What the pioneer of an entry reports once it is ready. *)
Definition result (m : mount) : string * option error :=
  match waitErr m with
  | Some e => ("", Some e)
  | None => (path m, None)
  end.

Fixpoint tally (f : label -> bool) (tr : list label) : Z :=
  match tr with
  | [] => 0
  | l :: tr' => (if f l then 1 else 0) + tally f tr'
  end.

(** References taken on, and dropped from, entry [a] along a trace, and
    invocations of [mounter.mount] for it. *)
Definition refs (a : addr) : list label -> Z :=
  tally (fun l => match l with Ref b => bool_decide (a = b) | _ => false end).

Definition unrefs (a : addr) : list label -> Z :=
  tally (fun l => match l with Unref b => bool_decide (a = b) | _ => false end).

Definition mountCalls (a : addr) : list label -> Z :=
  tally (fun l => match l with MountCall b _ _ => bool_decide (a = b) | _ => false end).

(** The entry a goroutine holds a pointer to, and the entry it is the
    pioneer of while it has not returned. *)
Definition frame_addr (f : frame) : option addr :=
  match f with
  | InSelect a | InMounter a _ _ _ | InDeferUntrack a _ _ | InDeferPublish a _ _ => Some a
  | Returned (ExitDone a) _ _ | Returned (ExitReady a) _ _
  | Returned (ExitPioneer a) _ _ => Some a
  | Returned ExitTrack _ _ => None
  end.

Definition pioneering (f : frame) : option addr :=
  match f with
  | InMounter a _ _ _ | InDeferUntrack a _ _ | InDeferPublish a _ _ => Some a
  | _ => None
  end.

(** No two live entries have the same key. *)
Definition keys_unique (mm : mountManager) : Prop :=
  forall i j a b, live mm i a -> live mm j b ->
    keyEqual (deref mm a) (controller (deref mm b)) (lun (deref mm b)) (config (deref mm b)) ->
    i = j.

(** The two managers differ at most in reference counts and in slots
    that [mm'] has set to nil. *)
Definition shrinks (mm mm' : mountManager) : Prop :=
  length (heap mm') = length (heap mm) /\
  length (mounts mm') = length (mounts mm) /\
  (forall a, set_refCount (deref mm' a) 0 = set_refCount (deref mm a) 0) /\
  (forall i a, live mm' i a -> live mm i a).

(** What holds of every system a schedule can produce. *)
Record consistent (s : system) : Prop := Consistent {
  c_wf : wf (manager s);
  c_index : forall a, (a < length (heap (manager s)))%nat ->
    0 <= index (deref (manager s) a) < Z.of_nat (length (mounts (manager s)));
  c_keys : keys_unique (manager s);
  c_frames : forall g f a, goroutines s !! g = Some f -> frame_addr f = Some a ->
    (a < length (heap (manager s)))%nat;
  c_open : forall g f a, goroutines s !! g = Some f -> pioneering f = Some a ->
    waitCh (deref (manager s) a) = ChanOpen;
  c_unique : forall g g' f f' a,
    goroutines s !! g = Some f -> goroutines s !! g' = Some f' ->
    pioneering f = Some a -> pioneering f' = Some a -> g = g';
  c_failed : forall g a ret e,
    goroutines s !! g = Some (InDeferPublish a ret (Some e)) -> ~ tracked (manager s) a;
  c_error : forall a e,
    waitCh (deref (manager s) a) = ChanClosed -> waitErr (deref (manager s) a) = Some e ->
    ~ tracked (manager s) a;
  c_closed : forall a, waitCh (deref (manager s) a) = ChanClosed ->
    exists g, goroutines s !! g
              = Some (Returned (ExitPioneer a) (result (deref (manager s) a)).1
                        (result (deref (manager s) a)).2);
  c_ready : forall g a ret err,
    goroutines s !! g = Some (Returned (ExitReady a) ret err) ->
    waitCh (deref (manager s) a) = ChanClosed /\ result (deref (manager s) a) = (ret, err);
  c_pioneer : forall g a ret err,
    goroutines s !! g = Some (Returned (ExitPioneer a) ret err) ->
    waitCh (deref (manager s) a) = ChanClosed /\ result (deref (manager s) a) = (ret, err);
  c_untrack : forall g a ret err,
    goroutines s !! g = Some (InDeferUntrack a ret err) -> ret = "";
  c_publish : forall g a ret err,
    goroutines s !! g = Some (InDeferPublish a ret err) ->
    ret = match err with Some _ => "" | None => path (deref (manager s) a) end
}.

(** The trace accounts for every reference count, and names allocated
    entries only. *)
Definition counted (s : system) (tr : list label) : Prop :=
  (forall a, (a < length (heap (manager s)))%nat ->
     refCount (deref (manager s) a) = uint (refs a tr - unrefs a tr)) /\
  (forall a, (length (heap (manager s)) <= a)%nat ->
     refs a tr = 0 /\ unrefs a tr = 0 /\ mountCalls a tr = 0).

(** The mounter was asked to mount entry [a] at most once, and nobody is
    about to ask again. *)
Definition mounted_once (s : system) (tr : list label) : Prop :=
  forall a,
    mountCalls a tr = 0 \/
    (mountCalls a tr = 1 /\
     forall g controller_ lun_ c,
       goroutines s !! g <> Some (InMounter a controller_ lun_ c)).

(** [s] with trace [tr] is what some schedule makes of a new manager. *)
Definition reachable (Sprintf : string -> Z -> string) (mountFmt_ : string)
    (s : system) (tr : list label) : Prop :=
  exists acts, run Sprintf (init mountFmt_) acts = Some (s, tr).

End scsi.

(** ** Scenarios

    Concrete managers and schedules, with [SprintfInt] for
    [fmt.Sprintf]. *)

Module scenario.

Import scsi.

Definition mountFmt0 : string := "/mnt/scsi/%d".

(** Two configurations that differ in the order of their options only. *)
Definition cfgA : mountConfig :=
  MountConfig 0 true false false (Some ["ro"; "noatime"]) false "ext4".
Definition cfgB : mountConfig :=
  MountConfig 0 true false false (Some ["noatime"; "ro"]) false "ext4".

Definition cfg0 : mountConfig := MountConfig 0 false false false None false "".

Definition busy : error := ErrMounter "device or resource busy".
Definition canceled : error := ErrContext "context canceled".

(** What a schedule makes of a new manager with format [mountFmt0]. *)
Definition outcome_of (acts : list action) : system * list label :=
  default (init mountFmt0, []) (run SprintfInt (init mountFmt0) acts).

(** One call to [mount], its pioneer still in the mounter. *)
Definition in_flight : list action := [CallMount 0 3 "" cfgA].

(** The same call, completed. *)
Definition mounted : list action :=
  [CallMount 0 3 "" cfgA; MounterReturns 0 None; DeferPublish 0].

(** The mounter has failed; the pioneer is in its deferred function,
    another caller waits. *)
Definition failing : list action :=
  [CallMount 0 3 "" cfgA; CallMount 0 3 "" cfgB; MounterReturns 0 (Some busy)].

(** A second caller with the same key arrives, then is cancelled. *)
Definition cancelled_waiter : list action :=
  [CallMount 0 3 "" cfgA; CallMount 0 3 "" cfgB; MounterReturns 0 None; DeferPublish 0;
   Select 1 (Some canceled)].

(** Two devices mounted at caller-supplied paths. *)
Definition two_paths : list action :=
  [CallMount 0 1 "/a" cfg0; MounterReturns 0 None; DeferPublish 0;
   CallMount 0 2 "/b" cfg0; MounterReturns 1 None; DeferPublish 1].

(** Two devices mounted, the first unmounted again: slot 0 is nil. *)
Definition with_tombstone : list action :=
  [CallMount 0 3 "" cfg0; MounterReturns 0 None; DeferPublish 0;
   CallMount 0 4 "" cfg0; MounterReturns 1 None; DeferPublish 1;
   CallUnmount "/mnt/scsi/0" None].

(** A caller-supplied path that looks like a generated one, then a call
    that leaves the choice of the path to the manager. *)
Definition supplied_then_generated : list action :=
  [CallMount 0 0 "/mnt/scsi/1" cfg0; MounterReturns 0 None; DeferPublish 0;
   CallMount 0 1 "" cfg0; MounterReturns 1 None; DeferPublish 1].

(** The only reference is dropped and the mounter fails; [unmount] is
    then called again for the same path. *)
Definition unmount_retried : list action :=
  [CallMount 0 3 "" cfgA; MounterReturns 0 None; DeferPublish 0;
   CallUnmount "/mnt/scsi/0" (Some busy); CallUnmount "/mnt/scsi/0" None].

(** The mounter has failed and the pioneer has published its error while
    another caller still waits. *)
Definition failure_published : list action :=
  failing ++ [DeferUntrack 0; DeferPublish 0].

End scenario.

(** A stand-in for the JSON layer, to run the decoder on: the envelope
    carries its whole input as [Request], the request has a fixed
    [ResourceType] and [RequestType], and a settings record is the
    length of its raw bytes.  The resource type names are sample
    values. *)
Module sample.

Import prot.

Definition names : resourceTypes :=
  ResourceTypes "SCSIDevice" "MappedVirtualDisk" "MappedDirectory" "VPMemDevice"
    "CombinedLayers" "Network" "VPCIDevice" "ContainerConstraints" "SecurityPolicy"
    "SecurityPolicyFragment".

Definition envelope (b : RawMessage) : string + (MessageBase * option RawMessage) :=
  match b with
  | [] => inl "unexpected end of JSON input"
  | _ => inr (MkMessageBase "c1" "a1" None, Some b)
  end.

Definition request (resourceType requestType : string) (raw : RawMessage)
    : string + (string * string * RawMessage) :=
  inr (resourceType, requestType, raw).

Definition settingsOf (t : settingsType) (raw : RawMessage) : string + nat :=
  inr (length raw).

End sample.

(** ** Package prot: the identifier registry and [SchemaVersion] *)

Module registry.

Import prot.

Definition MiNone : Z := 0.
Definition ComputeSystemStartV1 : Z := 0x10100201.
Definition ComputeSystemShutdownGracefulV1 : Z := 0x10100301.
Definition ComputeSystemShutdownForcedV1 : Z := 0x10100401.
Definition ComputeSystemExecuteProcessV1 : Z := 0x10100501.
Definition ComputeSystemWaitForProcessV1 : Z := 0x10100601.
Definition ComputeSystemSignalProcessV1 : Z := 0x10100701.
Definition ComputeSystemResizeConsoleV1 : Z := 0x10100801.
Definition ComputeSystemGetPropertiesV1 : Z := 0x10100901.
Definition ComputeSystemDumpStacksV1 : Z := 0x10100c01.
Definition ComputeSystemDeleteContainerStateV1 : Z := 0x10100d01.
Definition ComputeSystemResponseStartV1 : Z := 0x20100201.
Definition ComputeSystemResponseShutdownGracefulV1 : Z := 0x20100301.
Definition ComputeSystemResponseShutdownForcedV1 : Z := 0x20100401.
Definition ComputeSystemResponseExecuteProcessV1 : Z := 0x20100501.
Definition ComputeSystemResponseWaitForProcessV1 : Z := 0x20100601.
Definition ComputeSystemResponseSignalProcessV1 : Z := 0x20100701.
Definition ComputeSystemResponseResizeConsoleV1 : Z := 0x20100801.
Definition ComputeSystemResponseGetPropertiesV1 : Z := 0x20100901.
Definition ComputeSystemResponseDumpStacksV1 : Z := 0x20100c01.
Definition ComputeSystemNotificationV1 : Z := 0x30100101.

(** [strconv.FormatUint(uint64(mi), 10)]: decimal digits, no sign, no
    leading zero. *)
Definition FormatUint10 (mi : Z) : string := pretty (Z.to_N mi).

(** [func (mi MessageIdentifier) String() string]: the [switch], case by
    case in the order of the source; [mi] is a [uint32]. *)
Definition MessageIdentifier_String (mi : Z) : string :=
  if mi =? MiNone then "None"
  else if mi =? ComputeSystemCreateV1 then "ComputeSystemCreateV1"
  else if mi =? ComputeSystemStartV1 then "ComputeSystemStartV1"
  else if mi =? ComputeSystemShutdownGracefulV1 then "ComputeSystemShutdownGracefulV1"
  else if mi =? ComputeSystemShutdownForcedV1 then "ComputeSystemShutdownForcedV1"
  else if mi =? ComputeSystemExecuteProcessV1 then "ComputeSystemExecuteProcessV1"
  else if mi =? ComputeSystemWaitForProcessV1 then "ComputeSystemWaitForProcessV1"
  else if mi =? ComputeSystemSignalProcessV1 then "ComputeSystemSignalProcessV1"
  else if mi =? ComputeSystemResizeConsoleV1 then "ComputeSystemResizeConsoleV1"
  else if mi =? ComputeSystemGetPropertiesV1 then "ComputeSystemGetPropertiesV1"
  else if mi =? ComputeSystemModifySettingsV1 then "ComputeSystemModifySettingsV1"
  else if mi =? ComputeSystemNegotiateProtocolV1 then "ComputeSystemNegotiateProtocolV1"
  else if mi =? ComputeSystemDumpStacksV1 then "ComputeSystemDumpStacksV1"
  else if mi =? ComputeSystemDeleteContainerStateV1
  then "ComputeSystemDeleteContainerStateV1"
  else if mi =? ComputeSystemResponseCreateV1 then "ComputeSystemResponseCreateV1"
  else if mi =? ComputeSystemResponseStartV1 then "ComputeSystemResponseStartV1"
  else if mi =? ComputeSystemResponseShutdownGracefulV1
  then "ComputeSystemResponseShutdownGracefulV1"
  else if mi =? ComputeSystemResponseShutdownForcedV1
  then "ComputeSystemResponseShutdownForcedV1"
  else if mi =? ComputeSystemResponseExecuteProcessV1
  then "ComputeSystemResponseExecuteProcessV1"
  else if mi =? ComputeSystemResponseWaitForProcessV1
  then "ComputeSystemResponseWaitForProcessV1"
  else if mi =? ComputeSystemResponseSignalProcessV1
  then "ComputeSystemResponseSignalProcessV1"
  else if mi =? ComputeSystemResponseResizeConsoleV1
  then "ComputeSystemResponseResizeConsoleV1"
  else if mi =? ComputeSystemResponseGetPropertiesV1
  then "ComputeSystemResponseGetPropertiesV1"
  else if mi =? ComputeSystemResponseModifySettingsV1
  then "ComputeSystemResponseModifySettingsV1"
  else if mi =? ComputeSystemResponseNegotiateProtocolV1
  then "ComputeSystemResponseNegotiateProtocolV1"
  else if mi =? ComputeSystemResponseDumpStacksV1 then "ComputeSystemResponseDumpStacksV1"
  else if mi =? ComputeSystemNotificationV1 then "ComputeSystemNotificationV1"
  else FormatUint10 mi.

(** The request identifiers, and the identifiers [String] has a name
    for. *)
Definition requests : list Z :=
  [ ComputeSystemCreateV1; ComputeSystemStartV1; ComputeSystemShutdownGracefulV1;
    ComputeSystemShutdownForcedV1; ComputeSystemExecuteProcessV1;
    ComputeSystemWaitForProcessV1; ComputeSystemSignalProcessV1;
    ComputeSystemResizeConsoleV1; ComputeSystemGetPropertiesV1;
    ComputeSystemModifySettingsV1; ComputeSystemNegotiateProtocolV1;
    ComputeSystemDumpStacksV1; ComputeSystemDeleteContainerStateV1 ].

Definition responses : list Z :=
  [ ComputeSystemResponseCreateV1; ComputeSystemResponseStartV1;
    ComputeSystemResponseShutdownGracefulV1; ComputeSystemResponseShutdownForcedV1;
    ComputeSystemResponseExecuteProcessV1; ComputeSystemResponseWaitForProcessV1;
    ComputeSystemResponseSignalProcessV1; ComputeSystemResponseResizeConsoleV1;
    ComputeSystemResponseGetPropertiesV1; ComputeSystemResponseModifySettingsV1;
    ComputeSystemResponseNegotiateProtocolV1; ComputeSystemResponseDumpStacksV1 ].

Definition named : list Z :=
  MiNone :: requests ++ responses ++ [ComputeSystemNotificationV1].

(** ["ComputeSystemXV1"] to ["ComputeSystemResponseXV1"]. *)
Definition responseName (name : string) : string :=
  "ComputeSystemResponse" +:+ String.substring 13 (String.length name - 13) name.

(** The text starts with a decimal digit. *)
Definition digitHead (s : string) : bool :=
  match s with
  | String c _ => (48 <=? N_of_ascii c)%N && (N_of_ascii c <=? 57)%N
  | EmptyString => false
  end.

(** [SchemaVersion] and its method [Cmp], on a non-nil receiver. *)
Record SchemaVersion := MkSchemaVersion {
  Major : Z;
  Minor : Z
}.

Definition Cmp (s v : SchemaVersion) : Z :=
  if Major s =? Major v then
    if Minor s =? Minor v then 0
    else if Minor s <? Minor v then -1
    else 1
  else if Major s <? Major v then -1
  else 1.

End registry.

(** * Properties of package prot *)

Section prot_facts.

Import prot.

Example response_of_create :
  GetResponseIdentifier ComputeSystemCreateV1 = ComputeSystemResponseCreateV1.
Proof. reflexivity. Qed.

Example response_of_negotiate :
  GetResponseIdentifier ComputeSystemNegotiateProtocolV1
  = ComputeSystemResponseNegotiateProtocolV1.
Proof. reflexivity. Qed.

(** The low 28 bits of the argument survive and the response bit sits
    above them. *)
Lemma GetResponseIdentifier_sum (R : Z) :
  0 <= R < 2 ^ 32 ->
  GetResponseIdentifier R = 2 ^ 29 + R mod 2 ^ 28.
Proof.
  intros HR. unfold GetResponseIdentifier, not32, uint32, MtResponse, messageTypeMask.
  rewrite (Z.mod_small R) by lia.
  change (Z.lxor (0xF0000000 mod 2 ^ 32) 0xFFFFFFFF) with (Z.ones 28).
  rewrite Z.land_ones by lia.
  change 0x20000000 with (2 ^ 29).
  assert (Hlow : 0 <= R mod 2 ^ 28 < 2 ^ 28) by (apply Z.mod_pos_bound; lia).
  assert (Hdisj : Z.land (2 ^ 29) (R mod 2 ^ 28) = 0).
  { apply Z.bits_inj'. intros n Hn.
    rewrite Z.land_spec, Z.bits_0, Z.pow2_bits_eqb by lia.
    destruct (Z.eqb_spec 29 n) as [<-|Hne]; [|reflexivity].
    rewrite Z.mod_pow2_bits_high by lia. reflexivity. }
  rewrite <- Z.lxor_lor by exact Hdisj.
  rewrite <- Z.add_nocarry_lxor by exact Hdisj.
  apply Z.mod_small. lia.
Qed.

(** C9: for every 32-bit identifier [R], [GetResponseIdentifier R] has
    the type nibble (bits 31..28) equal to the Response value [0x2], the
    same low 28 bits as [R], and is again a 32-bit value. *)
Theorem GetResponseIdentifier_type_nibble (R : Z) :
  0 <= R < 2 ^ 32 ->
  Z.shiftr (GetResponseIdentifier R) 28 = 2 /\
  Z.land (GetResponseIdentifier R) messageTypeMask = MtResponse /\
  Z.land (GetResponseIdentifier R) 0x0FFFFFFF = Z.land R 0x0FFFFFFF /\
  0 <= GetResponseIdentifier R < 2 ^ 32.
Proof.
  intros HR. rewrite GetResponseIdentifier_sum by exact HR.
  assert (Hlow : 0 <= R mod 2 ^ 28 < 2 ^ 28) by (apply Z.mod_pos_bound; lia).
  assert (Hhi : (2 ^ 29 + R mod 2 ^ 28) / 2 ^ 28 = 2).
  { symmetry. apply (Z.div_unique _ _ 2 (R mod 2 ^ 28)); lia. }
  repeat split; try lia.
  - rewrite Z.shiftr_div_pow2 by lia. exact Hhi.
  - change messageTypeMask with (Z.shiftl (Z.ones 4) 28).
    change MtResponse with (Z.shiftl 2 28).
    apply Z.bits_inj'. intros n Hn.
    rewrite Z.land_spec.
    destruct (Z.lt_ge_cases n 28) as [Hlt|Hge].
    + rewrite !Z.shiftl_spec_low by lia. apply andb_false_r.
    + rewrite !Z.shiftl_spec by lia.
      replace n with ((n - 28) + 28) at 1 by lia.
      rewrite <- Z.shiftr_spec by lia.
      rewrite Z.shiftr_div_pow2, Hhi by lia.
      destruct (Z.lt_ge_cases (n - 28) 4) as [H4|H4].
      * rewrite Z.ones_spec_low by lia. apply andb_true_r.
      * rewrite Z.ones_spec_high by lia. rewrite andb_false_r.
        symmetry. apply (Z.bits_above_log2 2 (n - 28)); simpl; lia.
  - change 0x0FFFFFFF with (Z.ones 28). rewrite !Z.land_ones by lia.
    rewrite Z.add_comm. change (2 ^ 29) with (2 * 2 ^ 28).
    rewrite Z.mod_add by lia. apply Z.mod_mod. lia.
Qed.

Lemma GetResponseIdentifier_type_nibble_witness :
  0 <= ComputeSystemModifySettingsV1 < 2 ^ 32 /\
  Z.shiftr (GetResponseIdentifier ComputeSystemModifySettingsV1) 28 = 2 /\
  Z.land (GetResponseIdentifier ComputeSystemModifySettingsV1) messageTypeMask = MtResponse /\
  Z.land (GetResponseIdentifier ComputeSystemModifySettingsV1) 0x0FFFFFFF
  = Z.land ComputeSystemModifySettingsV1 0x0FFFFFFF /\
  0 <= GetResponseIdentifier ComputeSystemModifySettingsV1 < 2 ^ 32.
Proof.
  assert (H : 0 <= ComputeSystemModifySettingsV1 < 2 ^ 32)
    by (unfold ComputeSystemModifySettingsV1; lia).
  split; [exact H | exact (GetResponseIdentifier_type_nibble _ H)].
Defined.


Section decode_facts.

Context {jsonError : Type} {record : settingsType -> Type}.
Variable unmarshalEnvelope : RawMessage -> jsonError + (MessageBase * option RawMessage).
Variable unmarshalRequest : RawMessage -> jsonError + (string * string * RawMessage).
Variable unmarshalSettings : forall t : settingsType, RawMessage -> jsonError + record t.
Variable names : resourceTypes.
Variable RequestTypeAdd : string.

Local Abbreviation decode :=
  (UnmarshalContainerModifySettings unmarshalEnvelope unmarshalRequest unmarshalSettings
     names RequestTypeAdd).
Local Abbreviation spec :=
  (twoPhaseDecode unmarshalEnvelope unmarshalRequest unmarshalSettings names RequestTypeAdd).

(** A case of the [switch] either fails on the settings or completes the
    request. *)
Lemma decodeCase_cases (request : containerModifySettings record) resourceType requestType raw t
    message :
  match unmarshalSettings t raw with
  | inl e =>
      decodeCase jsonError record unmarshalSettings request resourceType requestType raw t
        message
      = (Some request, Some (Wrap (Hresult e) message))
  | inr v =>
      decodeCase jsonError record unmarshalSettings request resourceType requestType raw t
        message
      = (Some (MkContainerModifySettings (Base request)
                 (RequestParsed (MkModificationRequest resourceType requestType (Decoded t v)))),
         None)
  end.
Proof. unfold decodeCase. destruct (unmarshalSettings t raw); reflexivity. Qed.

(** C8: [UnmarshalContainerModifySettings] is the two-phase decoder:
    the envelope is parsed with [Request] left raw, [Request] is parsed
    into [ResourceType], [RequestType] (defaulted to Add when empty) and
    raw [Settings], and [Settings] is parsed into the record that
    [ResourceType] selects; a [ResourceType] outside the table gives the
    invalid-resource-type error.  On success the message carries the
    decoded request, on failure the error of the failing stage. *)
Theorem UnmarshalContainerModifySettings_two_phase (b : RawMessage) :
  match spec b with
  | inr (base, msr) =>
      decode b = (Some (MkContainerModifySettings base (RequestParsed msr)), None)
  | inl (BadEnvelope e) =>
      decode b
      = (None, Some (Wrap (Hresult e) "failed to unmarshal ContainerModifySettings"))
  | inl (BadRequest e) =>
      exists request,
        decode b
        = (Some request,
           Some (Wrap (Hresult e)
                   "failed to unmarshal request.Settings as ModifySettingRequest"))
  | inl (BadSettings t e) =>
      exists request message, decode b = (Some request, Some (Wrap (Hresult e) message))
  | inl (InvalidResourceType resourceType) =>
      exists request, decode b = (Some request, Some (ErrInvalidResourceType resourceType))
  end.
Proof.
  unfold UnmarshalContainerModifySettings, twoPhaseDecode.
  destruct (unmarshalEnvelope b) as [e|[base field]]; [reflexivity|].
  destruct (unmarshalRequest (default [] field)) as [e|[[resourceType requestType] raw]];
    [eexists; reflexivity|].
  unfold variants. cbn [variantOf].
  repeat
    match goal with
    | |- context [String.eqb resourceType ?name] =>
        destruct (String.eqb resourceType name);
        [ match goal with
          | |- context [decodeCase _ _ _ ?rq ?rt ?rqt ?rw ?t ?msg] =>
              pose proof (decodeCase_cases rq rt rqt rw t msg) as Hcase;
              destruct (unmarshalSettings t rw);
              rewrite Hcase; [do 2 eexists; reflexivity | reflexivity]
          end
        | ]
    end.
  eexists; reflexivity.
Qed.

End decode_facts.

(** S5: a mapped-virtual-disk request without [RequestType] is decoded
    with [RequestType = Add]; an unknown [ResourceType] is refused and
    the message keeps the raw request. *)
Example decode_mapped_virtual_disk :
  UnmarshalContainerModifySettings sample.envelope (sample.request "MappedVirtualDisk" "")
    sample.settingsOf sample.names "Add" [Byte.x7b; Byte.x7d]
  = (Some (MkContainerModifySettings (MkMessageBase "c1" "a1" None)
             (RequestParsed
                (MkModificationRequest "MappedVirtualDisk" "Add"
                   (Decoded (record := fun _ => nat) LCOWMappedVirtualDisk 2%nat)))),
     None).
Proof. reflexivity. Qed.

Example decode_unknown_resource_type :
  UnmarshalContainerModifySettings (record := fun _ => nat) sample.envelope
    (sample.request "Bogus" "Remove") sample.settingsOf sample.names "Add"
    [Byte.x7b; Byte.x7d]
  = (Some (MkContainerModifySettings (MkMessageBase "c1" "a1" None)
             (RequestRaw [Byte.x7b; Byte.x7d])),
     Some (ErrInvalidResourceType "Bogus")).
Proof. reflexivity. Qed.

End prot_facts.

(** * Properties of package scsi *)

Section scsi_facts.

Import scsi.

Variable Sprintf : string -> Z -> string.

(** ** Unsigned arithmetic, heap reads and writes *)

Lemma uint_range (x : Z) : 0 <= uint x < 2 ^ uintSize.
Proof. unfold uint, uintSize. apply Z.mod_pos_bound. lia. Qed.

Lemma uint_idemp_add (x y : Z) : uint (uint x + y) = uint (x + y).
Proof. unfold uint. apply Zplus_mod_idemp_l. Qed.

Lemma uint_idemp_sub (x y : Z) : uint (uint x - y) = uint (x - y).
Proof. unfold uint. apply Zminus_mod_idemp_l. Qed.

Lemma uint_small (x : Z) : 0 <= x < 2 ^ uintSize -> uint x = x.
Proof. unfold uint. apply Z.mod_small. Qed.

Lemma deref_store_eq (mm : mountManager) (a : addr) (m : mount) :
  (a < length (heap mm))%nat -> deref (store mm a m) a = m.
Proof. intros Ha. unfold deref, store. simpl. by apply list_lookup_total_insert_eq. Qed.

Lemma deref_store_ne (mm : mountManager) (a b : addr) (m : mount) :
  a <> b -> deref (store mm a m) b = deref mm b.
Proof. intros Hne. unfold deref, store. simpl. by apply list_lookup_total_insert_ne. Qed.

Lemma length_heap_store (mm : mountManager) (a : addr) (m : mount) :
  length (heap (store mm a m)) = length (heap mm).
Proof. unfold store. simpl. apply length_insert. Qed.

Lemma deref_lookup (mm : mountManager) (a : addr) (m : mount) :
  heap mm !! a = Some m -> deref mm a = m.
Proof. intros H. unfold deref. by apply list_lookup_total_correct. Qed.

(** ** [sort.Strings] *)

Lemma insertString_perm (s : string) (l : list string) : insertString s l ≡ₚ s :: l.
Proof.
  induction l as [|t l IH]; simpl; [done|].
  destruct (String.leb s t); [done|]. rewrite IH. apply Permutation_swap.
Qed.

Lemma sortStrings_perm (l : list string) : sortStrings l ≡ₚ l.
Proof.
  induction l as [|s l IH]; simpl; [done|]. by rewrite insertString_perm, IH.
Qed.

Lemma insertString_sorted (s : string) (l : list string) :
  Sorted (fun a b => String.leb a b = true) l ->
  Sorted (fun a b => String.leb a b = true) (insertString s l).
Proof.
  induction l as [|t l IH]; intros Hl; simpl.
  - by repeat constructor.
  - destruct (String.leb s t) eqn:Hst.
    + constructor; [done|]. by constructor.
    + apply Sorted_inv in Hl. destruct Hl as [Hl Hhd].
      constructor; [by apply IH|].
      assert (Hts : String.leb t s = true).
      { destruct (String.leb_total s t) as [H|H]; [congruence|done]. }
      destruct l as [|u l]; simpl.
      * by constructor.
      * destruct (String.leb s u); constructor; [done|by inversion Hhd].
Qed.

Lemma sortStrings_sorted (l : list string) :
  Sorted (fun a b => String.leb a b = true) (sortStrings l).
Proof.
  induction l as [|s l IH]; simpl; [constructor|]. by apply insertString_sorted.
Qed.

(** ** The two loops *)

Lemma keyEqual_test (m : mount) (controller_ lun_ : Z) (c : mountConfig) :
  (controller_ =? controller m) && (lun_ =? lun m) && bool_decide (c = config m) = true
  <-> keyEqual m controller_ lun_ c.
Proof.
  unfold keyEqual. rewrite !andb_true_iff, !Z.eqb_eq, bool_decide_eq_true.
  intuition congruence.
Qed.

Lemma collision_test (m : mount) (path_ : string) :
  negb (String.eqb path_ "") && String.eqb path_ (path m) = true
  <-> path_ <> "" /\ path m = path_.
Proof.
  rewrite andb_true_iff, negb_true_iff, String.eqb_eq, String.eqb_neq.
  intuition congruence.
Qed.

Lemma trackScan_spec (h : list mount) controller_ lun_ path_ c (slots : list (option addr)) :
  forall i freeIndex, 0 <= i ->
  match trackScan h controller_ lun_ path_ c i freeIndex slots with
  | Found a =>
      exists k, slots !! k = Some (Some a) /\ keyEqual (h !!! a) controller_ lun_ c /\
        forall j b, (j < k)%nat -> slots !! j = Some (Some b) ->
          ~ decisive h controller_ lun_ path_ c b
  | Conflict =>
      exists k a, slots !! k = Some (Some a) /\
        ~ keyEqual (h !!! a) controller_ lun_ c /\ path_ <> "" /\ path (h !!! a) = path_ /\
        forall j b, (j < k)%nat -> slots !! j = Some (Some b) ->
          ~ decisive h controller_ lun_ path_ c b
  | Exhausted freeIndex' =>
      (forall k b, slots !! k = Some (Some b) -> ~ decisive h controller_ lun_ path_ c b) /\
      (if freeIndex =? -1 then
         (freeIndex' = -1 /\ forall k, slots !! k <> Some None) \/
         (exists k, freeIndex' = i + Z.of_nat k /\ slots !! k = Some None /\
            forall j, (j < k)%nat -> slots !! j <> Some None)
       else freeIndex' = freeIndex)
  end.
Proof.
  induction slots as [|slot rest IH]; intros i freeIndex Hi; simpl.
  - split; [intros k b Hk; by rewrite lookup_nil in Hk|].
    destruct (freeIndex =? -1) eqn:Hf; [|reflexivity].
    left. apply Z.eqb_eq in Hf. split; [exact Hf|]. intros k Hk. by rewrite lookup_nil in Hk.
  - destruct slot as [a|].
    + destruct ((controller_ =? controller (h !!! a)) && (lun_ =? lun (h !!! a))
                && bool_decide (c = config (h !!! a))) eqn:Hkey.
      { apply keyEqual_test in Hkey. exists 0%nat. split; [reflexivity|].
        split; [exact Hkey|]. intros j b Hj. lia. }
      assert (Hnk : ~ keyEqual (h !!! a) controller_ lun_ c).
      { intros Hk. apply keyEqual_test in Hk. congruence. }
      destruct (negb (String.eqb path_ "") && String.eqb path_ (path (h !!! a))) eqn:Hcol.
      { apply collision_test in Hcol. destruct Hcol as [Hne Hp].
        exists 0%nat, a. repeat split; try done. intros j b Hj. lia. }
      assert (Hnd : ~ decisive h controller_ lun_ path_ c a).
      { intros [Hk|Hc]; [by apply Hnk|]. apply collision_test in Hc. congruence. }
      specialize (IH (i + 1) freeIndex ltac:(lia)).
      destruct (trackScan h controller_ lun_ path_ c (i + 1) freeIndex rest) as [a'| |fi'].
      * destruct IH as (k & Hk & Hkey' & Hbefore). exists (S k). split; [exact Hk|].
        split; [exact Hkey'|]. intros [|j] b Hj Hb; simpl in Hb.
        -- by inversion Hb; subst.
        -- apply (Hbefore j); [lia|exact Hb].
      * destruct IH as (k & a' & Hk & Hnk' & Hne & Hp & Hbefore). exists (S k), a'.
        repeat split; try done. intros [|j] b Hj Hb; simpl in Hb.
        -- by inversion Hb; subst.
        -- apply (Hbefore j); [lia|exact Hb].
      * destruct IH as [Hall Hfree]. split.
        -- intros [|k] b Hb; simpl in Hb; [by inversion Hb; subst|by apply (Hall k)].
        -- destruct (freeIndex =? -1); [|exact Hfree].
           destruct Hfree as [[-> Hnone]|(k & -> & Hk & Hbefore)].
           ++ left. split; [reflexivity|]. intros [|k] Hk; simpl in Hk; [done|by apply (Hnone k)].
           ++ right. exists (S k). split; [lia|]. split; [exact Hk|].
              intros [|j] Hj Hs; simpl in Hs; [done|]. apply (Hbefore j); [lia|exact Hs].
    + specialize (IH (i + 1) (if freeIndex =? -1 then i else freeIndex) ltac:(lia)).
      destruct (trackScan h controller_ lun_ path_ c (i + 1)
                  (if freeIndex =? -1 then i else freeIndex) rest) as [a'| |fi'].
      * destruct IH as (k & Hk & Hkey' & Hbefore). exists (S k). split; [exact Hk|].
        split; [exact Hkey'|]. intros [|j] b Hj Hb; simpl in Hb; [done|].
        apply (Hbefore j); [lia|exact Hb].
      * destruct IH as (k & a' & Hk & Hnk' & Hne & Hp & Hbefore). exists (S k), a'.
        repeat split; try done. intros [|j] b Hj Hb; simpl in Hb; [done|].
        apply (Hbefore j); [lia|exact Hb].
      * destruct IH as [Hall Hfree]. split.
        -- intros [|k] b Hb; simpl in Hb; [done|by apply (Hall k)].
        -- destruct (freeIndex =? -1) eqn:Hf.
           ++ right. exists 0%nat. destruct (i =? -1) eqn:Hi1; [apply Z.eqb_eq in Hi1; lia|].
              subst fi'. split; [lia|]. split; [reflexivity|]. intros j Hj. lia.
           ++ rewrite Hf in Hfree. exact Hfree.
Qed.

Lemma unmountScan_found (h : list mount) (path_ : string) (slots : list (option addr)) :
  forall (cur : option addr) (k : nat) (a : addr),
  slots !! k = Some (Some a) -> path (h !!! a) = path_ ->
  (forall j b, (j < k)%nat -> slots !! j = Some (Some b) -> path (h !!! b) <> path_) ->
  unmountScan h path_ cur slots = Some a.
Proof.
  induction slots as [|slot rest IH]; intros cur k a Hk Hp Hbefore.
  - by rewrite lookup_nil in Hk.
  - destruct k as [|k]; simpl in Hk.
    + inversion Hk; subst slot. simpl. apply String.eqb_eq in Hp. by rewrite Hp.
    + simpl. destruct slot as [b|].
      * assert (Hb : path (h !!! b) <> path_) by (apply (Hbefore 0%nat); [lia|done]).
        apply String.eqb_neq in Hb. rewrite Hb.
        apply (IH _ k); [done..|]. intros j b' Hj Hb'. apply (Hbefore (S j)); [lia|done].
      * apply (IH _ k); [done..|]. intros j b' Hj Hb'. apply (Hbefore (S j)); [lia|done].
Qed.

Lemma unmountScan_missing (h : list mount) (path_ : string) (slots : list (option addr)) :
  forall cur : option addr,
  (forall k b, slots !! k = Some (Some b) -> path (h !!! b) <> path_) ->
  unmountScan h path_ cur slots = default cur (last slots).
Proof.
  induction slots as [|slot rest IH]; intros cur Hall; [reflexivity|].
  assert (Hrest : unmountScan h path_ slot rest = default slot (last rest)).
  { apply IH. intros k b Hk. by apply (Hall (S k)). }
  rewrite last_cons. simpl. destruct slot as [b|].
  - assert (Hb : path (h !!! b) <> path_) by by apply (Hall 0%nat).
    apply String.eqb_neq in Hb. rewrite Hb, Hrest. by destruct (last rest).
  - rewrite Hrest. by destruct (last rest).
Qed.

Lemma owns_unmountScan (mm : mountManager) (i : nat) (a : addr) (path_ : string) :
  owns mm i a path_ -> unmountScan (heap mm) path_ None (mounts mm) = Some a.
Proof.
  intros (Hlive & Hp & Hbefore). by apply (unmountScan_found _ _ _ _ i).
Qed.

(** [unmount] once its loop has stopped at a well-formed entry. *)
Lemma unmount_at (mm : mountManager) (path_ : string) (res : option error) (i : nat)
    (a : addr) :
  wf mm -> live mm i a ->
  unmountScan (heap mm) path_ None (mounts mm) = Some a ->
  let m := set_refCount (deref mm a) (uint (refCount (deref mm a) - 1)) in
  let call := MounterCall (controller m) (lun m) (path m) (config m) in
  unmount mm path_ res =
    if 0 <? refCount m then Normal (store mm a m, None, [])
    else match res with
         | Some e =>
             Normal (store mm a m,
                     Some (ErrUnmountScsi (controller m) (lun m) (path m) e), [call])
         | None =>
             Normal (set_mounts (store mm a m) (<[i := None]> (mounts mm)), None, [call])
         end.
Proof.
  intros Hwf Hlive Hscan m call. unfold unmount. rewrite Hscan. fold m.
  destruct (0 <? refCount m); [reflexivity|].
  destruct res as [e|]; [reflexivity|].
  destruct (Hwf i a Hlive) as [Ha Hidx].
  unfold untrackMount. rewrite deref_store_eq by exact Ha.
  change (index m) with (index (deref mm a)). rewrite Hidx.
  assert (Hi : (i < length (mounts mm))%nat) by (eapply lookup_lt_Some; exact Hlive).
  replace ((0 <=? Z.of_nat i) && (Z.of_nat i <? Z.of_nat (length (mounts (store mm a m)))))
    with true.
  - by rewrite Nat2Z.id.
  - symmetry. apply andb_true_iff. split; [apply Z.leb_le; lia|].
    apply Z.ltb_lt. unfold store. simpl. lia.
Qed.

(** ** Effects of [trackMount] *)

Lemma trackMount_cases (mm : mountManager) controller_ lun_ path_ c :
  match trackScan (heap mm) controller_ lun_ path_ c 0 (-1) (mounts mm) with
  | Found a =>
      trackMount Sprintf mm controller_ lun_ path_ c
      = (store mm a (set_refCount (deref mm a) (uint (refCount (deref mm a) + 1))),
         (Some a, true, None))
  | Conflict =>
      trackMount Sprintf mm controller_ lun_ path_ c
      = (mm, (None, false, Some (ErrExistingMountpoint path_)))
  | Exhausted freeIndex =>
      exists (i : nat),
        ((freeIndex = -1 /\ i = length (mounts mm) /\
          forall j, mounts mm !! j <> Some None) \/
         (freeIndex = Z.of_nat i /\ mounts mm !! i = Some None /\
          forall j, (j < i)%nat -> mounts mm !! j <> Some None)) /\
        trackMount Sprintf mm controller_ lun_ path_ c
        = (MountManager
             (heap mm ++
                [Mount (if String.eqb path_ "" then Sprintf (mountFmt mm) (Z.of_nat i)
                        else path_)
                   (Z.of_nat i) controller_ lun_ c None ChanOpen 1])
             (if freeIndex =? -1 then mounts mm ++ [Some (length (heap mm))]
              else <[i := Some (length (heap mm))]> (mounts mm))
             (mountFmt mm),
           (Some (length (heap mm)), false, None))
  end.
Proof.
  unfold trackMount.
  pose proof (trackScan_spec (heap mm) controller_ lun_ path_ c (mounts mm) 0 (-1)
                ltac:(lia)) as Hspec.
  destruct (trackScan (heap mm) controller_ lun_ path_ c 0 (-1) (mounts mm))
    as [a| |freeIndex]; [reflexivity..|].
  destruct Hspec as [_ Hfree]. simpl in Hfree.
  destruct Hfree as [[-> Hnone]|(k & -> & Hk & Hbefore)].
  - exists (length (mounts mm)). split; [left; done|]. reflexivity.
  - exists k. split; [right; split; [lia|done]|].
    rewrite Z.add_0_l.
    destruct (Z.of_nat k =? -1) eqn:Hk1; [apply Z.eqb_eq in Hk1; lia|].
    by rewrite Nat2Z.id.
Qed.

(** The first decisive entry decides. *)
Lemma trackScan_first_key (h : list mount) controller_ lun_ path_ c
    (slots : list (option addr)) (k : nat) (a : addr) :
  slots !! k = Some (Some a) ->
  keyEqual (h !!! a) controller_ lun_ c ->
  (forall j b, (j < k)%nat -> slots !! j = Some (Some b) ->
     ~ decisive h controller_ lun_ path_ c b) ->
  trackScan h controller_ lun_ path_ c 0 (-1) slots = Found a.
Proof.
  intros Hk Hkey Hbefore.
  pose proof (trackScan_spec h controller_ lun_ path_ c slots 0 (-1) ltac:(lia)) as Hspec.
  assert (Hdec : decisive h controller_ lun_ path_ c a) by (left; exact Hkey).
  destruct (trackScan h controller_ lun_ path_ c 0 (-1) slots) as [a'| |fi].
  - destruct Hspec as (k' & Hk' & Hkey' & Hbefore').
    destruct (Nat.lt_trichotomy k' k) as [Hlt|[->|Hgt]].
    + exfalso. apply (Hbefore k' a' Hlt Hk'). by left.
    + congruence.
    + exfalso. by apply (Hbefore' k a Hgt Hk).
  - exfalso. destruct Hspec as (k' & a' & Hk' & Hnk & Hne & Hp & Hbefore').
    destruct (Nat.lt_trichotomy k' k) as [Hlt|[->|Hgt]].
    + apply (Hbefore k' a' Hlt Hk'). by right.
    + rewrite Hk in Hk'. inversion Hk'; subst a'. by apply Hnk.
    + by apply (Hbefore' k a Hgt Hk).
  - exfalso. destruct Hspec as [Hall _]. by apply (Hall k a Hk).
Qed.

Lemma trackScan_collision (h : list mount) controller_ lun_ path_ c
    (slots : list (option addr)) (k : nat) (b : addr) :
  slots !! k = Some (Some b) ->
  path_ <> "" -> path (h !!! b) = path_ ->
  ~ keyEqual (h !!! b) controller_ lun_ c ->
  (forall j b', (j < k)%nat -> slots !! j = Some (Some b') ->
     ~ keyEqual (h !!! b') controller_ lun_ c) ->
  trackScan h controller_ lun_ path_ c 0 (-1) slots = Conflict.
Proof.
  intros Hk Hne Hp Hnk Hbefore.
  pose proof (trackScan_spec h controller_ lun_ path_ c slots 0 (-1) ltac:(lia)) as Hspec.
  assert (Hdec : decisive h controller_ lun_ path_ c b) by (right; done).
  destruct (trackScan h controller_ lun_ path_ c 0 (-1) slots) as [a'| |fi].
  - exfalso. destruct Hspec as (k' & Hk' & Hkey' & Hbefore').
    destruct (Nat.lt_trichotomy k' k) as [Hlt|[->|Hgt]].
    + by apply (Hbefore k' a' Hlt Hk').
    + rewrite Hk in Hk'. inversion Hk'; subst a'. by apply Hnk.
    + by apply (Hbefore' k b Hgt Hk).
  - reflexivity.
  - exfalso. destruct Hspec as [Hall _]. by apply (Hall k b Hk).
Qed.

(** ** Slot and path assignment *)

(** C7: when [trackMount] creates an entry, its index [i] is the lowest
    nil slot of the table, which then holds the entry, and the table
    grows by one slot only when it has no nil slot; with an empty [path]
    argument the entry's path is [Sprintf mountFmt i], otherwise it is
    the argument. *)
Theorem trackMount_lowest_free_slot (mm mm' : mountManager) controller_ lun_ path_ c
    (a : addr) :
  trackMount Sprintf mm controller_ lun_ path_ c = (mm', (Some a, false, None)) ->
  exists i : nat,
    index (deref mm' a) = Z.of_nat i /\ live mm' i a /\
    ((mounts mm !! i = Some None /\
      (forall j, (j < i)%nat -> mounts mm !! j <> Some None) /\
      mounts mm' = <[i := Some a]> (mounts mm) /\
      length (mounts mm') = length (mounts mm)) \/
     ((forall j, mounts mm !! j <> Some None) /\
      i = length (mounts mm) /\
      mounts mm' = mounts mm ++ [Some a])) /\
    (path_ = "" -> path (deref mm' a) = Sprintf (mountFmt mm) (Z.of_nat i)) /\
    (path_ <> "" -> path (deref mm' a) = path_) /\
    a = length (heap mm) /\ refCount (deref mm' a) = 1 /\
    keyEqual (deref mm' a) controller_ lun_ c.
Proof.
  intros Htrack.
  pose proof (trackMount_cases mm controller_ lun_ path_ c) as Hcases.
  destruct (trackScan (heap mm) controller_ lun_ path_ c 0 (-1) (mounts mm))
    as [a'| |freeIndex].
  - rewrite Hcases in Htrack. inversion Htrack.
  - rewrite Hcases in Htrack. inversion Htrack.
  - destruct Hcases as (i & Hfree & Heq). rewrite Heq in Htrack.
    inversion Htrack; subst mm' a; clear Htrack Heq.
    exists i. unfold deref, live. simpl.
    rewrite list_lookup_total_middle by reflexivity. simpl.
    split; [reflexivity|]. split; [|split; [|split; [|split]]].
    + destruct Hfree as [(-> & -> & _)|(-> & Hi & _)].
      * simpl. by rewrite list_lookup_middle.
      * destruct (Z.of_nat i =? -1) eqn:Hi1; [apply Z.eqb_eq in Hi1; lia|].
        apply list_lookup_insert_eq. by eapply lookup_lt_Some.
    + destruct Hfree as [(-> & -> & Hnone)|(-> & Hi & Hbefore)].
      * right. simpl. done.
      * left. destruct (Z.of_nat i =? -1) eqn:Hi1; [apply Z.eqb_eq in Hi1; lia|].
        repeat split; try done. apply length_insert.
    + intros ->. reflexivity.
    + intros Hne. apply String.eqb_neq in Hne. by rewrite Hne.
    + repeat split.
Qed.

(** ** Path conflicts *)

(** C6, amended: a call to [mount] with a non-empty path that is the
    path of a live entry [b] with another key, such that no live entry
    before [b] in the table has the caller's key, returns the error
    "cannot mount over an existing mountpoint" and leaves the manager as
    it was: no entry added, no [refCount] changed. *)
Theorem mount_path_conflict (s : system) controller_ lun_ path_ c (j : nat) (b : addr) :
  path_ <> "" ->
  live (manager s) j b ->
  path (deref (manager s) b) = path_ ->
  ~ keyEqual (deref (manager s) b) controller_ lun_ (sortOptions c) ->
  (forall k b', (k < j)%nat -> live (manager s) k b' ->
     ~ keyEqual (deref (manager s) b') controller_ lun_ (sortOptions c)) ->
  trackMount Sprintf (manager s) controller_ lun_ path_ (sortOptions c)
  = (manager s, (None, false, Some (ErrExistingMountpoint path_))) /\
  step Sprintf s (CallMount controller_ lun_ path_ c)
  = Some (System (manager s)
            (goroutines s ++ [Returned ExitTrack "" (Some (ErrExistingMountpoint path_))]),
          []).
Proof.
  intros Hne Hlive Hp Hnk Hbefore.
  assert (Htrack : trackMount Sprintf (manager s) controller_ lun_ path_ (sortOptions c)
                   = (manager s, (None, false, Some (ErrExistingMountpoint path_)))).
  { pose proof (trackMount_cases (manager s) controller_ lun_ path_ (sortOptions c)) as Hc.
    rewrite (trackScan_collision _ _ _ _ _ _ j b) in Hc; done. }
  split; [exact Htrack|].
  unfold step, mount_track. by rewrite Htrack.
Qed.

(** ** Unmount *)

(** C4, amended: when the last reference to the entry that owns [path_]
    is dropped and [mounter.unmount] fails with [e], [unmount] returns
    [e] wrapped, after one invocation of the mounter, and the entry
    stays in the table, in its slot, with [refCount = 0]. *)
Theorem unmount_failure_keeps_entry (mm : mountManager) (path_ : string) (i : nat)
    (a : addr) (e : error) :
  wf mm -> owns mm i a path_ -> refCount (deref mm a) = 1 ->
  exists mm',
    unmount mm path_ (Some e)
    = Normal (mm',
              Some (ErrUnmountScsi (controller (deref mm a)) (lun (deref mm a)) path_ e),
              [MounterCall (controller (deref mm a)) (lun (deref mm a)) path_
                 (config (deref mm a))]) /\
    mounts mm' = mounts mm /\ live mm' i a /\ tracked mm' a /\
    refCount (deref mm' a) = 0.
Proof.
  intros Hwf Hown Hrc.
  pose proof (owns_unmountScan _ _ _ _ Hown) as Hscan.
  destruct Hown as (Hlive & Hp & _).
  rewrite (unmount_at mm path_ (Some e) i a Hwf Hlive Hscan).
  rewrite Hrc. simpl. rewrite Hp.
  eexists. split; [reflexivity|].
  destruct (Hwf i a Hlive) as [Ha _].
  split; [reflexivity|]. split; [exact Hlive|]. split; [by exists i|].
  by rewrite deref_store_eq.
Qed.

(** C10: [unmount] is safe only when a live entry owns the path.  With
    no such entry the loop variable ends as nil (empty table, or last
    slot nil) or as the last slot: [unmount] then panics on the nil
    dereference, or decrements the [refCount] of the last entry, whose
    path is another one.  When a live entry owns the path, the loop stops
    at it and the decrement is applied to it and to no other entry. *)
Theorem unmount_needs_owner (mm : mountManager) (path_ : string) (res : option error) :
  wf mm ->
  ((forall i b, live mm i b -> path (deref mm b) <> path_) ->
   unmountScan (heap mm) path_ None (mounts mm) = default None (last (mounts mm)) /\
   match last (mounts mm) with
   | None | Some None => unmount mm path_ res = Panic
   | Some (Some b) =>
       path (deref mm b) <> path_ /\
       exists mm' err calls,
         unmount mm path_ res = Normal (mm', err, calls) /\
         refCount (deref mm' b) = uint (refCount (deref mm b) - 1)
   end) /\
  (forall i a, owns mm i a path_ ->
   unmountScan (heap mm) path_ None (mounts mm) = Some a /\
   path (deref mm a) = path_ /\
   exists mm' err calls,
     unmount mm path_ res = Normal (mm', err, calls) /\
     refCount (deref mm' a) = uint (refCount (deref mm a) - 1) /\
     forall b, b <> a -> deref mm' b = deref mm b).
Proof.
  intros Hwf. split.
  - intros Hnone.
    assert (Hscan : unmountScan (heap mm) path_ None (mounts mm)
                    = default None (last (mounts mm))).
    { apply unmountScan_missing. intros k b Hk. by apply (Hnone k b). }
    split; [exact Hscan|].
    destruct (last (mounts mm)) as [[b|]|] eqn:Hlast; simpl in Hscan.
    + rewrite last_lookup in Hlast.
      assert (Hlive : live mm (pred (length (mounts mm))) b) by exact Hlast.
      split; [by apply (Hnone _ b Hlive)|].
      destruct (Hwf _ _ Hlive) as [Hb _].
      rewrite (unmount_at mm path_ res _ b Hwf Hlive Hscan).
      destruct (0 <? _); [|destruct res]; do 3 eexists; (split; [reflexivity|]);
        unfold deref, set_mounts, store; simpl;
        by rewrite list_lookup_total_insert_eq.
    + unfold unmount. by rewrite Hscan.
    + unfold unmount. by rewrite Hscan.
  - intros i a Hown.
    pose proof (owns_unmountScan _ _ _ _ Hown) as Hscan.
    destruct Hown as (Hlive & Hp & _).
    split; [exact Hscan|]. split; [exact Hp|].
    destruct (Hwf _ _ Hlive) as [Ha _].
    rewrite (unmount_at mm path_ res i a Hwf Hlive Hscan).
    destruct (0 <? _); [|destruct res]; do 3 eexists; (split; [reflexivity|]);
      unfold deref, set_mounts, store; simpl;
      (split; [by rewrite list_lookup_total_insert_eq|]);
      intros b Hb; by rewrite list_lookup_total_insert_ne.
Qed.

(** ** Changes that keep a system consistent *)

Lemma shrinks_refl (mm : mountManager) : shrinks mm mm.
Proof. by repeat split. Qed.

Lemma shrinks_trans (mm1 mm2 mm3 : mountManager) :
  shrinks mm1 mm2 -> shrinks mm2 mm3 -> shrinks mm1 mm3.
Proof.
  intros (Hh1 & Hm1 & Hd1 & Hl1) (Hh2 & Hm2 & Hd2 & Hl2). repeat split.
  - congruence.
  - congruence.
  - intros a. by rewrite Hd2.
  - intros i a H. by apply Hl1, Hl2.
Qed.

Lemma shrinks_fields (mm mm' : mountManager) (a : addr) :
  shrinks mm mm' ->
  path (deref mm' a) = path (deref mm a) /\
  index (deref mm' a) = index (deref mm a) /\
  controller (deref mm' a) = controller (deref mm a) /\
  lun (deref mm' a) = lun (deref mm a) /\
  config (deref mm' a) = config (deref mm a) /\
  waitErr (deref mm' a) = waitErr (deref mm a) /\
  waitCh (deref mm' a) = waitCh (deref mm a) /\
  result (deref mm' a) = result (deref mm a).
Proof.
  intros (_ & _ & Hd & _). specialize (Hd a).
  unfold set_refCount in Hd. inversion Hd as [[Hp Hi Hc Hl Hcf He Hw]].
  unfold result. rewrite Hp, He. done.
Qed.

Lemma shrinks_store_refCount (mm : mountManager) (a : addr) (n : Z) :
  shrinks mm (store mm a (set_refCount (deref mm a) n)).
Proof.
  repeat split.
  - apply length_heap_store.
  - intros b. destruct (decide (a = b)) as [<-|Hne].
    + destruct (decide (a < length (heap mm))%nat) as [Ha|Ha].
      * by rewrite deref_store_eq.
      * unfold deref, store. simpl. rewrite list_insert_ge by lia. done.
    + by rewrite deref_store_ne.
  - done.
Qed.

Lemma shrinks_set_none (mm : mountManager) (i : nat) :
  shrinks mm (set_mounts mm (<[i := None]> (mounts mm))).
Proof.
  repeat split.
  - unfold set_mounts. simpl. apply length_insert.
  - unfold live, set_mounts. simpl. intros j a Hj.
    destruct (decide (i = j)) as [<-|Hne].
    + destruct (decide (i < length (mounts mm))%nat) as [Hi|Hi].
      * by rewrite list_lookup_insert_eq in Hj.
      * by rewrite list_insert_ge in Hj by lia.
    + by rewrite list_lookup_insert_ne in Hj.
Qed.

Lemma consistent_shrinks (s : system) (mm' : mountManager) :
  consistent s -> shrinks (manager s) mm' ->
  consistent (System mm' (goroutines s)).
Proof.
  intros [] Hsh.
  pose proof (fun a => shrinks_fields _ _ a Hsh) as Hf.
  destruct Hsh as (Hlen & Hmlen & _ & Hlive).
  assert (Htr : forall a, tracked mm' a -> tracked (manager s) a).
  { intros a [i Hi]. exists i. by apply Hlive. }
  constructor; simpl.
  - intros i a Hi. destruct (Hf a) as (_ & -> & _). rewrite Hlen. by apply c_wf0, Hlive.
  - intros a Ha. destruct (Hf a) as (_ & -> & _). rewrite Hmlen. apply c_index0. lia.
  - intros i j a b Hi Hj Hk. apply (c_keys0 i j a b); [by apply Hlive..|].
    destruct (Hf a) as (_ & _ & Hc & Hl & Hcf & _).
    destruct (Hf b) as (_ & _ & Hc' & Hl' & Hcf' & _).
    unfold keyEqual in *. by rewrite <- Hc, <- Hl, <- Hcf, <- Hc', <- Hl', <- Hcf'.
  - intros g f a Hg Ha. rewrite Hlen. by eapply c_frames0.
  - intros g f a Hg Ha. destruct (Hf a) as (_ & _ & _ & _ & _ & _ & -> & _).
    by eapply c_open0.
  - exact c_unique0.
  - intros g a ret e Hg Ht. by eapply c_failed0, Htr.
  - intros a e Hc He Ht. destruct (Hf a) as (_ & _ & _ & _ & _ & He' & Hc' & _).
    rewrite Hc' in Hc. rewrite He' in He. by eapply c_error0, Htr.
  - intros a Hc. destruct (Hf a) as (_ & _ & _ & _ & _ & _ & Hc' & ->).
    rewrite Hc' in Hc. by apply c_closed0.
  - intros g a ret err Hg. destruct (Hf a) as (_ & _ & _ & _ & _ & _ & -> & ->).
    by eapply c_ready0.
  - intros g a ret err Hg. destruct (Hf a) as (_ & _ & _ & _ & _ & _ & -> & ->).
    by eapply c_pioneer0.
  - exact c_untrack0.
  - intros g a ret err Hg. destruct (Hf a) as (-> & _). by eapply c_publish0.
Qed.

(** A goroutine enters: it waits on a live entry, or it has returned the
    conflict error. *)
Lemma consistent_spawn (s : system) (f : frame) :
  consistent s ->
  match f with
  | InSelect a => (a < length (heap (manager s)))%nat
  | Returned ExitTrack _ _ => True
  | _ => False
  end ->
  consistent (System (manager s) (goroutines s ++ [f])).
Proof.
  intros [] Hf.
  assert (Hold : forall g f', (goroutines s ++ [f]) !! g = Some f' ->
            goroutines s !! g = Some f' \/ f' = f).
  { intros g f' Hg. apply lookup_snoc_Some in Hg.
    destruct Hg as [[_ Hg]|[_ Hg]]; auto. }
  constructor; simpl; try done.
  - intros g f' a Hg Ha. destruct (Hold _ _ Hg) as [Hg'| ->]; [by eapply c_frames0|].
    destruct f as [| | | |[]]; simpl in *; try done. by inversion Ha; subst.
  - intros g f' a Hg Ha. destruct (Hold _ _ Hg) as [Hg'| ->]; [by eapply c_open0|].
    by destruct f as [| | | |[]].
  - intros g g' f1 f2 a Hg Hg' Ha Ha'.
    destruct (Hold _ _ Hg) as [H1| ->]; [|by destruct f as [| | | |[]]].
    destruct (Hold _ _ Hg') as [H2| ->]; [|by destruct f as [| | | |[]]].
    by eapply c_unique0.
  - intros g a ret e Hg. destruct (Hold _ _ Hg) as [H1| <-]; [by eapply c_failed0|done].
  - intros a Hc. destruct (c_closed0 a Hc) as [g Hg]. exists g.
    by apply lookup_app_l_Some.
  - intros g a ret err Hg. destruct (Hold _ _ Hg) as [H1| <-]; [by eapply c_ready0|done].
  - intros g a ret err Hg. destruct (Hold _ _ Hg) as [H1| <-]; [by eapply c_pioneer0|done].
  - intros g a ret err Hg. destruct (Hold _ _ Hg) as [H1| <-]; [by eapply c_untrack0|done].
  - intros g a ret err Hg. destruct (Hold _ _ Hg) as [H1| <-]; [by eapply c_publish0|done].
Qed.

(** Goroutine [g] moves from frame [f] to [f'], the manager stays. *)
Lemma consistent_update (s : system) (g : nat) (f f' : frame) :
  consistent s ->
  goroutines s !! g = Some f ->
  (forall via ret err, f <> Returned via ret err) ->
  frame_addr f' = frame_addr f ->
  (forall a, pioneering f' = Some a -> pioneering f = Some a) ->
  (forall a ret e, f' = InDeferPublish a ret (Some e) -> ~ tracked (manager s) a) ->
  (forall a ret err, f' = Returned (ExitReady a) ret err ->
     waitCh (deref (manager s) a) = ChanClosed /\ result (deref (manager s) a) = (ret, err)) ->
  (forall a ret err, f' <> Returned (ExitPioneer a) ret err) ->
  (forall a ret err, f' = InDeferUntrack a ret err -> ret = "") ->
  (forall a ret err, f' = InDeferPublish a ret err ->
     ret = match err with Some _ => "" | None => path (deref (manager s) a) end) ->
  consistent (set_frame s g f').
Proof.
  intros [] Hg Hnot Haddr Hpio Hfail Hready Hnp Hunt Hpub.
  assert (Hold : forall g' x, <[g := f']> (goroutines s) !! g' = Some x ->
            (g' = g /\ x = f') \/ (g' <> g /\ goroutines s !! g' = Some x)).
  { intros g' x Hx. apply list_lookup_insert_Some in Hx.
    destruct Hx as [(-> & -> & _)|[Hne Hx]]; auto. }
  constructor; simpl; try done.
  - intros g' x a Hx Ha. destruct (Hold _ _ Hx) as [[-> ->]|[_ Hx']].
    + rewrite Haddr in Ha. by eapply c_frames0.
    + by eapply c_frames0.
  - intros g' x a Hx Ha. destruct (Hold _ _ Hx) as [[-> ->]|[_ Hx']].
    + eapply c_open0; [exact Hg|]. by apply Hpio.
    + by eapply c_open0.
  - intros g1 g2 f1 f2 a H1 H2 Ha1 Ha2.
    destruct (Hold _ _ H1) as [[-> ->]|[Hn1 H1']];
      destruct (Hold _ _ H2) as [[-> ->]|[Hn2 H2']]; try done.
    + eapply c_unique0; [exact Hg|exact H2'|by apply Hpio|done].
    + eapply c_unique0; [exact H1'|exact Hg|done|by apply Hpio].
    + by eapply c_unique0.
  - intros g' a ret e Hx. destruct (Hold _ _ Hx) as [[-> Heq]|[_ Hx']].
    + by eapply Hfail.
    + by eapply c_failed0.
  - intros a Hc. destruct (c_closed0 a Hc) as [g0 Hg0]. exists g0.
    rewrite list_lookup_insert_ne; [done|]. intros <-.
    rewrite Hg in Hg0. inversion Hg0. by eapply Hnot.
  - intros g' a ret err Hx. destruct (Hold _ _ Hx) as [[-> Heq]|[_ Hx']].
    + by apply Hready.
    + by eapply c_ready0.
  - intros g' a ret err Hx. destruct (Hold _ _ Hx) as [[-> Heq]|[_ Hx']].
    + exfalso. by eapply Hnp.
    + by eapply c_pioneer0.
  - intros g' a ret err Hx. destruct (Hold _ _ Hx) as [[-> Heq]|[_ Hx']].
    + by eapply Hunt.
    + by eapply c_untrack0.
  - intros g' a ret err Hx. destruct (Hold _ _ Hx) as [[-> Heq]|[_ Hx']].
    + by eapply Hpub.
    + by eapply c_publish0.
Qed.

(** The pioneer publishes: [waitErr] is set, [waitCh] closed, and the
    goroutine returns. *)
Lemma consistent_publish (s : system) (g : nat) (a : addr) (ret : string)
    (err : option error) :
  consistent s ->
  goroutines s !! g = Some (InDeferPublish a ret err) ->
  consistent (System (store (manager s) a (set_ready (deref (manager s) a) err))
                (<[g := Returned (ExitPioneer a) ret err]> (goroutines s))).
Proof.
  intros Hc Hg. pose proof Hc as [].
  set (mm := manager s) in *.
  set (mm' := store mm a (set_ready (deref mm a) err)).
  assert (Ha : (a < length (heap mm))%nat) by (by eapply c_frames0).
  assert (Hopen : waitCh (deref mm a) = ChanOpen) by (by eapply c_open0).
  assert (Hret : ret = match err with Some _ => "" | None => path (deref mm a) end)
    by (by eapply c_publish0).
  assert (Hnew : deref mm' a = set_ready (deref mm a) err) by (by apply deref_store_eq).
  assert (Hother : forall b, b <> a -> deref mm' b = deref mm b)
    by (intros b Hb; by apply deref_store_ne).
  assert (Hfields : forall b,
            path (deref mm' b) = path (deref mm b) /\
            index (deref mm' b) = index (deref mm b) /\
            controller (deref mm' b) = controller (deref mm b) /\
            lun (deref mm' b) = lun (deref mm b) /\
            config (deref mm' b) = config (deref mm b)).
  { intros b. destruct (decide (b = a)) as [->|Hb]; [by rewrite Hnew|by rewrite Hother]. }
  assert (Hres : result (deref mm' a) = (ret, err)).
  { rewrite Hnew, Hret. unfold result. simpl. by destruct err. }
  assert (Hold : forall g' x,
            <[g := Returned (ExitPioneer a) ret err]> (goroutines s) !! g' = Some x ->
            (g' = g /\ x = Returned (ExitPioneer a) ret err) \/
            (g' <> g /\ goroutines s !! g' = Some x)).
  { intros g' x Hx. apply list_lookup_insert_Some in Hx.
    destruct Hx as [(-> & -> & _)|[Hne Hx]]; auto. }
  assert (Hclosed : forall b, b <> a -> waitCh (deref mm' b) = waitCh (deref mm b) /\
                      waitErr (deref mm' b) = waitErr (deref mm b) /\
                      result (deref mm' b) = result (deref mm b)).
  { intros b Hb. by rewrite Hother. }
  constructor; cbn [manager goroutines]; fold mm'.
  - intros i b Hi. destruct (Hfields b) as (_ & -> & _).
    unfold mm'. rewrite length_heap_store. by apply c_wf0.
  - intros b Hb. destruct (Hfields b) as (_ & -> & _).
    unfold mm' in Hb. rewrite length_heap_store in Hb. by apply c_index0.
  - intros i j b b' Hi Hj Hk. apply (c_keys0 i j b b'); [done..|].
    destruct (Hfields b) as (_ & _ & Hc1 & Hl1 & Hcf1).
    destruct (Hfields b') as (_ & _ & Hc2 & Hl2 & Hcf2).
    unfold keyEqual in *. fold mm. by rewrite <- Hc1, <- Hl1, <- Hcf1, <- Hc2, <- Hl2, <- Hcf2.
  - intros g' x b Hx Hb. unfold mm'. rewrite length_heap_store.
    destruct (Hold _ _ Hx) as [[-> ->]|[_ Hx']].
    + simpl in Hb. by inversion Hb; subst.
    + by eapply c_frames0.
  - intros g' x b Hx Hb. destruct (Hold _ _ Hx) as [[-> ->]|[Hne Hx']]; [done|].
    assert (b <> a).
    { intros ->. apply Hne. by eapply (c_unique0 g' g). }
    rewrite Hother by done. by eapply c_open0.
  - intros g1 g2 f1 f2 b H1 H2 Hb1 Hb2.
    destruct (Hold _ _ H1) as [[-> ->]|[_ H1']]; [done|].
    destruct (Hold _ _ H2) as [[-> ->]|[_ H2']]; [done|].
    by eapply c_unique0.
  - intros g' b ret' e Hx. destruct (Hold _ _ Hx) as [[-> Heq]|[_ Hx']]; [done|].
    by eapply c_failed0.
  - intros b e Hcl He. destruct (decide (b = a)) as [->|Hb].
    + rewrite Hnew in He. simpl in He. subst err. by eapply c_failed0.
    + destruct (Hclosed b Hb) as (Hw & He' & _). rewrite Hw in Hcl. rewrite He' in He.
      by eapply c_error0.
  - intros b Hcl. destruct (decide (b = a)) as [->|Hb].
    + exists g. rewrite Hres. simpl. apply list_lookup_insert_eq. by eapply lookup_lt_Some.
    + destruct (Hclosed b Hb) as (Hw & _ & Hr). rewrite Hw in Hcl. rewrite Hr.
      destruct (c_closed0 b Hcl) as [g0 Hg0]. exists g0.
      rewrite list_lookup_insert_ne; [done|]. intros <-. by rewrite Hg in Hg0.
  - intros g' b ret' err' Hx. destruct (Hold _ _ Hx) as [[-> Heq]|[_ Hx']]; [done|].
    destruct (c_ready0 _ _ _ _ Hx') as [Hcl Hr].
    assert (b <> a) by (intros ->; fold mm in Hcl; congruence).
    by rewrite Hother.
  - intros g' b ret' err' Hx. destruct (Hold _ _ Hx) as [[-> Heq]|[_ Hx']].
    + inversion Heq; subst. split; [by rewrite Hnew|exact Hres].
    + destruct (c_pioneer0 _ _ _ _ Hx') as [Hcl Hr].
      assert (b <> a) by (intros ->; fold mm in Hcl; congruence).
      by rewrite Hother.
  - intros g' b ret' err' Hx. destruct (Hold _ _ Hx) as [[-> Heq]|[_ Hx']]; [done|].
    by eapply c_untrack0.
  - intros g' b ret' err' Hx. destruct (Hold _ _ Hx) as [[-> Heq]|[_ Hx']]; [done|].
    destruct (Hfields b) as (-> & _). by eapply c_publish0.
Qed.

Lemma pioneering_frame_addr (f : frame) (a : addr) :
  pioneering f = Some a -> frame_addr f = Some a.
Proof. by destruct f as [| | | |[]]. Qed.

(** A new entry is allocated for a key no live entry has, stored in a
    nil slot or in a new last slot, and its pioneer enters the mounter. *)
Lemma consistent_alloc (s : system) controller_ lun_ c (i : nat) (p : string)
    (mounts' : list (option addr)) :
  consistent s ->
  (forall k b, live (manager s) k b ->
     ~ keyEqual (deref (manager s) b) controller_ lun_ c) ->
  ((i = length (mounts (manager s)) /\
    mounts' = mounts (manager s) ++ [Some (length (heap (manager s)))]) \/
   (mounts (manager s) !! i = Some None /\
    mounts' = <[i := Some (length (heap (manager s)))]> (mounts (manager s)))) ->
  consistent
    (System
       (MountManager
          (heap (manager s) ++ [Mount p (Z.of_nat i) controller_ lun_ c None ChanOpen 1])
          mounts' (mountFmt (manager s)))
       (goroutines s ++ [InMounter (length (heap (manager s))) controller_ lun_ c])).
Proof.
  intros Hc Hnk Hslot. pose proof Hc as [].
  set (mm := manager s) in *. set (a := length (heap mm)) in *.
  set (m := Mount p (Z.of_nat i) controller_ lun_ c None ChanOpen 1).
  set (mm' := MountManager (heap mm ++ [m]) mounts' (mountFmt mm)).
  assert (Hd_old : forall b, (b < a)%nat -> deref mm' b = deref mm b).
  { intros b Hb. unfold deref, mm'. simpl. by apply lookup_total_app_l. }
  assert (Hd_new : deref mm' a = m).
  { unfold deref, mm'. simpl. by apply list_lookup_total_middle. }
  assert (Hd_closed : forall b, waitCh (deref mm' b) = ChanClosed -> (b < a)%nat).
  { intros b Hb. destruct (Nat.lt_trichotomy b a) as [Hlt|[->|Hgt]]; [done|..].
    - by rewrite Hd_new in Hb.
    - unfold deref, mm' in Hb. simpl in Hb. rewrite list_lookup_total_alt in Hb.
      rewrite lookup_ge_None_2 in Hb; [done|]. rewrite length_app. simpl. fold a. lia. }
  assert (Hlive : forall j b, live mm' j b -> (j = i /\ b = a) \/ live mm j b).
  { unfold live, mm'. simpl. intros j b Hj.
    destruct Hslot as [[-> ->]|[Hi ->]].
    - apply lookup_snoc_Some in Hj. destruct Hj as [[_ Hj]|[-> Hj]]; [by right|].
      left. by inversion Hj.
    - apply list_lookup_insert_Some in Hj. destruct Hj as [(-> & Hj & _)|[_ Hj]]; [|by right].
      left. by inversion Hj. }
  assert (Hmlen : (length (mounts mm) <= length mounts')%nat /\ (i < length mounts')%nat).
  { destruct Hslot as [[-> ->]|[Hi ->]].
    - rewrite length_app. simpl. lia.
    - rewrite length_insert. split; [lia|]. by eapply lookup_lt_Some. }
  assert (Htr : forall b, (b < a)%nat -> tracked mm' b -> tracked mm b).
  { intros b Hb [j Hj]. destruct (Hlive _ _ Hj) as [[_ ->]|Hj']; [lia|by exists j]. }
  assert (Hold : forall g f,
            (goroutines s ++ [InMounter a controller_ lun_ c]) !! g = Some f ->
            goroutines s !! g = Some f \/
            (g = length (goroutines s) /\ f = InMounter a controller_ lun_ c)).
  { intros g f Hg. apply lookup_snoc_Some in Hg. destruct Hg as [[_ Hg]|[-> Hg]]; auto. }
  assert (Hbound : forall g f b, goroutines s !! g = Some f -> frame_addr f = Some b ->
            (b < a)%nat) by exact c_frames0.
  assert (Hhl : length (heap mm') = S a).
  { unfold mm'. simpl. rewrite length_app. simpl. fold a. lia. }
  constructor; cbn [manager goroutines]; fold mm'.
  - intros j b Hj. rewrite Hhl.
    destruct (Hlive _ _ Hj) as [[-> ->]|Hj'].
    + split; [lia|]. by rewrite Hd_new.
    + destruct (c_wf0 _ _ Hj') as [Hb Hidx]. fold a in Hb. rewrite Hd_old by done.
      split; [lia|done].
  - intros b Hb. rewrite Hhl in Hb. change (mounts mm') with mounts'.
    destruct (decide (b = a)) as [->|Hne].
    + rewrite Hd_new. unfold m. simpl. lia.
    + rewrite Hd_old by lia. specialize (c_index0 b ltac:(fold a; lia)). lia.
  - intros j j' b b' Hj Hj' Hk.
    destruct (Hlive _ _ Hj) as [[-> ->]|Hl]; destruct (Hlive _ _ Hj') as [[-> ->]|Hl'].
    + done.
    + exfalso. destruct (c_wf0 _ _ Hl') as [Hb' _]. fold a in Hb'.
      rewrite Hd_new, Hd_old in Hk by done. apply (Hnk _ _ Hl').
      destruct Hk as (Hk1 & Hk2 & Hk3). simpl in *. by repeat split.
    + exfalso. destruct (c_wf0 _ _ Hl) as [Hb _]. fold a in Hb.
      rewrite Hd_new, Hd_old in Hk by done. by apply (Hnk _ _ Hl).
    + destruct (c_wf0 _ _ Hl) as [Hb _]. destruct (c_wf0 _ _ Hl') as [Hb' _].
      fold a in Hb, Hb'. rewrite !Hd_old in Hk by done. by apply (c_keys0 j j' b b').
  - intros g f b Hg Hb. rewrite Hhl.
    destruct (Hold _ _ Hg) as [Hg'|[-> ->]].
    + specialize (Hbound _ _ _ Hg' Hb). lia.
    + simpl in Hb. inversion Hb. lia.
  - intros g f b Hg Hb. destruct (Hold _ _ Hg) as [Hg'|[-> ->]].
    + rewrite Hd_old; [by eapply c_open0|].
      eapply Hbound; [exact Hg'|]. by apply pioneering_frame_addr.
    + simpl in Hb. inversion Hb; subst b. by rewrite Hd_new.
  - intros g g' f f' b Hg Hg' Hb Hb'.
    destruct (Hold _ _ Hg) as [H1|[-> ->]]; destruct (Hold _ _ Hg') as [H2|[-> ->]].
    + by eapply c_unique0.
    + simpl in Hb'. inversion Hb'; subst b.
      pose proof (Hbound _ _ _ H1 (pioneering_frame_addr _ _ Hb)). lia.
    + simpl in Hb. inversion Hb; subst b.
      pose proof (Hbound _ _ _ H2 (pioneering_frame_addr _ _ Hb')). lia.
    + done.
  - intros g b ret e Hg Ht. destruct (Hold _ _ Hg) as [Hg'|[_ Heq]]; [|done].
    apply (c_failed0 _ _ _ _ Hg'). apply Htr; [|done]. by eapply Hbound.
  - intros b e Hcl He Ht. pose proof (Hd_closed _ Hcl) as Hb.
    rewrite Hd_old in Hcl, He by done. apply (c_error0 b e Hcl He). by apply Htr.
  - intros b Hcl. pose proof (Hd_closed _ Hcl) as Hb. rewrite Hd_old in Hcl |- * by done.
    destruct (c_closed0 b Hcl) as [g Hg]. exists g. by apply lookup_app_l_Some.
  - intros g b ret err Hg. destruct (Hold _ _ Hg) as [Hg'|[_ Heq]]; [|done].
    rewrite Hd_old; [by eapply c_ready0|]. by eapply Hbound.
  - intros g b ret err Hg. destruct (Hold _ _ Hg) as [Hg'|[_ Heq]]; [|done].
    rewrite Hd_old; [by eapply c_pioneer0|]. by eapply Hbound.
  - intros g b ret err Hg. destruct (Hold _ _ Hg) as [Hg'|[_ Heq]]; [|done].
    by eapply c_untrack0.
  - intros g b ret err Hg. destruct (Hold _ _ Hg) as [Hg'|[_ Heq]]; [|done].
    rewrite Hd_old; [by eapply c_publish0|]. by eapply Hbound.
Qed.

(** ** Every action keeps the system consistent *)

Lemma consistent_init (mountFmt_ : string) : consistent (init mountFmt_).
Proof.
  constructor; unfold init, newMountManager, wf, keys_unique, tracked, live, deref;
    simpl; try (intros; by rewrite ?lookup_nil in * ).
  all: intros; simpl in *; try lia; by rewrite ?lookup_nil in *.
Qed.

Lemma mount_track_cases (mm : mountManager) controller_ lun_ path_ c :
  match trackScan (heap mm) controller_ lun_ path_ (sortOptions c) 0 (-1) (mounts mm) with
  | Found a =>
      (exists k, live mm k a /\ keyEqual (deref mm a) controller_ lun_ (sortOptions c)) /\
      mount_track Sprintf mm controller_ lun_ path_ c
      = Normal (store mm a (set_refCount (deref mm a) (uint (refCount (deref mm a) + 1))),
                InSelect a, Some a)
  | Conflict =>
      mount_track Sprintf mm controller_ lun_ path_ c
      = Normal (mm, Returned ExitTrack "" (Some (ErrExistingMountpoint path_)), None)
  | Exhausted freeIndex =>
      (forall k b, live mm k b ->
         ~ decisive (heap mm) controller_ lun_ path_ (sortOptions c) b) /\
      exists (i : nat) (p : string) (mounts' : list (option addr)),
        ((i = length (mounts mm) /\ mounts' = mounts mm ++ [Some (length (heap mm))]) \/
         (mounts mm !! i = Some None /\
          mounts' = <[i := Some (length (heap mm))]> (mounts mm))) /\
        mount_track Sprintf mm controller_ lun_ path_ c
        = Normal (MountManager
                    (heap mm ++ [Mount p (Z.of_nat i) controller_ lun_ (sortOptions c)
                                   None ChanOpen 1])
                    mounts' (mountFmt mm),
                  InMounter (length (heap mm)) controller_ lun_ (sortOptions c),
                  Some (length (heap mm)))
  end.
Proof.
  pose proof (trackMount_cases mm controller_ lun_ path_ (sortOptions c)) as Hcases.
  pose proof (trackScan_spec (heap mm) controller_ lun_ path_ (sortOptions c) (mounts mm)
                0 (-1) ltac:(lia)) as Hspec.
  unfold mount_track.
  destruct (trackScan (heap mm) controller_ lun_ path_ (sortOptions c) 0 (-1) (mounts mm))
    as [a| |freeIndex].
  - rewrite Hcases. split; [|reflexivity].
    destruct Hspec as (k & Hk & Hkey & _). by exists k.
  - by rewrite Hcases.
  - destruct Hspec as [Hall _]. split; [exact Hall|].
    destruct Hcases as (i & Hfree & ->).
    do 3 eexists. split; [|reflexivity].
    destruct Hfree as [(-> & -> & _)|(-> & Hi & _)].
    + left. by simpl.
    + right. destruct (Z.of_nat i =? -1) eqn:Hi1; [apply Z.eqb_eq in Hi1; lia|]. done.
Qed.

Lemma unmountScan_live (h : list mount) (path_ : string) (slots : list (option addr)) :
  forall (cur : option addr) (a : addr),
  unmountScan h path_ cur slots = Some a ->
  cur = Some a \/ exists k, slots !! k = Some (Some a).
Proof.
  induction slots as [|slot rest IH]; intros cur a Hscan; simpl in Hscan; [by left|].
  right. destruct slot as [b|].
  - destruct (String.eqb (path (h !!! b)) path_).
    + inversion Hscan; subst. by exists 0%nat.
    + destruct (IH _ _ Hscan) as [Hc|[k Hk]].
      * inversion Hc; subst. by exists 0%nat.
      * by exists (S k).
  - destruct (IH _ _ Hscan) as [Hc|[k Hk]]; [done|by exists (S k)].
Qed.

Lemma untrackMount_shrinks (mm mm' : mountManager) (a : addr) :
  untrackMount mm a = Normal mm' ->
  shrinks mm mm' /\ mm' = set_mounts mm (<[Z.to_nat (index (deref mm a)) := None]> (mounts mm)) /\
  0 <= index (deref mm a) < Z.of_nat (length (mounts mm)).
Proof.
  unfold untrackMount. intros H.
  destruct ((0 <=? index (deref mm a)) && (index (deref mm a) <? Z.of_nat (length (mounts mm))))
    eqn:Hrange; [|done].
  inversion H; subst mm'. split; [apply shrinks_set_none|]. split; [done|].
  apply andb_true_iff in Hrange. destruct Hrange as [H1 H2].
  apply Z.leb_le in H1. apply Z.ltb_lt in H2. lia.
Qed.

Lemma unmount_shrinks (mm mm' : mountManager) (path_ : string) (res err : option error)
    (calls : list mounterCall) :
  unmount mm path_ res = Normal (mm', err, calls) -> shrinks mm mm'.
Proof.
  unfold unmount. intros H.
  destruct (unmountScan (heap mm) path_ None (mounts mm)) as [a|]; [|done].
  set (m := set_refCount (deref mm a) (uint (refCount (deref mm a) - 1))) in *.
  pose proof (shrinks_store_refCount mm a (uint (refCount (deref mm a) - 1))) as Hs.
  fold m in Hs.
  destruct (0 <? refCount m).
  - by inversion H; subst.
  - destruct res as [e|]; [by inversion H; subst|].
    destruct (untrackMount (store mm a m) a) as [mm2|] eqn:Hu; [|done].
    inversion H; subst. apply untrackMount_shrinks in Hu. destruct Hu as [Hu _].
    by eapply shrinks_trans.
Qed.

(** After [untrackMount], the entry is in no slot. *)
Lemma untrackMount_untracked (mm mm' : mountManager) (a : addr) :
  wf mm -> untrackMount mm a = Normal mm' -> ~ tracked mm' a.
Proof.
  intros Hwf Hu. apply untrackMount_shrinks in Hu. destruct Hu as (Hs & -> & Hrange).
  intros [j Hj]. destruct Hs as (_ & _ & _ & Hl). pose proof (Hl _ _ Hj) as Hj'.
  destruct (Hwf _ _ Hj') as [_ Hidx].
  unfold live, set_mounts in Hj. simpl in Hj. rewrite Hidx, Nat2Z.id in Hj.
  rewrite list_lookup_insert_eq in Hj; [done|]. by eapply lookup_lt_Some.
Qed.

Lemma step_consistent (s s' : system) (act : action) (ls : list label) :
  consistent s -> step Sprintf s act = Some (s', ls) -> consistent s'.
Proof.
  intros Hc Hstep. destruct act as [controller_ lun_ path_ c|path_ res|g res|g|g|g cancelled];
    simpl in Hstep.
  - pose proof (mount_track_cases (manager s) controller_ lun_ path_ c) as Hcases.
    destruct (trackScan (heap (manager s)) controller_ lun_ path_ (sortOptions c) 0 (-1)
                (mounts (manager s))) as [a| |freeIndex].
    + destruct Hcases as [(k & Hk & _) Heq]. rewrite Heq in Hstep.
      inversion Hstep; subst s' ls; clear Hstep.
      apply (consistent_spawn (System _ (goroutines s)) (InSelect a)).
      * apply consistent_shrinks; [done|apply shrinks_store_refCount].
      * simpl. rewrite length_insert. by apply (c_wf _ Hc k a).
    + rewrite Hcases in Hstep. inversion Hstep; subst s' ls; clear Hstep.
      by apply (consistent_spawn s (Returned ExitTrack _ _)).
    + destruct Hcases as (Hall & i & p & mounts' & Hslot & Heq). rewrite Heq in Hstep.
      inversion Hstep; subst s' ls; clear Hstep.
      apply consistent_alloc; [done| |done].
      intros k b Hk Hkey. apply (Hall k b Hk). by left.
  - destruct (unmountScan (heap (manager s)) path_ None (mounts (manager s))) as [a|];
      [|done].
    destruct (unmount (manager s) path_ res) as [[[mm' err] calls]|] eqn:Hu; [|done].
    inversion Hstep; subst s' ls; clear Hstep.
    apply consistent_shrinks; [done|]. by eapply unmount_shrinks.
  - destruct (goroutines s !! g) as [[| a controller_ lun_ c | | |]|] eqn:Hg; try done.
    inversion Hstep; subst s' ls; clear Hstep.
    eapply consistent_update; [done|exact Hg|done|..]; destruct res as [e|]; simpl; try done.
    + intros a' ret err Heq. by inversion Heq.
    + intros a' ret err Heq. by inversion Heq.
  - destruct (goroutines s !! g) as [[| | a ret err | |]|] eqn:Hg; try done.
    unfold mount_defer_untrack in Hstep.
    destruct (untrackMount (manager s) a) as [mm'|] eqn:Hu; [|done].
    inversion Hstep; subst s' ls; clear Hstep.
    pose proof (untrackMount_untracked _ _ _ (c_wf _ Hc) Hu) as Hun.
    apply untrackMount_shrinks in Hu. destruct Hu as (Hs & _ & _).
    apply (consistent_update (System mm' (goroutines s)) g (InDeferUntrack a ret err));
      try done.
    + by apply consistent_shrinks.
    + simpl. intros a' ret' e Heq. by inversion Heq; subst.
    + simpl. intros a' ret' err' Heq. inversion Heq; subst. by eapply (c_untrack _ Hc).
  - destruct (goroutines s !! g) as [[| | | a ret err |]|] eqn:Hg; try done.
    unfold mount_defer_publish in Hstep.
    destruct (waitCh (deref (manager s) a)); [|done].
    inversion Hstep; subst s' ls; clear Hstep.
    by apply consistent_publish.
  - destruct (goroutines s !! g) as [[a | | | |]|] eqn:Hg; try done.
    destruct (mount_select (manager s) a cancelled) as [f|] eqn:Hsel; [|done].
    inversion Hstep; subst s' ls; clear Hstep.
    unfold mount_select in Hsel.
    eapply consistent_update; [done|exact Hg|done|..].
    + destruct cancelled; [by inversion Hsel|].
      destruct (waitCh (deref (manager s) a)); [done|].
      by destruct (waitErr (deref (manager s) a)); inversion Hsel.
    + destruct cancelled; [by inversion Hsel|].
      destruct (waitCh (deref (manager s) a)); [done|].
      by destruct (waitErr (deref (manager s) a)); inversion Hsel.
    + destruct cancelled; [by inversion Hsel|].
      destruct (waitCh (deref (manager s) a)); [done|].
      by destruct (waitErr (deref (manager s) a)); inversion Hsel.
    + intros a' ret err ->. destruct cancelled; [done|].
      destruct (waitCh (deref (manager s) a)) eqn:Hw; [done|].
      unfold result.
      destruct (waitErr (deref (manager s) a)) eqn:He; inversion Hsel; subst;
        by rewrite Hw, He.
    + destruct cancelled; [by inversion Hsel|].
      destruct (waitCh (deref (manager s) a)); [done|].
      by destruct (waitErr (deref (manager s) a)); inversion Hsel.
    + destruct cancelled; [by inversion Hsel|].
      destruct (waitCh (deref (manager s) a)); [done|].
      by destruct (waitErr (deref (manager s) a)); inversion Hsel.
    + destruct cancelled; [by inversion Hsel|].
      destruct (waitCh (deref (manager s) a)); [done|].
      by destruct (waitErr (deref (manager s) a)); inversion Hsel.
Qed.

(** ** Schedules *)

Lemma run_app (s : system) (acts1 acts2 : list action) :
  run Sprintf s (acts1 ++ acts2)
  = match run Sprintf s acts1 with
    | Some (s1, tr1) =>
        match run Sprintf s1 acts2 with
        | Some (s2, tr2) => Some (s2, tr1 ++ tr2)
        | None => None
        end
    | None => None
    end.
Proof.
  revert s. induction acts1 as [|act acts1 IH]; intros s; simpl.
  - by destruct (run Sprintf s acts2) as [[s2 tr2]|].
  - destruct (step Sprintf s act) as [[s' ls]|]; [|done].
    rewrite IH. destruct (run Sprintf s' acts1) as [[s1 tr1]|]; [|done].
    destruct (run Sprintf s1 acts2) as [[s2 tr2]|]; [|done].
    by rewrite app_assoc.
Qed.

Lemma run_consistent (s s' : system) (acts : list action) (tr : list label) :
  consistent s -> run Sprintf s acts = Some (s', tr) -> consistent s'.
Proof.
  revert s tr. induction acts as [|act acts IH]; intros s tr Hc Hrun; simpl in Hrun.
  - by inversion Hrun; subst.
  - destruct (step Sprintf s act) as [[s1 ls]|] eqn:Hstep; [|done].
    destruct (run Sprintf s1 acts) as [[s2 tr2]|] eqn:Hrest; [|done].
    inversion Hrun; subst. eapply IH; [|exact Hrest]. by eapply step_consistent.
Qed.

Lemma reachable_consistent (mountFmt_ : string) (s : system) (tr : list label) :
  reachable Sprintf mountFmt_ s tr -> consistent s.
Proof. intros [acts Hrun]. eapply run_consistent; [apply consistent_init|exact Hrun]. Qed.

Lemma reachable_run (mountFmt_ : string) (s s' : system) (tr tr' : list label)
    (acts : list action) :
  reachable Sprintf mountFmt_ s tr -> run Sprintf s acts = Some (s', tr') ->
  reachable Sprintf mountFmt_ s' (tr ++ tr').
Proof.
  intros [acts0 Hrun0] Hrun. exists (acts0 ++ acts). by rewrite run_app, Hrun0, Hrun.
Qed.

Lemma reachable_step (mountFmt_ : string) (s s' : system) (tr ls : list label)
    (act : action) :
  reachable Sprintf mountFmt_ s tr -> step Sprintf s act = Some (s', ls) ->
  reachable Sprintf mountFmt_ s' (tr ++ ls).
Proof.
  intros Hr Hstep. apply (reachable_run _ s s' tr ls [act] Hr).
  simpl. rewrite Hstep. by rewrite app_nil_r.
Qed.

(** Induction along a schedule, one more action at the end. *)
Lemma reachable_ind (mountFmt_ : string) (P : system -> list label -> Prop) :
  P (init mountFmt_) [] ->
  (forall s tr act s' ls,
     reachable Sprintf mountFmt_ s tr -> P s tr ->
     step Sprintf s act = Some (s', ls) -> P s' (tr ++ ls)) ->
  forall s tr, reachable Sprintf mountFmt_ s tr -> P s tr.
Proof.
  intros Hinit Hstep s tr [acts Hrun]. revert s tr Hrun.
  induction acts as [|act acts IH] using rev_ind; intros s tr Hrun.
  - simpl in Hrun. by inversion Hrun; subst.
  - rewrite run_app in Hrun.
    destruct (run Sprintf (init mountFmt_) acts) as [[s1 tr1]|] eqn:Hrun1; [|done].
    simpl in Hrun. destruct (step Sprintf s1 act) as [[s2 ls]|] eqn:Hs; [|done].
    inversion Hrun; subst. rewrite app_nil_r.
    eapply Hstep; [by exists acts|by apply IH|exact Hs].
Qed.

Lemma tally_app (f : label -> bool) (tr1 tr2 : list label) :
  tally f (tr1 ++ tr2) = tally f tr1 + tally f tr2.
Proof. induction tr1 as [|l tr1 IH]; simpl; [done|]. rewrite IH. lia. Qed.

Lemma tally_nonneg (f : label -> bool) (tr : list label) : 0 <= tally f tr.
Proof. induction tr as [|l tr IH]; simpl; [done|]. destruct (f l); lia. Qed.

(** ** What one action does to counts and labels *)

Lemma tally_unmount_calls (f : label -> bool) (a : addr) (res : option error)
    (calls : list mounterCall) :
  (forall call, f (UnmountCall a call res) = false) ->
  tally f (map (fun call => UnmountCall a call res) calls) = 0.
Proof.
  intros Hf. induction calls as [|call calls IH]; simpl; [done|]. by rewrite Hf, IH.
Qed.

Lemma unmount_refCount (mm mm' : mountManager) (path_ : string) (res err : option error)
    (calls : list mounterCall) (a : addr) :
  unmount mm path_ res = Normal (mm', err, calls) ->
  unmountScan (heap mm) path_ None (mounts mm) = Some a ->
  (a < length (heap mm))%nat ->
  refCount (deref mm' a) = uint (refCount (deref mm a) - 1) /\
  forall b, b <> a -> deref mm' b = deref mm b.
Proof.
  unfold unmount. intros H Hscan Ha. rewrite Hscan in H.
  set (m := set_refCount (deref mm a) (uint (refCount (deref mm a) - 1))) in *.
  assert (Hgoal : refCount (deref (store mm a m) a) = uint (refCount (deref mm a) - 1) /\
                  forall b, b <> a -> deref (store mm a m) b = deref mm b).
  { split; [by rewrite deref_store_eq|]. intros b Hb. by apply deref_store_ne. }
  destruct (0 <? refCount m); [by inversion H; subst|].
  destruct res as [e|]; [by inversion H; subst|].
  destruct (untrackMount (store mm a m) a) as [mm2|] eqn:Hu; [|done].
  inversion H; subst. apply untrackMount_shrinks in Hu. destruct Hu as (_ & -> & _).
  exact Hgoal.
Qed.

Lemma step_effect (s s' : system) (act : action) (ls : list label) :
  consistent s -> step Sprintf s act = Some (s', ls) ->
  (length (heap (manager s)) <= length (heap (manager s')))%nat /\
  (forall b x, (b < length (heap (manager s)))%nat ->
     refCount (deref (manager s) b) = uint x ->
     refCount (deref (manager s') b) = uint (x + refs b ls - unrefs b ls)) /\
  (forall b, (length (heap (manager s)) <= b < length (heap (manager s')))%nat ->
     refCount (deref (manager s') b) = uint (refs b ls - unrefs b ls)) /\
  (forall b, (length (heap (manager s')) <= b)%nat ->
     refs b ls = 0 /\ unrefs b ls = 0 /\ mountCalls b ls = 0) /\
  (forall b, mountCalls b ls = 0 \/
     (mountCalls b ls = 1 /\
      (exists g controller_ lun_ c,
         goroutines s !! g = Some (InMounter b controller_ lun_ c)) /\
      forall g controller_ lun_ c,
        goroutines s' !! g <> Some (InMounter b controller_ lun_ c))) /\
  (forall g b controller_ lun_ c,
     goroutines s' !! g = Some (InMounter b controller_ lun_ c) ->
     goroutines s !! g = Some (InMounter b controller_ lun_ c) \/
     (length (heap (manager s)) <= b)%nat).
Proof.
  intros Hc Hstep.
  destruct act as [controller_ lun_ path_ c|path_ res|g res|g|g|g cancelled];
    simpl in Hstep.
  - pose proof (mount_track_cases (manager s) controller_ lun_ path_ c) as Hcases.
    destruct (trackScan (heap (manager s)) controller_ lun_ path_ (sortOptions c) 0 (-1)
                (mounts (manager s))) as [a| |freeIndex].
    + destruct Hcases as [(k & Hk & _) Heq]. rewrite Heq in Hstep.
      inversion Hstep; subst s' ls; clear Hstep Heq.
      destruct (c_wf _ Hc _ _ Hk) as [Ha _].
      cbn [manager goroutines]. rewrite length_heap_store.
      unfold refs, unrefs, mountCalls. cbn [tally].
      split; [lia|]. split; [|split; [|split; [|split]]].
      * intros b x Hb Hx. case_bool_decide as Hba.
        -- subst b. rewrite deref_store_eq by done. simpl. rewrite Hx, uint_idemp_add.
           f_equal. lia.
        -- rewrite deref_store_ne by done. rewrite Hx. f_equal. lia.
      * intros b Hb. lia.
      * intros b Hb. case_bool_decide; [subst; lia|done].
      * intros b. by left.
      * intros g b controller' lun' c' Hg. left.
        apply lookup_snoc_Some in Hg. by destruct Hg as [[_ Hg]|[_ Hg]].
    + rewrite Hcases in Hstep. inversion Hstep; subst s' ls; clear Hstep Hcases.
      cbn [manager goroutines]. unfold refs, unrefs, mountCalls. cbn [tally].
      split; [lia|]. split; [|split; [|split; [|split]]].
      * intros b x Hb Hx. rewrite Hx. f_equal. lia.
      * intros b Hb. lia.
      * done.
      * intros b. by left.
      * intros g b controller' lun' c' Hg. left.
        apply lookup_snoc_Some in Hg. by destruct Hg as [[_ Hg]|[_ Hg]].
    + destruct Hcases as (_ & i & p & mounts' & _ & Heq). rewrite Heq in Hstep.
      inversion Hstep; subst s' ls; clear Hstep Heq.
      cbn [manager goroutines heap]. rewrite length_app. cbn [length].
      unfold refs, unrefs, mountCalls, deref. cbn [tally heap].
      split; [lia|]. split; [|split; [|split; [|split]]].
      * intros b x Hb Hx. rewrite lookup_total_app_l by done.
        case_bool_decide; [lia|]. rewrite Hx. f_equal. lia.
      * intros b Hb. assert (b = length (heap (manager s))) as -> by lia.
        rewrite list_lookup_total_middle by done. cbn [refCount].
        rewrite bool_decide_eq_true_2 by done. done.
      * intros b Hb. case_bool_decide; [lia|done].
      * intros b. by left.
      * intros g b controller' lun' c' Hg.
        apply lookup_snoc_Some in Hg. destruct Hg as [[_ Hg]|[_ Hg]]; [by left|].
        right. inversion Hg. lia.
  - destruct (unmountScan (heap (manager s)) path_ None (mounts (manager s))) as [a|]
      eqn:Hscan; [|done].
    destruct (unmount (manager s) path_ res) as [[[mm' err] calls]|] eqn:Hu; [|done].
    inversion Hstep; subst s' ls; clear Hstep.
    assert (Ha : (a < length (heap (manager s)))%nat).
    { apply unmountScan_live in Hscan. destruct Hscan as [|[k Hk]]; [done|].
      by apply (c_wf _ Hc k a). }
    pose proof (unmount_shrinks _ _ _ _ _ _ Hu) as (Hlen & _).
    pose proof (unmount_refCount _ _ _ _ _ _ _ Hu Hscan Ha) as [Hrc Hother].
    cbn [manager goroutines]. rewrite Hlen.
    unfold refs, unrefs, mountCalls. cbn [tally].
    split; [lia|]. split; [|split; [|split; [|split]]].
    + intros b x Hb Hx. rewrite !tally_unmount_calls by done. case_bool_decide as Hba.
      * subst b. rewrite Hrc, Hx, uint_idemp_sub. f_equal. lia.
      * rewrite Hother by done. rewrite Hx. f_equal. lia.
    + intros b Hb. lia.
    + intros b Hb. rewrite !tally_unmount_calls by done.
      case_bool_decide; [subst; lia|done].
    + intros b. left. by rewrite !tally_unmount_calls.
    + intros g b controller' lun' c' Hg. by left.
  - destruct (goroutines s !! g) as [[| a controller_ lun_ c | | |]|] eqn:Hg; try done.
    inversion Hstep; subst s' ls; clear Hstep.
    assert (Ha : (a < length (heap (manager s)))%nat) by (by eapply (c_frames _ Hc g)).
    cbn [manager goroutines set_frame]. unfold refs, unrefs, mountCalls. cbn [tally].
    split; [lia|]. split; [|split; [|split; [|split]]].
    + intros b x Hb Hx. rewrite Hx. f_equal. lia.
    + intros b Hb. lia.
    + intros b Hb. case_bool_decide; [subst; lia|done].
    + intros b. case_bool_decide as Hba; [|by left]. subst b. right.
      split; [done|]. split; [by exists g, controller_, lun_, c|].
      intros g' controller' lun' c' Hg'.
      apply list_lookup_insert_Some in Hg'. destruct Hg' as [(_ & Heq & _)|[Hne Hg']].
      * by destruct res.
      * apply Hne. by eapply (c_unique _ Hc g g').
    + intros g' b controller' lun' c' Hg'.
      apply list_lookup_insert_Some in Hg'. destruct Hg' as [(_ & Heq & _)|[Hne Hg']].
      * by destruct res.
      * by left.
  - destruct (goroutines s !! g) as [[| | a ret err | |]|] eqn:Hg; try done.
    unfold mount_defer_untrack in Hstep.
    destruct (untrackMount (manager s) a) as [mm'|] eqn:Hu; [|done].
    inversion Hstep; subst s' ls; clear Hstep.
    apply untrackMount_shrinks in Hu. destruct Hu as (_ & -> & _).
    cbn [manager goroutines]. unfold refs, unrefs, mountCalls, set_mounts, deref.
    cbn [tally heap].
    split; [lia|]. split; [|split; [|split; [|split]]].
    + intros b x Hb Hx. rewrite Hx. f_equal. lia.
    + intros b Hb. lia.
    + done.
    + intros b. by left.
    + intros g' b controller' lun' c' Hg'.
      apply list_lookup_insert_Some in Hg'. destruct Hg' as [(_ & Heq & _)|[Hne Hg']];
        [done|by left].
  - destruct (goroutines s !! g) as [[| | | a ret err |]|] eqn:Hg; try done.
    unfold mount_defer_publish in Hstep.
    destruct (waitCh (deref (manager s) a)); [|done].
    inversion Hstep; subst s' ls; clear Hstep.
    cbn [manager goroutines]. rewrite length_heap_store.
    unfold refs, unrefs, mountCalls. cbn [tally].
    split; [lia|]. split; [|split; [|split; [|split]]].
    + intros b x Hb Hx. destruct (decide (b = a)) as [->|Hne].
      * rewrite deref_store_eq by done. simpl. rewrite Hx. f_equal. lia.
      * rewrite deref_store_ne by done. rewrite Hx. f_equal. lia.
    + intros b Hb. lia.
    + done.
    + intros b. by left.
    + intros g' b controller' lun' c' Hg'.
      apply list_lookup_insert_Some in Hg'. destruct Hg' as [(_ & Heq & _)|[Hne Hg']];
        [done|by left].
  - destruct (goroutines s !! g) as [[a | | | |]|] eqn:Hg; try done.
    destruct (mount_select (manager s) a cancelled) as [f|] eqn:Hsel; [|done].
    inversion Hstep; subst s' ls; clear Hstep.
    cbn [manager goroutines set_frame]. unfold refs, unrefs, mountCalls. cbn [tally].
    split; [lia|]. split; [|split; [|split; [|split]]].
    + intros b x Hb Hx. rewrite Hx. f_equal. lia.
    + intros b Hb. lia.
    + done.
    + intros b. by left.
    + intros g' b controller' lun' c' Hg'.
      apply list_lookup_insert_Some in Hg'. destruct Hg' as [(_ & Heq & _)|[Hne Hg']];
        [|by left].
      unfold mount_select in Hsel. destruct cancelled; [by inversion Hsel; subst|].
      destruct (waitCh (deref (manager s) a)); [done|].
      destruct (waitErr (deref (manager s) a)); inversion Hsel; by subst.
Qed.

(** ** Reference counts along a schedule *)

Lemma reachable_counted (mountFmt_ : string) (s : system) (tr : list label) :
  reachable Sprintf mountFmt_ s tr -> counted s tr.
Proof.
  revert s tr. apply reachable_ind.
  - split; [intros a Ha; simpl in Ha; lia|done].
  - intros s tr act s' ls Hr [Hin Hout] Hstep.
    pose proof (reachable_consistent _ _ _ Hr) as Hc.
    destruct (step_effect _ _ _ _ Hc Hstep) as (Hlen & Hold & Hnew & Hfresh & _).
    unfold counted, refs, unrefs, mountCalls in *. split.
    + intros a Ha. rewrite !tally_app.
      destruct (decide (a < length (heap (manager s)))%nat) as [Hlt|Hge].
      * rewrite (Hold a _ Hlt (Hin a Hlt)). f_equal. lia.
      * destruct (Hout a ltac:(lia)) as (-> & -> & _). rewrite Hnew by lia. f_equal.
    + intros a Ha. rewrite !tally_app.
      destruct (Hout a ltac:(lia)) as (-> & -> & ->).
      destruct (Hfresh a Ha) as (-> & -> & ->). done.
Qed.

Lemma reachable_mounted_once (mountFmt_ : string) (s : system) (tr : list label) :
  reachable Sprintf mountFmt_ s tr -> mounted_once s tr.
Proof.
  revert s tr. apply reachable_ind.
  - intros a. by left.
  - intros s tr act s' ls Hr IH Hstep a.
    pose proof (reachable_consistent _ _ _ Hr) as Hc.
    pose proof (reachable_counted _ _ _ Hr) as [_ Hout].
    destruct (step_effect _ _ _ _ Hc Hstep) as (_ & _ & _ & _ & Hcalls & Hframes).
    unfold mounted_once, mountCalls in *. rewrite tally_app.
    destruct (Hcalls a) as [->|(-> & (g & controller_ & lun_ & c & Hg) & Hnone)].
    + rewrite Z.add_0_r. destruct (IH a) as [H0|[H1 Hno]]; [by left|right].
      split; [done|]. intros g controller_ lun_ c Hg.
      destruct (Hframes _ _ _ _ _ Hg) as [Hg'|Hfresh]; [by eapply Hno|].
      destruct (Hout a Hfresh) as (_ & _ & H0). lia.
    + destruct (IH a) as [->|[_ Hno]]; [by right|]. exfalso. by eapply Hno.
Qed.

(** C2, amended: along every schedule the [refCount] of an entry is,
    as a [uint] (modulo 2^64), the number of [mount] calls that
    [trackMount] handed the entry to, whether or not they returned an
    error afterwards, minus the number of [unmount] calls that reached
    it; it is exactly that difference whenever the difference lies in
    the range of [uint].  [unmount] on the entry that owns the path,
    the first live entry of the table with that path, decrements that
    entry's [refCount] by one, touches no other entry, and invokes
    [mounter.unmount] exactly when the new count is zero.  The slot is
    then freed when the mounter succeeds and kept, with the wrapped
    error returned, when it fails; while the count is not zero the
    table is unchanged and nil is returned. *)
Theorem refCount_balance (mountFmt_ : string) (s : system) (tr : list label) :
  reachable Sprintf mountFmt_ s tr ->
  (forall a m, heap (manager s) !! a = Some m ->
     refCount m = uint (refs a tr - unrefs a tr) /\
     (0 <= refs a tr - unrefs a tr < 2 ^ uintSize ->
      refCount m = refs a tr - unrefs a tr)) /\
  (forall path_ i a res, owns (manager s) i a path_ ->
     exists mm' err calls,
       unmount (manager s) path_ res = Normal (mm', err, calls) /\
       step Sprintf s (CallUnmount path_ res)
       = Some (System mm' (goroutines s),
               Unref a :: map (fun call => UnmountCall a call res) calls) /\
       refCount (deref mm' a) = uint (refCount (deref (manager s) a) - 1) /\
       refCount (deref mm' a) = uint (refs a tr - unrefs a tr - 1) /\
       (forall b, b <> a -> deref mm' b = deref (manager s) b) /\
       (refCount (deref mm' a) <> 0 ->
        calls = [] /\ err = None /\ mounts mm' = mounts (manager s)) /\
       (refCount (deref mm' a) = 0 ->
        calls = [MounterCall (controller (deref (manager s) a)) (lun (deref (manager s) a))
                   path_ (config (deref (manager s) a))] /\
        (res = None ->
         err = None /\ mounts mm' = <[i := None]> (mounts (manager s)) /\
         ~ tracked mm' a) /\
        (forall e, res = Some e ->
         err = Some (ErrUnmountScsi (controller (deref (manager s) a))
                       (lun (deref (manager s) a)) path_ e) /\
         mounts mm' = mounts (manager s) /\ live mm' i a))).
Proof.
  intros Hr.
  pose proof (reachable_consistent _ _ _ Hr) as Hc.
  pose proof (reachable_counted _ _ _ Hr) as [Hin _].
  split.
  - intros a m Ha. rewrite <- (deref_lookup _ _ _ Ha).
    assert (Heq : refCount (deref (manager s) a) = uint (refs a tr - unrefs a tr))
      by (apply Hin; by eapply lookup_lt_Some).
    split; [exact Heq|]. intros Hsmall. rewrite Heq. by apply uint_small.
  - intros path_ i a res Hown.
    pose proof (owns_unmountScan _ _ _ _ Hown) as Hscan.
    destruct Hown as (Hlive & Hp & _).
    destruct (c_wf _ Hc _ _ Hlive) as [Ha Hidx].
    pose proof (unmount_at (manager s) path_ res i a (c_wf _ Hc) Hlive Hscan) as Hu.
    cbv zeta in Hu.
    set (m := set_refCount (deref (manager s) a) (uint (refCount (deref (manager s) a) - 1)))
      in *.
    assert (Hm : deref (store (manager s) a m) a = m) by (by apply deref_store_eq).
    assert (Hrange := uint_range (refCount (deref (manager s) a) - 1)).
    assert (Hcount : refCount m = uint (refs a tr - unrefs a tr - 1)).
    { unfold m. simpl. rewrite (Hin a Ha), uint_idemp_sub. done. }
    assert (Hothers : forall b, b <> a -> deref (store (manager s) a m) b = deref (manager s) b)
      by (intros b Hb; by apply deref_store_ne).
    unfold step. rewrite Hscan, Hu.
    destruct (0 <? refCount m) eqn:Hpos.
    + apply Z.ltb_lt in Hpos.
      eexists _, _, _. split; [reflexivity|]. split; [reflexivity|].
      rewrite Hm. split; [done|]. split; [exact Hcount|]. split; [exact Hothers|].
      split; [done|intros H0; lia].
    + apply Z.ltb_ge in Hpos.
      assert (H0 : refCount m = 0) by (unfold m in *; simpl in *; lia).
      assert (Hcall : MounterCall (controller m) (lun m) (path m) (config m)
                      = MounterCall (controller (deref (manager s) a))
                          (lun (deref (manager s) a)) path_ (config (deref (manager s) a))).
      { unfold m. simpl. by rewrite Hp. }
      destruct res as [e|].
      * eexists _, _, _. split; [reflexivity|]. split; [reflexivity|].
        rewrite Hm. split; [done|]. split; [exact Hcount|]. split; [exact Hothers|].
        split; [done|]. intros _. split; [by rewrite Hcall|]. split; [done|].
        intros e' He'. inversion He'; subst e'.
        split; [unfold m; simpl; by rewrite Hp|]. split; [done|exact Hlive].
      * eexists _, _, _. split; [reflexivity|]. split; [reflexivity|].
        assert (Hsame : forall b, deref (set_mounts (store (manager s) a m)
                                           (<[i := None]> (mounts (manager s)))) b
                                  = deref (store (manager s) a m) b) by done.
        rewrite Hsame, Hm. split; [done|]. split; [exact Hcount|].
        split; [intros b Hb; rewrite Hsame; by apply Hothers|].
        split; [done|]. intros _. split; [by rewrite Hcall|]. split; [|done]. intros _.
        split; [done|]. split; [done|].
        intros [j Hj]. unfold live in Hj. simpl in Hj.
        apply list_lookup_insert_Some in Hj.
        destruct Hj as [(_ & Hj & _)|[Hne Hj]]; [done|].
        destruct (c_wf _ Hc _ _ Hj) as [_ Hidx']. rewrite Hidx in Hidx'. lia.
Qed.

(** ** Entries that failed to mount *)

Lemma deref_beyond (mm : mountManager) (a : addr) :
  (length (heap mm) <= a)%nat -> waitCh (deref mm a) = ChanOpen.
Proof.
  intros Ha. unfold deref. rewrite list_lookup_total_alt.
  by rewrite lookup_ge_None_2.
Qed.

(** [trackMount] hands out a live entry or a new one. *)
Lemma trackMount_returns (mm mm' : mountManager) controller_ lun_ path_ c (b : addr)
    (existed : bool) (err : option error) :
  trackMount Sprintf mm controller_ lun_ path_ c = (mm', (Some b, existed, err)) ->
  tracked mm b \/ b = length (heap mm).
Proof.
  intros Htrack.
  pose proof (trackMount_cases mm controller_ lun_ path_ c) as Hcases.
  pose proof (trackScan_spec (heap mm) controller_ lun_ path_ c (mounts mm) 0 (-1)
                ltac:(lia)) as Hspec.
  destruct (trackScan (heap mm) controller_ lun_ path_ c 0 (-1) (mounts mm))
    as [a| |freeIndex].
  - rewrite Hcases in Htrack. inversion Htrack; subst.
    destruct Hspec as (k & Hk & _). left. by exists k.
  - rewrite Hcases in Htrack. inversion Htrack.
  - destruct Hcases as (i & _ & Heq). rewrite Heq in Htrack. inversion Htrack. by right.
Qed.

Lemma untracked_never_returned (mm mm' : mountManager) (a : addr) controller_ lun_ path_ c
    (b : addr) (existed : bool) (err : option error) :
  (a < length (heap mm))%nat -> ~ tracked mm a ->
  trackMount Sprintf mm controller_ lun_ path_ c = (mm', (Some b, existed, err)) ->
  b <> a.
Proof.
  intros Ha Hun Htrack ->.
  destruct (trackMount_returns _ _ _ _ _ _ _ _ _ Htrack) as [Ht| ->]; [done|lia].
Qed.

Lemma select_ready (s : system) (g : nat) (a : addr) :
  goroutines s !! g = Some (InSelect a) ->
  waitCh (deref (manager s) a) = ChanClosed ->
  step Sprintf s (Select g None)
  = Some (set_frame s g (Returned (ExitReady a) (result (deref (manager s) a)).1
                           (result (deref (manager s) a)).2), []).
Proof.
  intros Hg Hw. unfold step, mount_select, result. rewrite Hg, Hw.
  by destruct (waitErr (deref (manager s) a)).
Qed.

(** ** Waiters *)

(** A goroutine that waits keeps waiting until it leaves through one of
    the two cases of the [select]; a goroutine that has returned stays
    so. *)
Lemma step_waiter (s s' : system) (act : action) (ls : list label) (g : nat) (a : addr) :
  step Sprintf s act = Some (s', ls) ->
  goroutines s !! g = Some (InSelect a) ->
  goroutines s' !! g = Some (InSelect a) \/
  (exists e, goroutines s' !! g = Some (Returned (ExitDone a) "" (Some e))) \/
  (exists ret err, goroutines s' !! g = Some (Returned (ExitReady a) ret err)).
Proof.
  intros Hstep Hg.
  destruct act as [controller_ lun_ path_ c|path_ res|g0 res|g0|g0|g0 cancelled];
    simpl in Hstep.
  - destruct (mount_track Sprintf (manager s) controller_ lun_ path_ c)
      as [[[mm' f] got]|]; [|done].
    inversion Hstep; subst. left. by apply lookup_app_l_Some.
  - destruct (unmountScan _ _ _ _); [|done].
    destruct (unmount _ _ _) as [[[mm' err] calls]|]; [|done].
    inversion Hstep; subst. by left.
  - destruct (goroutines s !! g0) as [[| b controller_ lun_ c | | |]|] eqn:Hg0; try done.
    inversion Hstep; subst. left. cbn [goroutines set_frame].
    rewrite list_lookup_insert_ne; [done|]. intros ->. by rewrite Hg in Hg0.
  - destruct (goroutines s !! g0) as [[| | b ret err | |]|] eqn:Hg0; try done.
    destruct (mount_defer_untrack _ _); [|done].
    inversion Hstep; subst. left. cbn [goroutines].
    rewrite list_lookup_insert_ne; [done|]. intros ->. by rewrite Hg in Hg0.
  - destruct (goroutines s !! g0) as [[| | | b ret err |]|] eqn:Hg0; try done.
    destruct (mount_defer_publish _ _ _); [|done].
    inversion Hstep; subst. left. cbn [goroutines].
    rewrite list_lookup_insert_ne; [done|]. intros ->. by rewrite Hg in Hg0.
  - destruct (goroutines s !! g0) as [[b | | | |]|] eqn:Hg0; try done.
    destruct (mount_select (manager s) b cancelled) as [f|] eqn:Hsel; [|done].
    inversion Hstep; subst. cbn [goroutines set_frame].
    destruct (decide (g0 = g)) as [->|Hne]; [|left; by rewrite list_lookup_insert_ne].
    rewrite Hg in Hg0. inversion Hg0; subst b.
    rewrite list_lookup_insert_eq by (by eapply lookup_lt_Some).
    right. unfold mount_select in Hsel.
    destruct cancelled as [e|]; [inversion Hsel; left; by exists e|].
    destruct (waitCh (deref (manager s) a)); [done|]. right.
    destruct (waitErr (deref (manager s) a)); inversion Hsel; by do 2 eexists.
Qed.

Lemma step_returned (s s' : system) (act : action) (ls : list label) (g : nat)
    (via : exit) (ret : string) (err : option error) :
  step Sprintf s act = Some (s', ls) ->
  goroutines s !! g = Some (Returned via ret err) ->
  goroutines s' !! g = Some (Returned via ret err).
Proof.
  intros Hstep Hg.
  destruct act as [controller_ lun_ path_ c|path_ res|g0 res|g0|g0|g0 cancelled];
    simpl in Hstep.
  - destruct (mount_track Sprintf (manager s) controller_ lun_ path_ c)
      as [[[mm' f] got]|]; [|done].
    inversion Hstep; subst. by apply lookup_app_l_Some.
  - destruct (unmountScan _ _ _ _); [|done].
    destruct (unmount _ _ _) as [[[mm' err'] calls]|]; [|done].
    by inversion Hstep; subst.
  - destruct (goroutines s !! g0) as [[| b controller_ lun_ c | | |]|] eqn:Hg0; try done.
    inversion Hstep; subst. cbn [goroutines set_frame].
    rewrite list_lookup_insert_ne; [done|]. intros ->. by rewrite Hg in Hg0.
  - destruct (goroutines s !! g0) as [[| | b ret' err' | |]|] eqn:Hg0; try done.
    destruct (mount_defer_untrack _ _); [|done].
    inversion Hstep; subst. cbn [goroutines].
    rewrite list_lookup_insert_ne; [done|]. intros ->. by rewrite Hg in Hg0.
  - destruct (goroutines s !! g0) as [[| | | b ret' err' |]|] eqn:Hg0; try done.
    destruct (mount_defer_publish _ _ _); [|done].
    inversion Hstep; subst. cbn [goroutines].
    rewrite list_lookup_insert_ne; [done|]. intros ->. by rewrite Hg in Hg0.
  - destruct (goroutines s !! g0) as [[b | | | |]|] eqn:Hg0; try done.
    destruct (mount_select (manager s) b cancelled) as [f|]; [|done].
    inversion Hstep; subst. cbn [goroutines set_frame].
    rewrite list_lookup_insert_ne; [done|]. intros ->. by rewrite Hg in Hg0.
Qed.

Lemma run_waiter (s s' : system) (acts : list action) (tr : list label) (g : nat)
    (a : addr) :
  run Sprintf s acts = Some (s', tr) ->
  goroutines s !! g = Some (InSelect a) ->
  goroutines s' !! g = Some (InSelect a) \/
  (exists e, goroutines s' !! g = Some (Returned (ExitDone a) "" (Some e))) \/
  (exists ret err, goroutines s' !! g = Some (Returned (ExitReady a) ret err)).
Proof.
  revert s tr. induction acts as [|act acts IH]; intros s tr Hrun Hg; simpl in Hrun.
  - inversion Hrun; subst. by left.
  - destruct (step Sprintf s act) as [[s1 ls]|] eqn:Hstep; [|done].
    destruct (run Sprintf s1 acts) as [[s2 tr2]|] eqn:Hrest; [|done].
    inversion Hrun; subst.
    assert (Hkeep : forall via ret err,
              goroutines s1 !! g = Some (Returned via ret err) ->
              goroutines s' !! g = Some (Returned via ret err)).
    { clear -Hrest. revert s1 tr2 Hrest.
      induction acts as [|act acts IH]; intros s1 tr2 Hrest via ret err Hg;
        simpl in Hrest.
      - by inversion Hrest; subst.
      - destruct (step Sprintf s1 act) as [[s2 ls]|] eqn:Hstep; [|done].
        destruct (run Sprintf s2 acts) as [[s3 tr3]|] eqn:Hrest'; [|done].
        inversion Hrest; subst. eapply IH; [exact Hrest'|].
        by eapply step_returned. }
    destruct (step_waiter _ _ _ _ _ _ Hstep Hg) as [Hw|[[e He]|(ret & err & Hre)]].
    + by eapply IH.
    + right. left. exists e. by apply Hkeep.
    + right. right. exists ret, err. by apply Hkeep.
Qed.

Lemma run_returned (s s' : system) (acts : list action) (tr : list label) (g : nat)
    (via : exit) (ret : string) (err : option error) :
  run Sprintf s acts = Some (s', tr) ->
  goroutines s !! g = Some (Returned via ret err) ->
  goroutines s' !! g = Some (Returned via ret err).
Proof.
  revert s tr. induction acts as [|act acts IH]; intros s tr Hrun Hg; simpl in Hrun.
  - by inversion Hrun; subst.
  - destruct (step Sprintf s act) as [[s1 ls]|] eqn:Hstep; [|done].
    destruct (run Sprintf s1 acts) as [[s2 tr2]|] eqn:Hrest; [|done].
    inversion Hrun; subst. eapply IH; [exact Hrest|]. by eapply step_returned.
Qed.

(** ** Failure of the first mount *)

(** C3, amended: when [mounter.mount] fails for a newly created entry,
    the deferred function of [mount] first takes the entry out of the
    table and only then records the error in [waitErr] and closes
    [waitCh]: at the moment of publication the entry is in no slot and
    the channel is still open.  From then on the entry is never in the
    table again, so [trackMount] never hands it to a later caller.  A
    goroutine waiting on the entry can leave its [select] through
    [waitCh], and then returns the pioneer's error, or through
    [ctx.Done()] when its context is cancelled, and then returns
    [ctx.Err()]; whatever the schedule, it has returned one of the two
    or still waits. *)
Theorem mount_failure_untracks_before_ready (mountFmt_ : string) (s : system)
    (tr : list label) :
  reachable Sprintf mountFmt_ s tr ->
  (forall g a controller_ lun_ c e,
     goroutines s !! g = Some (InMounter a controller_ lun_ c) ->
     step Sprintf s (MounterReturns g (Some e))
     = Some (set_frame s g
               (InDeferUntrack a ""
                  (ErrMountScsi controller_ lun_ (path (deref (manager s) a)) e)),
             [MountCall a (MounterCall controller_ lun_ (path (deref (manager s) a)) c)
                (Some e)])) /\
  (forall g a ret err,
     goroutines s !! g = Some (InDeferUntrack a ret err) ->
     exists mm',
       untrackMount (manager s) a = Normal mm' /\
       step Sprintf s (DeferUntrack g)
       = Some (System mm' (<[g := InDeferPublish a ret (Some err)]> (goroutines s)), []) /\
       ~ tracked mm' a /\ waitCh (deref mm' a) = ChanOpen) /\
  (forall g a ret err,
     goroutines s !! g = Some (InDeferPublish a ret (Some err)) ->
     ~ tracked (manager s) a /\ waitCh (deref (manager s) a) = ChanOpen /\
     exists s',
       step Sprintf s (DeferPublish g) = Some (s', []) /\
       mounts (manager s') = mounts (manager s) /\
       waitCh (deref (manager s') a) = ChanClosed /\
       waitErr (deref (manager s') a) = Some err /\
       goroutines s' !! g = Some (Returned (ExitPioneer a) "" (Some err)) /\
       forall g', goroutines s !! g' = Some (InSelect a) ->
         step Sprintf s' (Select g' None)
         = Some (set_frame s' g' (Returned (ExitReady a) "" (Some err)), [])) /\
  (forall a e,
     waitCh (deref (manager s) a) = ChanClosed ->
     waitErr (deref (manager s) a) = Some e ->
     ~ tracked (manager s) a /\
     (forall controller_ lun_ path_ c mm' b existed err,
        trackMount Sprintf (manager s) controller_ lun_ path_ c
        = (mm', (Some b, existed, err)) -> b <> a) /\
     forall g, goroutines s !! g = Some (InSelect a) ->
       step Sprintf s (Select g None)
       = Some (set_frame s g (Returned (ExitReady a) "" (Some e)), []) /\
       (forall e', step Sprintf s (Select g (Some e'))
                   = Some (set_frame s g (Returned (ExitDone a) "" (Some e')), [])) /\
       forall acts s' tr', run Sprintf s acts = Some (s', tr') ->
         goroutines s' !! g = Some (InSelect a) \/
         (exists e', goroutines s' !! g = Some (Returned (ExitDone a) "" (Some e'))) \/
         goroutines s' !! g = Some (Returned (ExitReady a) "" (Some e))).
Proof.
  intros Hr. pose proof (reachable_consistent _ _ _ Hr) as Hc.
  split; [|split; [|split]].
  - intros g a controller_ lun_ c e Hg. unfold step. by rewrite Hg.
  - intros g a ret err Hg.
    assert (Ha : (a < length (heap (manager s)))%nat) by (by eapply (c_frames _ Hc g)).
    pose proof (c_index _ Hc a Ha) as Hrange.
    assert (Hu : untrackMount (manager s) a
                 = Normal (set_mounts (manager s)
                             (<[Z.to_nat (index (deref (manager s) a)) := None]>
                                (mounts (manager s))))).
    { unfold untrackMount.
      destruct (Z.leb_spec 0 (index (deref (manager s) a))); [|lia].
      destruct (Z.ltb_spec (index (deref (manager s) a))
                  (Z.of_nat (length (mounts (manager s))))); [done|lia]. }
    eexists. split; [exact Hu|]. split.
    + unfold step, mount_defer_untrack. by rewrite Hg, Hu.
    + split; [by eapply untrackMount_untracked; [apply (c_wf _ Hc)|exact Hu]|].
      change (waitCh (deref (manager s) a) = ChanOpen). by eapply (c_open _ Hc g).
  - intros g a ret err Hg.
    assert (Ha : (a < length (heap (manager s)))%nat) by (by eapply (c_frames _ Hc g)).
    assert (Hopen : waitCh (deref (manager s) a) = ChanOpen) by (by eapply (c_open _ Hc g)).
    assert (Hret : ret = "") by (by apply (c_publish _ Hc g a ret (Some err))).
    subst ret.
    split; [by eapply (c_failed _ Hc g)|]. split; [done|].
    eexists. split; [unfold step, mount_defer_publish; by rewrite Hg, Hopen|].
    cbn [manager goroutines]. rewrite deref_store_eq by done.
    split; [done|]. split; [done|]. split; [done|].
    split; [apply list_lookup_insert_eq; by eapply lookup_lt_Some|].
    intros g' Hg'.
    assert (Hne : g <> g') by (intros ->; rewrite Hg in Hg'; done).
    unfold step, mount_select. cbn [manager goroutines].
    rewrite list_lookup_insert_ne by done. rewrite Hg'.
    by rewrite deref_store_eq.
  - intros a e Hw He.
    assert (Ha : (a < length (heap (manager s)))%nat).
    { destruct (decide (a < length (heap (manager s)))%nat) as [|Hge]; [done|].
      rewrite deref_beyond in Hw by lia. done. }
    pose proof (c_error _ Hc a e Hw He) as Hun.
    split; [done|]. split.
    + intros controller_ lun_ path_ c mm' b existed err Htrack.
      by eapply untracked_never_returned.
    + intros g Hg. split; [|split].
      * rewrite (select_ready s g a Hg Hw). unfold result. by rewrite He.
      * intros e'. unfold step, mount_select. by rewrite Hg.
      * intros acts s' tr' Hrun.
        destruct (run_waiter _ _ _ _ _ _ Hrun Hg) as [Hwait|[Hdone|(ret & err & Hready)]];
          [by left|right; by left|right; right].
        destruct (c_closed _ Hc a Hw) as [g0 Hg0].
        unfold result in Hg0. rewrite He in Hg0. simpl in Hg0.
        pose proof (run_returned _ _ _ _ _ _ _ _ Hrun Hg0) as Hg0'.
        pose proof (run_consistent _ _ _ _ Hc Hrun) as Hc'.
        destruct (c_pioneer _ Hc' _ _ _ _ Hg0') as [_ Hres].
        destruct (c_ready _ Hc' _ _ _ _ Hready) as [_ Hres'].
        rewrite Hres in Hres'. by inversion Hres'; subst.
Qed.

(** ** Deduplication *)

(** C1, amended: in a state that some schedule produces, let [a] be a
    live entry whose key is the caller's [controller], [lun] and
    configuration (options sorted, compared as [reflect.DeepEqual]
    does), and let the caller's path be empty or differ from the path of
    every live entry before [a] in the table.  Then the call creates no
    entry and starts no mount: it increments the [refCount] of [a],
    leaves every other entry and the table alone, and waits in the
    [select].  Whatever happens next, [mounter.mount] is invoked at most
    once for [a], and the caller either still waits, or has returned
    [ctx.Err()] because its context was cancelled, or has returned what
    the pioneer of [a] returned: the pioneer's error, or the path of
    [a].  Once the channel is closed, the [waitCh] case is enabled. *)
Theorem mount_deduplicates (mountFmt_ : string) (s : system) (tr : list label) (i : nat)
    (a : addr) controller_ lun_ path_ c :
  reachable Sprintf mountFmt_ s tr ->
  live (manager s) i a ->
  keyEqual (deref (manager s) a) controller_ lun_ (sortOptions c) ->
  (path_ = "" \/
   forall j b, (j < i)%nat -> live (manager s) j b -> path (deref (manager s) b) <> path_) ->
  exists s',
    step Sprintf s (CallMount controller_ lun_ path_ c) = Some (s', [Ref a]) /\
    goroutines s' = goroutines s ++ [InSelect a] /\
    mounts (manager s') = mounts (manager s) /\
    refCount (deref (manager s') a) = uint (refCount (deref (manager s) a) + 1) /\
    (forall b, b <> a -> deref (manager s') b = deref (manager s) b) /\
    forall acts s'' tr', run Sprintf s' acts = Some (s'', tr') ->
      mountCalls a (tr ++ [Ref a] ++ tr') <= 1 /\
      (goroutines s'' !! length (goroutines s) = Some (InSelect a) \/
       (exists e, goroutines s'' !! length (goroutines s)
                  = Some (Returned (ExitDone a) "" (Some e))) \/
       (exists ret err g0,
          goroutines s'' !! length (goroutines s) = Some (Returned (ExitReady a) ret err) /\
          goroutines s'' !! g0 = Some (Returned (ExitPioneer a) ret err) /\
          result (deref (manager s'') a) = (ret, err))) /\
      (goroutines s'' !! length (goroutines s) = Some (InSelect a) ->
       waitCh (deref (manager s'') a) = ChanClosed ->
       step Sprintf s'' (Select (length (goroutines s)) None)
       = Some (set_frame s'' (length (goroutines s))
                 (Returned (ExitReady a) (result (deref (manager s'') a)).1
                    (result (deref (manager s'') a)).2), [])).
Proof.
  intros Hr Hlive Hkey Hpath.
  pose proof (reachable_consistent _ _ _ Hr) as Hc.
  destruct (c_wf _ Hc _ _ Hlive) as [Ha _].
  assert (Hscan : trackScan (heap (manager s)) controller_ lun_ path_ (sortOptions c) 0 (-1)
                    (mounts (manager s)) = Found a).
  { apply (trackScan_first_key _ _ _ _ _ _ i); [exact Hlive|exact Hkey|].
    intros j b Hj Hb [Hk|[Hne Hp]].
    - assert (j = i); [|lia]. apply (c_keys _ Hc j i b a Hb Hlive).
      destruct Hkey as (H1 & H2 & H3). destruct Hk as (H4 & H5 & H6).
      unfold keyEqual, deref in *. by rewrite H1, H2, H3.
    - destruct Hpath as [->|Hpath]; [done|]. by apply (Hpath j b). }
  pose proof (mount_track_cases (manager s) controller_ lun_ path_ c) as Hcases.
  rewrite Hscan in Hcases. destruct Hcases as [_ Htrack].
  set (s' := System (store (manager s) a
                       (set_refCount (deref (manager s) a)
                          (uint (refCount (deref (manager s) a) + 1))))
               (goroutines s ++ [InSelect a])).
  assert (Hstep : step Sprintf s (CallMount controller_ lun_ path_ c) = Some (s', [Ref a])).
  { unfold step. by rewrite Htrack. }
  exists s'. split; [exact Hstep|]. split; [done|]. split; [done|].
  split; [unfold s'; cbn [manager]; by rewrite deref_store_eq|].
  split; [intros b Hb; unfold s'; cbn [manager]; by apply deref_store_ne|].
  intros acts s'' tr' Hrun.
  assert (Hr'' : reachable Sprintf mountFmt_ s'' (tr ++ [Ref a] ++ tr')).
  { rewrite app_assoc. eapply reachable_run; [|exact Hrun]. by eapply reachable_step. }
  pose proof (reachable_consistent _ _ _ Hr'') as Hc''.
  split; [|split].
  - destruct (reachable_mounted_once _ _ _ Hr'' a) as [->|[-> _]]; lia.
  - assert (Hg : goroutines s' !! length (goroutines s) = Some (InSelect a)).
    { unfold s'. cbn [goroutines]. by rewrite list_lookup_middle. }
    destruct (run_waiter _ _ _ _ _ _ Hrun Hg) as [Hw|[He|(ret & err & Hre)]];
      [by left|by right; left|].
    right. right. destruct (c_ready _ Hc'' _ _ _ _ Hre) as [Hcl Hres].
    destruct (c_closed _ Hc'' a Hcl) as [g0 Hg0]. rewrite Hres in Hg0.
    by exists ret, err, g0.
  - intros Hg Hcl. by apply select_ready.
Qed.

End scsi_facts.

(** * The scenarios, evaluated *)

Import scsi scenario.

Ltac reach acts := exists acts; vm_compute; reflexivity.

(** [wf] of a concrete manager with at most three slots. *)
Ltac wf_by_computation :=
  let i := fresh "i" in
  let a := fresh "a" in
  let H := fresh "H" in
  intros i a H; unfold live in H;
  do 3 (destruct i as [|i];
        [ vm_compute in H;
          first [ discriminate H
                | injection H as <-; vm_compute; split; [lia|reflexivity] ]
        | ]);
  vm_compute in H; discriminate H.

(** S2 and S3: two calls whose options differ in order share one entry
    and one mount; the second [unmount] releases the device. *)
Example mount_twice_unmount_twice :
  run SprintfInt (init mountFmt0)
    [CallMount 0 3 "" cfgA; CallMount 0 3 "" cfgB; MounterReturns 0 None; DeferPublish 0;
     Select 1 None; CallUnmount "/mnt/scsi/0" None; CallUnmount "/mnt/scsi/0" None]
  = Some
      (System
         (MountManager
            [Mount "/mnt/scsi/0" 0 0 3 (sortOptions cfgA) None ChanClosed 0]
            [None] mountFmt0)
         [Returned (ExitPioneer 0) "/mnt/scsi/0" None;
          Returned (ExitReady 0) "/mnt/scsi/0" None],
       [Ref 0%nat; Ref 0%nat;
        MountCall 0 (MounterCall 0 3 "/mnt/scsi/0" (sortOptions cfgA)) None;
        Unref 0%nat; Unref 0%nat;
        UnmountCall 0 (MounterCall 0 3 "/mnt/scsi/0" (sortOptions cfgA)) None]).
Proof. vm_compute. reflexivity. Qed.

Example sortOptions_order_insensitive : sortOptions cfgA = sortOptions cfgB.
Proof. reflexivity. Qed.

(** A nil and an empty options slice are different keys. *)
Example nil_and_empty_options_differ :
  let empty := MountConfig 0 false false false (Some []) false "" in
  run SprintfInt (init mountFmt0) [CallMount 0 3 "" cfg0; CallMount 0 3 "" empty]
  = Some
      (System
         (MountManager
            [Mount "/mnt/scsi/0" 0 0 3 cfg0 None ChanOpen 1;
             Mount "/mnt/scsi/1" 1 0 3 empty None ChanOpen 1]
            [Some 0%nat; Some 1%nat] mountFmt0)
         [InMounter 0 0 3 cfg0; InMounter 1 0 3 empty],
       [Ref 0%nat; Ref 1%nat]).
Proof. vm_compute. reflexivity. Qed.

Example unmount_on_empty_table_panics :
  unmount (newMountManager mountFmt0) "/mnt/scsi/0" None = Panic.
Proof. reflexivity. Qed.

Example unmount_after_tombstone_panics :
  unmount (MountManager [Mount "/mnt/scsi/0" 0 0 3 cfg0 None ChanClosed 0] [None] mountFmt0)
    "/mnt/scsi/0" None
  = Panic.
Proof. reflexivity. Qed.

(** An unknown path makes [unmount] release the last entry of the table. *)
Example unmount_unknown_path_hits_last_entry :
  exists mm',
    unmount (manager (outcome_of two_paths).1) "/nowhere" None
    = Normal (mm', None, [MounterCall 0 2 "/b" cfg0]) /\
    mounts mm' = [Some 0%nat; None].
Proof. eexists. split; vm_compute; reflexivity. Qed.

Lemma mount_deduplicates_witness :
  let s := (outcome_of in_flight).1 in
  reachable SprintfInt mountFmt0 s (outcome_of in_flight).2 /\
  live (manager s) 0 0 /\
  keyEqual (deref (manager s) 0%nat) 0 3 (sortOptions cfgB) /\
  exists s',
    step SprintfInt s (CallMount 0 3 "" cfgB) = Some (s', [Ref 0%nat]) /\
    goroutines s' = goroutines s ++ [InSelect 0%nat] /\
    refCount (deref (manager s') 0%nat) = 2.
Proof.
  intros s.
  assert (Hr : reachable SprintfInt mountFmt0 s (outcome_of in_flight).2)
    by reach in_flight.
  assert (Hlive : live (manager s) 0 0) by reflexivity.
  assert (Hkey : keyEqual (deref (manager s) 0%nat) 0 3 (sortOptions cfgB))
    by (vm_compute; auto).
  destruct (mount_deduplicates SprintfInt mountFmt0 s _ 0 0 0 3 "" cfgB Hr Hlive Hkey
              (or_introl eq_refl)) as (s' & Hstep & Hg & _ & Hrc & _).
  split; [exact Hr|]. split; [exact Hlive|]. split; [exact Hkey|].
  exists s'. split; [exact Hstep|]. split; [exact Hg|].
  rewrite Hrc. vm_compute. reflexivity.
Defined.

(** The claim C1 as stated fails twice.  In [two_paths] entry 1 is live
    with key (0, 2, cfg0); a later call with that key and the path of
    entry 0 takes no reference and returns the mountpoint error, not the
    pioneer's outcome.  In [cancelled_waiter] the second caller returns
    [ctx.Err()] although the pioneer returned the path. *)
Lemma mount_deduplicates_counterexample :
  let s := (outcome_of two_paths).1 in
  reachable SprintfInt mountFmt0 s (outcome_of two_paths).2 /\
  live (manager s) 1 1 /\
  keyEqual (deref (manager s) 1%nat) 0 2 (sortOptions cfg0) /\
  goroutines s !! 1%nat = Some (Returned (ExitPioneer 1) "/b" None) /\
  step SprintfInt s (CallMount 0 2 "/a" cfg0)
  = Some (System (manager s)
            (goroutines s ++ [Returned ExitTrack "" (Some (ErrExistingMountpoint "/a"))]),
          []) /\
  let t := (outcome_of cancelled_waiter).1 in
  reachable SprintfInt mountFmt0 t (outcome_of cancelled_waiter).2 /\
  goroutines t = [Returned (ExitPioneer 0) "/mnt/scsi/0" None;
                  Returned (ExitDone 0) "" (Some canceled)].
Proof.
  intros s. split; [reach two_paths|]. split; [reflexivity|].
  split; [vm_compute; auto|]. split; [reflexivity|]. split; [vm_compute; reflexivity|].
  intros t. split; [reach cancelled_waiter|]. vm_compute. reflexivity.
Qed.

Lemma refCount_balance_witness :
  let s := (outcome_of mounted).1 in
  let tr := (outcome_of mounted).2 in
  reachable SprintfInt mountFmt0 s tr /\
  owns (manager s) 0 0 "/mnt/scsi/0" /\
  refCount (deref (manager s) 0%nat) = uint (refs 0 tr - unrefs 0 tr) /\
  exists mm' err calls,
    unmount (manager s) "/mnt/scsi/0" None = Normal (mm', err, calls) /\
    refCount (deref mm' 0%nat) = uint (refs 0 tr - unrefs 0 tr - 1).
Proof.
  intros s tr.
  assert (Hr : reachable SprintfInt mountFmt0 s tr) by reach mounted.
  assert (Hown : owns (manager s) 0 0 "/mnt/scsi/0").
  { split; [reflexivity|]. split; [reflexivity|]. intros j b Hj. lia. }
  destruct (refCount_balance SprintfInt mountFmt0 s tr Hr) as [Hcount Hunmount].
  split; [exact Hr|]. split; [exact Hown|]. split.
  - exact (proj1 (Hcount 0%nat (deref (manager s) 0%nat) eq_refl)).
  - destruct (Hunmount "/mnt/scsi/0" 0%nat 0%nat None Hown)
      as (mm' & err & calls & Hu & _ & _ & Hrc & _).
    exists mm', err, calls. split; [exact Hu|exact Hrc].
Defined.

(** The claim C2 as stated fails.  In [unmount_retried] one [mount] and
    two [unmount] calls have reached entry 0: the first [unmount] took
    the count to zero and the mounter failed, the second took it below
    zero, where it wraps; the count is 2^64 - 1 and not 1 - 2, the
    mounter was not asked again and the entry is still live.  In
    [supplied_then_generated] entry 1 is live with the path
    "/mnt/scsi/1", and [unmount] of that path reaches entry 0, which
    has the same path and comes first: the count of entry 1 stays. *)
Lemma refCount_balance_counterexample :
  let s := (outcome_of unmount_retried).1 in
  let tr := (outcome_of unmount_retried).2 in
  let s2 := (outcome_of supplied_then_generated).1 in
  (reachable SprintfInt mountFmt0 s tr /\
   tr = [Ref 0%nat; MountCall 0%nat (MounterCall 0 3 "/mnt/scsi/0" (sortOptions cfgA)) None;
         Unref 0%nat;
         UnmountCall 0%nat (MounterCall 0 3 "/mnt/scsi/0" (sortOptions cfgA)) (Some busy);
         Unref 0%nat] /\
   refs 0 tr - unrefs 0 tr = -1 /\
   refCount (deref (manager s) 0%nat) = 2 ^ 64 - 1 /\
   refCount (deref (manager s) 0%nat) <> refs 0 tr - unrefs 0 tr /\
   live (manager s) 0 0) /\
  (reachable SprintfInt mountFmt0 s2 (outcome_of supplied_then_generated).2 /\
   live (manager s2) 1 1 /\ path (deref (manager s2) 1%nat) = "/mnt/scsi/1" /\
   refCount (deref (manager s2) 1%nat) = 1 /\
   exists mm',
     unmount (manager s2) "/mnt/scsi/1" None
     = Normal (mm', None, [MounterCall 0 0 "/mnt/scsi/1" cfg0]) /\
     refCount (deref mm' 1%nat) = 1 /\ refCount (deref mm' 0%nat) = 0 /\
     live mm' 1 1).
Proof.
  intros s tr s2. split.
  - split; [reach unmount_retried|]. split; [vm_compute; reflexivity|].
    split; [vm_compute; reflexivity|]. split; [vm_compute; reflexivity|].
    split; [vm_compute; discriminate|reflexivity].
  - split; [reach supplied_then_generated|]. split; [reflexivity|].
    split; [reflexivity|]. split; [reflexivity|].
    eexists. split; [vm_compute; reflexivity|].
    split; [reflexivity|]. split; reflexivity.
Qed.

Lemma mount_failure_untracks_before_ready_witness :
  let s := (outcome_of failing).1 in
  reachable SprintfInt mountFmt0 s (outcome_of failing).2 /\
  goroutines s !! 0%nat
  = Some (InDeferUntrack 0 "" (ErrMountScsi 0 3 "/mnt/scsi/0" busy)) /\
  exists mm',
    step SprintfInt s (DeferUntrack 0)
    = Some (System mm'
              (<[0%nat := InDeferPublish 0 "" (Some (ErrMountScsi 0 3 "/mnt/scsi/0" busy))]>
                 (goroutines s)), []) /\
    ~ tracked mm' 0 /\ waitCh (deref mm' 0%nat) = ChanOpen.
Proof.
  intros s.
  assert (Hr : reachable SprintfInt mountFmt0 s (outcome_of failing).2) by reach failing.
  assert (Hg : goroutines s !! 0%nat
               = Some (InDeferUntrack 0 "" (ErrMountScsi 0 3 "/mnt/scsi/0" busy)))
    by reflexivity.
  destruct (mount_failure_untracks_before_ready SprintfInt mountFmt0 s _ Hr)
    as (_ & Huntrack & _).
  destruct (Huntrack 0%nat 0%nat _ _ Hg) as (mm' & _ & Hstep & Hun & Hopen).
  split; [exact Hr|]. split; [exact Hg|].
  exists mm'. split; [exact Hstep|]. split; [exact Hun|exact Hopen].
Defined.

(** The claim C3 as stated fails in its last part.  In
    [failure_published] the mounter has failed, the pioneer has
    untracked entry 0, recorded its error and closed the channel, and
    goroutine 1 still waits on the entry; when its context is cancelled
    it leaves the [select] through [ctx.Done()] and returns
    [ctx.Err()], not the pioneer's error. *)
Lemma mount_failure_counterexample :
  let s := (outcome_of failure_published).1 in
  let failure := ErrMountScsi 0 3 "/mnt/scsi/0" busy in
  reachable SprintfInt mountFmt0 s (outcome_of failure_published).2 /\
  waitCh (deref (manager s) 0%nat) = ChanClosed /\
  waitErr (deref (manager s) 0%nat) = Some failure /\
  goroutines s !! 0%nat = Some (Returned (ExitPioneer 0) "" (Some failure)) /\
  goroutines s !! 1%nat = Some (InSelect 0) /\
  step SprintfInt s (Select 1 (Some canceled))
  = Some (set_frame s 1 (Returned (ExitDone 0) "" (Some canceled)), []) /\
  canceled <> failure.
Proof.
  intros s failure. split; [reach failure_published|].
  split; [reflexivity|]. split; [reflexivity|]. split; [reflexivity|].
  split; [reflexivity|]. split; [vm_compute; reflexivity|discriminate].
Qed.

Example failure_then_waiter_sees_error :
  run SprintfInt (outcome_of failing).1 [DeferUntrack 0; DeferPublish 0; Select 1 None]
  = Some
      (System
         (MountManager
            [Mount "/mnt/scsi/0" 0 0 3 (sortOptions cfgA)
               (Some (ErrMountScsi 0 3 "/mnt/scsi/0" busy)) ChanClosed 2]
            [None] mountFmt0)
         [Returned (ExitPioneer 0) "" (Some (ErrMountScsi 0 3 "/mnt/scsi/0" busy));
          Returned (ExitReady 0) "" (Some (ErrMountScsi 0 3 "/mnt/scsi/0" busy))],
       []).
Proof. vm_compute. reflexivity. Qed.

Lemma unmount_failure_keeps_entry_witness :
  let mm := manager (outcome_of mounted).1 in
  wf mm /\ owns mm 0 0 "/mnt/scsi/0" /\ refCount (deref mm 0%nat) = 1 /\
  exists mm',
    unmount mm "/mnt/scsi/0" (Some busy)
    = Normal (mm', Some (ErrUnmountScsi 0 3 "/mnt/scsi/0" busy),
              [MounterCall 0 3 "/mnt/scsi/0" (sortOptions cfgA)]) /\
    mounts mm' = mounts mm /\ live mm' 0 0 /\ refCount (deref mm' 0%nat) = 0.
Proof.
  intros mm.
  assert (Hwf : wf mm) by wf_by_computation.
  assert (Hown : owns mm 0 0 "/mnt/scsi/0").
  { split; [reflexivity|]. split; [reflexivity|]. intros j b Hj. lia. }
  assert (Hrc : refCount (deref mm 0%nat) = 1) by reflexivity.
  destruct (unmount_failure_keeps_entry mm "/mnt/scsi/0" 0 0 busy Hwf Hown Hrc)
    as (mm' & Hu & Hm & Hlive & _ & H0).
  split; [exact Hwf|]. split; [exact Hown|]. split; [exact Hrc|].
  exists mm'. split; [exact Hu|]. split; [exact Hm|]. split; [exact Hlive|exact H0].
Defined.

(** The claim C4 as stated fails: after the failed physical unmount of
    the only reference, the error is returned and the entry is still in
    slot 0 of the table. *)
Lemma unmount_failure_counterexample :
  let mm := manager (outcome_of mounted).1 in
  owns mm 0 0 "/mnt/scsi/0" /\ refCount (deref mm 0%nat) = 1 /\
  exists mm',
    unmount mm "/mnt/scsi/0" (Some busy)
    = Normal (mm', Some (ErrUnmountScsi 0 3 "/mnt/scsi/0" busy),
              [MounterCall 0 3 "/mnt/scsi/0" (sortOptions cfgA)]) /\
    tracked mm' 0 /\ ~ ~ tracked mm' 0.
Proof.
  intros mm. split.
  { split; [reflexivity|]. split; [reflexivity|]. intros j b Hj. lia. }
  split; [reflexivity|].
  eexists. split; [vm_compute; reflexivity|].
  assert (Ht : tracked
                 (MountManager
                    [Mount "/mnt/scsi/0" 0 0 3 (sortOptions cfgA) None ChanClosed 0]
                    [Some 0%nat] mountFmt0) 0)
    by (exists 0%nat; reflexivity).
  split; [exact Ht|]. intros Hn. exact (Hn Ht).
Qed.

(** C5, a defect of the code: a path generated from the template is not
    compared with the paths already in the table.  After a caller has
    mounted a device at the supplied path "/mnt/scsi/1" (slot 0), a call
    with an empty path gets slot 1 and the generated path
    "/mnt/scsi/1": two live entries with one path, both calls
    successful. *)
Theorem generated_path_collides_with_supplied :
  let s := (outcome_of supplied_then_generated).1 in
  reachable SprintfInt mountFmt0 s (outcome_of supplied_then_generated).2 /\
  live (manager s) 0 0 /\ live (manager s) 1 1 /\
  path (deref (manager s) 0%nat) = "/mnt/scsi/1" /\
  path (deref (manager s) 1%nat) = "/mnt/scsi/1" /\
  ~ keyEqual (deref (manager s) 0%nat)
      (controller (deref (manager s) 1%nat)) (lun (deref (manager s) 1%nat))
      (config (deref (manager s) 1%nat)) /\
  goroutines s = [Returned (ExitPioneer 0) "/mnt/scsi/1" None;
                  Returned (ExitPioneer 1) "/mnt/scsi/1" None].
Proof.
  intros s. split; [reach supplied_then_generated|].
  split; [reflexivity|]. split; [reflexivity|]. split; [reflexivity|].
  split; [reflexivity|]. split; [|reflexivity].
  intros (_ & Hlun & _). vm_compute in Hlun. discriminate Hlun.
Qed.

Lemma mount_path_conflict_witness :
  let s := (outcome_of two_paths).1 in
  live (manager s) 1 1 /\ path (deref (manager s) 1%nat) = "/b" /\
  ~ keyEqual (deref (manager s) 1%nat) 0 3 (sortOptions cfg0) /\
  trackMount SprintfInt (manager s) 0 3 "/b" (sortOptions cfg0)
  = (manager s, (None, false, Some (ErrExistingMountpoint "/b"))) /\
  step SprintfInt s (CallMount 0 3 "/b" cfg0)
  = Some (System (manager s)
            (goroutines s ++ [Returned ExitTrack "" (Some (ErrExistingMountpoint "/b"))]),
          []).
Proof.
  intros s.
  assert (Hne : "/b" <> "") by discriminate.
  assert (Hlive : live (manager s) 1 1) by reflexivity.
  assert (Hp : path (deref (manager s) 1%nat) = "/b") by reflexivity.
  assert (Hnk : ~ keyEqual (deref (manager s) 1%nat) 0 3 (sortOptions cfg0)).
  { intros (_ & Hlun & _). vm_compute in Hlun. discriminate Hlun. }
  assert (Hbefore : forall k b', (k < 1)%nat -> live (manager s) k b' ->
            ~ keyEqual (deref (manager s) b') 0 3 (sortOptions cfg0)).
  { intros k b' Hk Hl. destruct k as [|k]; [|lia].
    vm_compute in Hl. injection Hl as <-.
    intros (_ & Hlun & _). vm_compute in Hlun. discriminate Hlun. }
  destruct (mount_path_conflict SprintfInt s 0 3 "/b" cfg0 1 1 Hne Hlive Hp Hnk Hbefore)
    as [Htrack Hstep].
  split; [exact Hlive|]. split; [exact Hp|]. split; [exact Hnk|].
  split; [exact Htrack|exact Hstep].
Defined.

(** The claim C6 as stated fails: in [two_paths] the path "/b" belongs
    to entry 1, whose key (0, 2, cfg0) is not the caller's (0, 1, cfg0);
    yet the call is not refused: the loop meets entry 0, which has the
    caller's key, first, increments its [refCount] and the caller
    returns the path of entry 0. *)
Lemma mount_path_conflict_counterexample :
  let s := (outcome_of two_paths).1 in
  reachable SprintfInt mountFmt0 s (outcome_of two_paths).2 /\
  live (manager s) 1 1 /\ path (deref (manager s) 1%nat) = "/b" /\
  ~ keyEqual (deref (manager s) 1%nat) 0 1 (sortOptions cfg0) /\
  refCount (deref (manager s) 0%nat) = 1 /\
  exists s',
    step SprintfInt s (CallMount 0 1 "/b" cfg0) = Some (s', [Ref 0%nat]) /\
    mounts (manager s') = mounts (manager s) /\
    refCount (deref (manager s') 0%nat) = 2 /\
    step SprintfInt s' (Select 2 None)
    = Some (set_frame s' 2 (Returned (ExitReady 0) "/a" None), []).
Proof.
  intros s. split; [reach two_paths|]. split; [reflexivity|]. split; [reflexivity|].
  split.
  { intros (_ & Hlun & _). vm_compute in Hlun. discriminate Hlun. }
  split; [reflexivity|].
  eexists. split; [vm_compute; reflexivity|].
  split; [reflexivity|]. split; [reflexivity|]. vm_compute. reflexivity.
Qed.

Lemma trackMount_lowest_free_slot_witness :
  let mm := manager (outcome_of with_tombstone).1 in
  let mm' := (trackMount SprintfInt mm 0 5 "" cfg0).1 in
  mounts mm = [None; Some 1%nat] /\
  trackMount SprintfInt mm 0 5 "" cfg0 = (mm', (Some 2%nat, false, None)) /\
  mounts mm' = [Some 2%nat; Some 1%nat] /\
  exists i : nat,
    index (deref mm' 2%nat) = Z.of_nat i /\ live mm' i 2 /\
    path (deref mm' 2%nat) = SprintfInt (mountFmt mm) (Z.of_nat i).
Proof.
  intros mm mm'.
  assert (Htrack : trackMount SprintfInt mm 0 5 "" cfg0 = (mm', (Some 2%nat, false, None)))
    by (vm_compute; reflexivity).
  destruct (trackMount_lowest_free_slot SprintfInt mm mm' 0 5 "" cfg0 2 Htrack)
    as (i & Hidx & Hlive & _ & Hgen & _).
  split; [reflexivity|]. split; [exact Htrack|]. split; [reflexivity|].
  exists i. split; [exact Hidx|]. split; [exact Hlive|]. apply Hgen. reflexivity.
Defined.

Lemma unmount_needs_owner_witness :
  let mm := manager (outcome_of two_paths).1 in
  wf mm /\
  (forall i b, live mm i b -> path (deref mm b) <> "/nowhere") /\
  unmountScan (heap mm) "/nowhere" None (mounts mm) = default None (last (mounts mm)) /\
  owns mm 0 0 "/a" /\
  exists mm' err calls,
    unmount mm "/a" None = Normal (mm', err, calls) /\
    refCount (deref mm' 0%nat) = uint (refCount (deref mm 0%nat) - 1).
Proof.
  intros mm.
  assert (Hwf : wf mm) by wf_by_computation.
  assert (Hnone : forall i b, live mm i b -> path (deref mm b) <> "/nowhere").
  { intros i b H. unfold live in H.
    do 2 (destruct i as [|i];
          [vm_compute in H; injection H as <-; vm_compute; discriminate|]).
    vm_compute in H. discriminate H. }
  assert (Hown : owns mm 0 0 "/a").
  { split; [reflexivity|]. split; [reflexivity|]. intros j b Hj. lia. }
  destruct (unmount_needs_owner mm "/nowhere" None Hwf) as [Hmiss _].
  destruct (Hmiss Hnone) as [Hscan _].
  destruct (unmount_needs_owner mm "/a" None Hwf) as [_ Hfound].
  destruct (Hfound 0%nat 0%nat Hown) as (_ & _ & mm' & err & calls & Hu & Hrc & _).
  split; [exact Hwf|]. split; [exact Hnone|]. split; [exact Hscan|].
  split; [exact Hown|]. exists mm', err, calls. split; [exact Hu|exact Hrc].
Defined.

(** * Further properties of package prot *)

Section registry_facts.

Import prot registry.

(** Below the type nibble [GetResponseIdentifier] changes nothing. *)
Lemma GetResponseIdentifier_low (R mask : Z) :
  0 <= R < 2 ^ 32 -> 0 <= mask < 2 ^ 28 ->
  Z.land (GetResponseIdentifier R) mask = Z.land R mask.
Proof.
  intros HR Hmask. rewrite GetResponseIdentifier_sum by exact HR.
  assert (Hm : mask = Z.land (Z.ones 28) mask).
  { rewrite Z.land_comm, Z.land_ones by lia. symmetry. apply Z.mod_small. exact Hmask. }
  rewrite Hm, !Z.land_assoc, !Z.land_ones by lia. f_equal.
  rewrite Z.add_comm. change (2 ^ 29) with (2 * 2 ^ 28).
  rewrite Z.mod_add by lia. apply Z.mod_mod. lia.
Qed.

(** X1.  The response identifier of a 32-bit identifier keeps its category,
    message id and version, depends on nothing but these 28 bits, and
    is its own response identifier. *)
Theorem GetResponseIdentifier_fields (R R' : Z) :
  0 <= R < 2 ^ 32 -> 0 <= R' < 2 ^ 32 ->
  Z.land (GetResponseIdentifier R) messageCategoryMask = Z.land R messageCategoryMask /\
  Z.land (GetResponseIdentifier R) messageIDMask = Z.land R messageIDMask /\
  Z.land (GetResponseIdentifier R) messageVersionMask = Z.land R messageVersionMask /\
  GetResponseIdentifier (GetResponseIdentifier R) = GetResponseIdentifier R /\
  (GetResponseIdentifier R = GetResponseIdentifier R' <->
   Z.land R (Z.lor messageCategoryMask (Z.lor messageIDMask messageVersionMask))
   = Z.land R' (Z.lor messageCategoryMask (Z.lor messageIDMask messageVersionMask))).
Proof.
  intros HR HR'.
  assert (Hlow : forall x, 0 <= x mod 2 ^ 28 < 2 ^ 28) by (intros; apply Z.mod_pos_bound; lia).
  split; [apply GetResponseIdentifier_low; [done|by compute]|].
  split; [apply GetResponseIdentifier_low; [done|by compute]|].
  split; [apply GetResponseIdentifier_low; [done|by compute]|].
  change (Z.lor messageCategoryMask (Z.lor messageIDMask messageVersionMask))
    with (Z.ones 28).
  rewrite !Z.land_ones by lia. split.
  - rewrite (GetResponseIdentifier_sum R) by done.
    pose proof (Hlow R). rewrite GetResponseIdentifier_sum by lia. f_equal.
    rewrite Z.add_comm. change (2 ^ 29) with (2 * 2 ^ 28).
    rewrite Z.mod_add by lia. apply Z.mod_mod. lia.
  - rewrite !GetResponseIdentifier_sum by done. lia.
Qed.

Lemma GetResponseIdentifier_fields_witness :
  0 <= ComputeSystemNotificationV1 < 2 ^ 32 /\
  0 <= ComputeSystemCreateV1 < 2 ^ 32 /\
  GetResponseIdentifier ComputeSystemNotificationV1
  = GetResponseIdentifier ComputeSystemCreateV1.
Proof.
  assert (H1 : 0 <= ComputeSystemNotificationV1 < 2 ^ 32) by (by compute).
  assert (H2 : 0 <= ComputeSystemCreateV1 < 2 ^ 32) by (by compute).
  split; [exact H1|]. split; [exact H2|].
  apply (GetResponseIdentifier_fields _ _ H1 H2). reflexivity.
Defined.

(** X2.  The response identifier of each request up to [DumpStacks] is the
    response constant declared for it, named after the request; the
    thirteenth request, [DeleteContainerState], has a response
    identifier without a constant, which [String] prints in decimal. *)
Theorem GetResponseIdentifier_registry :
  GetResponseIdentifier <$> take 12 requests = responses /\
  Forall (fun r => MessageIdentifier_String (GetResponseIdentifier r)
                   = responseName (MessageIdentifier_String r)) (take 12 requests) /\
  requests !! 12%nat = Some ComputeSystemDeleteContainerStateV1 /\
  (GetResponseIdentifier ComputeSystemDeleteContainerStateV1 ∉ named) /\
  MessageIdentifier_String (GetResponseIdentifier ComputeSystemDeleteContainerStateV1)
  = "537922817".
Proof.
  split; [reflexivity|]. split.
  - repeat constructor.
  - split; [reflexivity|]. split; [|reflexivity].
    intros H. apply list_elem_of_In in H. vm_compute in H.
    repeat (destruct H as [H|H]; [discriminate H|]). exact H.
Qed.

(** ** [String] tells identifiers apart *)

Lemma pretty_N_char_digit (y : N) :
  (48 <=? N_of_ascii (pretty_N_char y))%N && (N_of_ascii (pretty_N_char y) <=? 57)%N = true.
Proof. unfold pretty_N_char. by repeat case_match. Qed.

Lemma pretty_N_go_digitHead (x : N) :
  forall s, (0 < x)%N -> digitHead (pretty_N_go x s) = true.
Proof.
  induction (N.lt_wf_0 x) as [x _ IH]. intros s Hx.
  rewrite pretty_N_go_step by exact Hx.
  destruct (N.eq_0_gt_0_cases (x `div` 10)) as [Hd|Hd].
  - rewrite Hd, pretty_N_go_0. simpl. apply pretty_N_char_digit.
  - apply IH; [|exact Hd]. apply N.div_lt; [exact Hx|reflexivity].
Qed.

Lemma FormatUint10_digitHead (mi : Z) : digitHead (FormatUint10 mi) = true.
Proof.
  unfold FormatUint10, pretty, pretty_N.
  destruct (decide (Z.to_N mi = 0)%N) as [Hz|Hne]; [reflexivity|].
  apply pretty_N_go_digitHead. lia.
Qed.

Lemma String_cases (mi : Z) :
  In mi named \/ MessageIdentifier_String mi = FormatUint10 mi.
Proof.
  unfold MessageIdentifier_String.
  repeat
    match goal with
    | |- context [mi =? ?k] =>
        destruct (Z.eqb_spec mi k) as [->|?]; [left; vm_compute; tauto|]
    end.
  by right.
Qed.

Lemma named_names :
  NoDup (MessageIdentifier_String <$> named) /\
  Forall (fun mi => digitHead (MessageIdentifier_String mi) = false) named.
Proof.
  split.
  - apply (bool_decide_unpack _). vm_compute. exact I.
  - repeat constructor.
Qed.

(** X3.  [String] is injective: two identifiers with the same text are the
    same identifier, whether the text is a name or a number. *)
Theorem MessageIdentifier_String_inj (a b : Z) :
  0 <= a -> 0 <= b ->
  MessageIdentifier_String a = MessageIdentifier_String b -> a = b.
Proof.
  intros Ha Hb Heq. destruct named_names as [Hnodup Hletters].
  rewrite Forall_forall in Hletters.
  destruct (String_cases a) as [Hna|Hda]; destruct (String_cases b) as [Hnb|Hdb].
  - apply list_elem_of_In, list_elem_of_lookup in Hna, Hnb.
    destruct Hna as [i Hi]. destruct Hnb as [j Hj].
    assert (i = j) as ->; [|congruence].
    apply (NoDup_lookup _ i j (MessageIdentifier_String a) Hnodup).
    + by rewrite list_lookup_fmap, Hi.
    + by rewrite list_lookup_fmap, Hj, Heq.
  - exfalso. apply list_elem_of_In in Hna. specialize (Hletters a Hna).
    rewrite Heq, Hdb, FormatUint10_digitHead in Hletters. done.
  - exfalso. apply list_elem_of_In in Hnb. specialize (Hletters b Hnb).
    rewrite <- Heq, Hda, FormatUint10_digitHead in Hletters. done.
  - rewrite Hda, Hdb in Heq. unfold FormatUint10 in Heq.
    apply (inj pretty) in Heq. lia.
Qed.

Lemma MessageIdentifier_String_inj_witness :
  0 <= ComputeSystemCreateV1 /\
  MessageIdentifier_String ComputeSystemCreateV1 = MessageIdentifier_String 0x10100101 /\
  ComputeSystemCreateV1 = 0x10100101.
Proof.
  assert (H : 0 <= ComputeSystemCreateV1) by (by compute).
  split; [exact H|]. split; [reflexivity|].
  exact (MessageIdentifier_String_inj _ _ H H eq_refl).
Defined.

(** ** [SchemaVersion.Cmp] *)

(** X4.  [Cmp] returns 0 exactly on equal versions, and swapping the two
    versions negates the result. *)
Theorem Cmp_antisym (s v : SchemaVersion) :
  (Cmp s v = 0 <-> s = v) /\ Cmp v s = - Cmp s v /\
  (Cmp s v = -1 \/ Cmp s v = 0 \/ Cmp s v = 1).
Proof.
  destruct s as [a b], v as [c d]. unfold Cmp. simpl.
  destruct (Z.eqb_spec a c), (Z.eqb_spec c a), (Z.eqb_spec b d), (Z.eqb_spec d b),
    (Z.ltb_spec a c), (Z.ltb_spec c a), (Z.ltb_spec b d), (Z.ltb_spec d b);
    try lia; repeat split; try lia;
    try (intros Heq; inversion Heq; lia); intros _; f_equal; lia.
Qed.

(** X5.  [Cmp] is transitive: the order it reports is the lexicographic
    order on (Major, Minor). *)
Theorem Cmp_trans (a b c : SchemaVersion) :
  Cmp a b <= 0 -> Cmp b c <= 0 ->
  Cmp a c <= 0 /\ (Cmp a b = -1 \/ Cmp b c = -1 -> Cmp a c = -1).
Proof.
  destruct a as [a1 a2], b as [b1 b2], c as [c1 c2]. unfold Cmp. simpl.
  destruct (Z.eqb_spec a1 b1), (Z.eqb_spec b1 c1), (Z.eqb_spec a1 c1),
    (Z.eqb_spec a2 b2), (Z.eqb_spec b2 c2), (Z.eqb_spec a2 c2),
    (Z.ltb_spec a1 b1), (Z.ltb_spec b1 c1), (Z.ltb_spec a1 c1),
    (Z.ltb_spec a2 b2), (Z.ltb_spec b2 c2), (Z.ltb_spec a2 c2); lia.
Qed.

Lemma Cmp_trans_witness :
  Cmp (MkSchemaVersion 2 1) (MkSchemaVersion 2 5) <= 0 /\
  Cmp (MkSchemaVersion 2 5) (MkSchemaVersion 3 0) <= 0 /\
  Cmp (MkSchemaVersion 2 1) (MkSchemaVersion 3 0) = -1.
Proof.
  assert (H1 : Cmp (MkSchemaVersion 2 1) (MkSchemaVersion 2 5) <= 0) by (by compute).
  assert (H2 : Cmp (MkSchemaVersion 2 5) (MkSchemaVersion 3 0) <= 0) by (by compute).
  split; [exact H1|]. split; [exact H2|].
  apply (Cmp_trans _ _ _ H1 H2). left. reflexivity.
Defined.

End registry_facts.

Section decode_shapes.

Import prot.

Context {jsonError : Type} {record : settingsType -> Type}.
Variable unmarshalEnvelope : RawMessage -> jsonError + (MessageBase * option RawMessage).
Variable unmarshalRequest : RawMessage -> jsonError + (string * string * RawMessage).
Variable unmarshalSettings : forall t : settingsType, RawMessage -> jsonError + record t.
Variable names : resourceTypes.
Variable RequestTypeAdd : string.

(** X6.  [UnmarshalContainerModifySettings] returns one of three shapes: no
    message and an error, exactly when the envelope does not parse; a
    partial message and an error, where the message has the envelope's
    base fields and its [Request] still raw (or nil); or a complete
    message, whose [Request] is the decoded request, and no error.  It
    never returns a nil message without an error, nor a raw request
    without one. *)
Theorem UnmarshalContainerModifySettings_shapes (b : RawMessage) :
  match UnmarshalContainerModifySettings unmarshalEnvelope unmarshalRequest
          unmarshalSettings names RequestTypeAdd b with
  | (None, err) => err <> None /\ exists e, unmarshalEnvelope b = inl e
  | (Some m, err) =>
      exists base field,
        unmarshalEnvelope b = inr (base, field) /\ Base m = base /\
        match err with
        | Some _ =>
            Request m = match field with Some raw => RequestRaw raw | None => RequestNil end
        | None =>
            exists msr requestType raw,
              Request m = RequestParsed msr /\
              unmarshalRequest (default [] field) = inr (ResourceType msr, requestType, raw) /\
              RequestType msr
              = (if String.eqb requestType "" then RequestTypeAdd else requestType)
        end
  end.
Proof.
  unfold UnmarshalContainerModifySettings.
  destruct (unmarshalEnvelope b) as [e|[base field]]; [split; [done|by exists e]|].
  destruct (unmarshalRequest (default [] field)) as [e|[[resourceType requestType] raw]]
    eqn:Hreq; [by exists base, field|].
  repeat
    match goal with
    | |- context [String.eqb resourceType ?name] =>
        destruct (String.eqb resourceType name);
        [ match goal with
          | |- context [decodeCase _ _ _ ?rq ?rt ?rqt ?rw ?t ?msg] =>
              pose proof (decodeCase_cases unmarshalSettings rq rt rqt rw t msg) as Hcase;
              destruct (unmarshalSettings t rw); rewrite Hcase;
              exists base, field; (split; [done|split; [done|]]);
              first [ done | by eexists _, requestType, raw ]
          end
        | ]
    end.
  by exists base, field.
Qed.

End decode_shapes.

(** * Further properties of package scsi *)

Section options_facts.

Import scsi.

Lemma string_compare_le_trans (a : string) :
  forall b c, String.compare a b <> Gt -> String.compare b c <> Gt ->
  String.compare a c <> Gt.
Proof.
  induction a as [|x a IH]; intros [|y b] [|z c]; simpl; try done.
  unfold Ascii.compare.
  destruct (N.compare_spec (N_of_ascii x) (N_of_ascii y)) as [Hxy|Hxy|Hxy];
    destruct (N.compare_spec (N_of_ascii y) (N_of_ascii z)) as [Hyz|Hyz|Hyz];
    destruct (N.compare_spec (N_of_ascii x) (N_of_ascii z)) as [Hxz|Hxz|Hxz];
    try done; try lia.
  apply IH.
Qed.

Lemma string_leb_trans : Transitive (fun a b => String.leb a b = true).
Proof.
  intros a b c. unfold String.leb.
  pose proof (string_compare_le_trans a b c) as H.
  destruct (String.compare a b), (String.compare b c), (String.compare a c);
    try done; intros; exfalso; by apply H.
Qed.

Lemma string_leb_antisym : AntiSymm (=) (fun a b => String.leb a b = true).
Proof. intros a b. apply String.leb_antisym. Qed.

Lemma sortStrings_unique (l1 l2 : list string) :
  l1 ≡ₚ l2 <-> sortStrings l1 = sortStrings l2.
Proof.
  split.
  - intros Hp.
    apply (@Sorted_unique _ _ string_leb_trans string_leb_antisym);
      [apply sortStrings_sorted..|].
    by rewrite !sortStrings_perm.
  - intros Heq. by rewrite <- (sortStrings_perm l1), <- (sortStrings_perm l2), Heq.
Qed.

(** X7.  The normalisation [mount] applies before it compares configurations
    identifies exactly the configurations that agree on every field but
    the order of their options; a nil options slice is identified with
    nil only.  Normalising twice changes nothing. *)
Theorem sortOptions_order_only (c1 c2 : mountConfig) :
  (sortOptions c1 = sortOptions c2 <->
   partition c1 = partition c2 /\ readOnly c1 = readOnly c2 /\
   encrypted c1 = encrypted c2 /\ blockDev c1 = blockDev c2 /\
   ensureFilesystem c1 = ensureFilesystem c2 /\ filesystem c1 = filesystem c2 /\
   match options c1, options c2 with
   | None, None => True
   | Some l1, Some l2 => l1 ≡ₚ l2
   | _, _ => False
   end) /\
  sortOptions (sortOptions c1) = sortOptions c1.
Proof.
  destruct c1 as [p1 r1 e1 b1 o1 f1 s1], c2 as [p2 r2 e2 b2 o2 f2 s2].
  unfold sortOptions. simpl. split; [split|].
  - intros H. inversion H as [[Hp Hr He Hb Ho Hf Hs]].
    repeat split; try done.
    destruct o1 as [l1|], o2 as [l2|]; simpl in Ho; try done.
    apply sortStrings_unique. by inversion Ho.
  - intros (-> & -> & -> & -> & -> & -> & Ho).
    destruct o1 as [l1|], o2 as [l2|]; simpl; try done.
    apply sortStrings_unique in Ho. by rewrite Ho.
  - f_equal. destruct o1 as [l1|]; simpl; [|done]. f_equal.
    apply sortStrings_unique. apply sortStrings_perm.
Qed.

End options_facts.

Section scsi_more.

Import scsi.

Variable Sprintf : string -> Z -> string.

(** ** What one action does to the manager *)

Lemma step_manager (s s' : system) (act : action) (ls : list label) :
  step Sprintf s act = Some (s', ls) ->
  mountFmt (manager s') = mountFmt (manager s) /\
  (shrinks (manager s) (manager s') \/
   (exists a err,
      waitCh (deref (manager s) a) = ChanOpen /\
      manager s' = store (manager s) a (set_ready (deref (manager s) a) err)) \/
   (exists controller_ lun_ path_ c (i : nat) (mounts' : list (option nat)),
      (forall k b, live (manager s) k b ->
         ~ decisive (heap (manager s)) controller_ lun_ path_ (sortOptions c) b) /\
      ((i = length (mounts (manager s)) /\
        (forall j, mounts (manager s) !! j <> Some None) /\
        mounts' = mounts (manager s) ++ [Some (length (heap (manager s)))]) \/
       (mounts (manager s) !! i = Some None /\
        (forall j, (j < i)%nat -> mounts (manager s) !! j <> Some None) /\
        mounts' = <[i := Some (length (heap (manager s)))]> (mounts (manager s)))) /\
      manager s'
      = MountManager
          (heap (manager s) ++
             [Mount (if String.eqb path_ "" then Sprintf (mountFmt (manager s)) (Z.of_nat i)
                     else path_)
                (Z.of_nat i) controller_ lun_ (sortOptions c) None ChanOpen 1])
          mounts' (mountFmt (manager s)))).
Proof.
  intros Hstep.
  destruct act as [controller_ lun_ path_ c|path_ res|g res|g|g|g cancelled];
    simpl in Hstep.
  - unfold mount_track in Hstep.
    pose proof (trackMount_cases Sprintf (manager s) controller_ lun_ path_ (sortOptions c))
      as Hcases.
    pose proof (trackScan_spec Sprintf (heap (manager s)) controller_ lun_ path_ (sortOptions c)
                  (mounts (manager s)) 0 (-1) ltac:(lia)) as Hspec.
    destruct (trackScan (heap (manager s)) controller_ lun_ path_ (sortOptions c) 0 (-1)
                (mounts (manager s))) as [a| |freeIndex].
    + rewrite Hcases in Hstep. inversion Hstep; subst s' ls.
      split; [done|]. left. apply shrinks_store_refCount.
    + rewrite Hcases in Hstep. inversion Hstep; subst s' ls.
      split; [done|]. left. apply shrinks_refl.
    + destruct Hspec as [Hall _]. destruct Hcases as (i & Hfree & Heq).
      rewrite Heq in Hstep. inversion Hstep; subst s' ls.
      split; [done|]. right. right.
      exists controller_, lun_, path_, c, i.
      eexists. split; [exact Hall|]. split; [|reflexivity].
      destruct Hfree as [(-> & -> & Hnone)|(-> & Hi & Hbefore)].
      * left. done.
      * right. destruct (Z.of_nat i =? -1) eqn:Hi1; [apply Z.eqb_eq in Hi1; lia|]. done.
  - destruct (unmountScan (heap (manager s)) path_ None (mounts (manager s))) as [a|];
      [|done].
    destruct (unmount (manager s) path_ res) as [[[mm' err] calls]|] eqn:Hu; [|done].
    inversion Hstep; subst s' ls. pose proof (unmount_shrinks _ _ _ _ _ _ Hu) as Hs.
    split; [|by left]. clear -Hu. unfold unmount in Hu.
    destruct (unmountScan _ _ _ _) as [a|]; [|done].
    destruct (0 <? _); [by inversion Hu|].
    destruct res; [by inversion Hu|].
    destruct (untrackMount _ a) as [mm2|] eqn:Hun; [|done].
    inversion Hu; subst. apply untrackMount_shrinks in Hun.
    by destruct Hun as (_ & -> & _).
  - destruct (goroutines s !! g) as [[| a controller_ lun_ c | | |]|]; try done.
    inversion Hstep; subst s' ls. split; [done|]. left. apply shrinks_refl.
  - destruct (goroutines s !! g) as [[| | a ret err | |]|]; try done.
    unfold mount_defer_untrack in Hstep.
    destruct (untrackMount (manager s) a) as [mm'|] eqn:Hu; [|done].
    inversion Hstep; subst s' ls. apply untrackMount_shrinks in Hu.
    destruct Hu as (Hs & Heq & _). split; [by rewrite Heq|by left].
  - destruct (goroutines s !! g) as [[| | | a ret err |]|]; try done.
    unfold mount_defer_publish in Hstep.
    destruct (waitCh (deref (manager s) a)) eqn:Hw; [|done].
    inversion Hstep; subst s' ls. split; [done|]. right. left. by exists a, err.
  - destruct (goroutines s !! g) as [[a | | | |]|]; try done.
    destruct (mount_select (manager s) a cancelled) as [f|]; [|done].
    inversion Hstep; subst s' ls. split; [done|]. left. apply shrinks_refl.
Qed.

(** Within the heap of [s], an action changes nothing of an entry but
    [refCount], [waitErr] and [waitCh]; a closed channel stays closed
    with its error; an entry that is in no slot stays so. *)
Lemma step_entries (s s' : system) (act : action) (ls : list label) :
  step Sprintf s act = Some (s', ls) ->
  (length (heap (manager s)) <= length (heap (manager s')))%nat /\
  (length (mounts (manager s)) <= length (mounts (manager s')))%nat /\
  mountFmt (manager s') = mountFmt (manager s) /\
  forall a, (a < length (heap (manager s)))%nat ->
    path (deref (manager s') a) = path (deref (manager s) a) /\
    index (deref (manager s') a) = index (deref (manager s) a) /\
    controller (deref (manager s') a) = controller (deref (manager s) a) /\
    lun (deref (manager s') a) = lun (deref (manager s) a) /\
    config (deref (manager s') a) = config (deref (manager s) a) /\
    (waitCh (deref (manager s) a) = ChanClosed ->
     waitCh (deref (manager s') a) = ChanClosed /\
     waitErr (deref (manager s') a) = waitErr (deref (manager s) a)) /\
    (tracked (manager s') a -> tracked (manager s) a).
Proof.
  intros Hstep. destruct (step_manager _ _ _ _ Hstep) as [Hfmt Hcases].
  destruct Hcases as [Hs|[(a0 & err & Hopen & ->)|
                          (controller_ & lun_ & path_ & c & i & mounts' & _ & Hslot & ->)]].
  - pose proof (fun a => shrinks_fields _ _ a Hs) as Hf.
    destruct Hs as (Hh & Hm & _ & Hl).
    split; [lia|]. split; [lia|]. split; [done|]. intros a Ha.
    destruct (Hf a) as (-> & -> & -> & -> & -> & -> & -> & _).
    repeat split; try done. intros [k Hk]. exists k. by apply Hl.
  - rewrite length_heap_store. split; [lia|]. split; [done|]. split; [done|].
    intros a Ha. destruct (decide (a = a0)) as [->|Hne].
    + rewrite deref_store_eq by done. simpl. do 5 (split; [done|]).
      split; [intros Hcl; congruence|done].
    + rewrite deref_store_ne by done. done.
  - cbn [heap mounts manager]. rewrite length_app. simpl.
    split; [lia|]. split.
    { destruct Hslot as [(_ & _ & ->)|(_ & _ & ->)];
        [rewrite length_app; simpl; lia|by rewrite length_insert]. }
    split; [done|]. intros a Ha.
    assert (Hd : deref
                   (MountManager
                      (heap (manager s) ++
                         [Mount (if String.eqb path_ ""
                                 then Sprintf (mountFmt (manager s)) (Z.of_nat i)
                                 else path_)
                            (Z.of_nat i) controller_ lun_ (sortOptions c) None ChanOpen 1])
                      mounts' (mountFmt (manager s))) a
                 = deref (manager s) a).
    { unfold deref. simpl. by apply lookup_total_app_l. }
    rewrite Hd. repeat split; try done.
    intros [k Hk]. unfold live in Hk. simpl in Hk. exists k. unfold live.
    destruct Hslot as [(_ & _ & ->)|(_ & _ & ->)].
    + apply lookup_snoc_Some in Hk. destruct Hk as [[_ Hk]|[_ Hk]]; [done|].
      inversion Hk. lia.
    + apply list_lookup_insert_Some in Hk. destruct Hk as [(_ & Hk & _)|[_ Hk]]; [|done].
      inversion Hk. lia.
Qed.

(** X8.  Along any schedule the table and the heap only grow, and an entry
    keeps the path, the index and the key it was created with: no
    method of the manager assigns these fields after [trackMount] has
    filled them in.  (The configuration is the value the caller's
    pointer had once [mount] had sorted its options; callers are taken
    not to write to it afterwards.) *)
Theorem entries_are_stable (s s' : system) (acts : list action) (tr : list label) :
  run Sprintf s acts = Some (s', tr) ->
  (length (heap (manager s)) <= length (heap (manager s')))%nat /\
  (length (mounts (manager s)) <= length (mounts (manager s')))%nat /\
  mountFmt (manager s') = mountFmt (manager s) /\
  forall a, (a < length (heap (manager s)))%nat ->
    path (deref (manager s') a) = path (deref (manager s) a) /\
    index (deref (manager s') a) = index (deref (manager s) a) /\
    controller (deref (manager s') a) = controller (deref (manager s) a) /\
    lun (deref (manager s') a) = lun (deref (manager s) a) /\
    config (deref (manager s') a) = config (deref (manager s) a).
Proof.
  revert s tr. induction acts as [|act acts IH]; intros s tr Hrun; simpl in Hrun.
  - by inversion Hrun; subst.
  - destruct (step Sprintf s act) as [[s1 ls]|] eqn:Hstep; [|done].
    destruct (run Sprintf s1 acts) as [[s2 tr2]|] eqn:Hrest; [|done].
    inversion Hrun; subst.
    destruct (step_entries _ _ _ _ Hstep) as (H1 & H2 & H3 & H4).
    destruct (IH _ _ Hrest) as (H1' & H2' & H3' & H4').
    split; [lia|]. split; [lia|]. split; [congruence|]. intros a Ha.
    destruct (H4 a Ha) as (E1 & E2 & E3 & E4 & E5 & _).
    destruct (H4' a ltac:(lia)) as (F1 & F2 & F3 & F4 & F5).
    repeat split; congruence.
Qed.

(** X9.  An entry of the heap that is in no slot of the table is never in
    the table again: [untrackMount] is final. *)
Theorem untracked_is_final (s s' : system) (acts : list action) (tr : list label)
    (a : nat) :
  run Sprintf s acts = Some (s', tr) ->
  (a < length (heap (manager s)))%nat ->
  ~ tracked (manager s) a -> ~ tracked (manager s') a.
Proof.
  revert s tr. induction acts as [|act acts IH]; intros s tr Hrun Ha Hun; simpl in Hrun.
  - by inversion Hrun; subst.
  - destruct (step Sprintf s act) as [[s1 ls]|] eqn:Hstep; [|done].
    destruct (run Sprintf s1 acts) as [[s2 tr2]|] eqn:Hrest; [|done].
    inversion Hrun; subst.
    destruct (step_entries _ _ _ _ Hstep) as (H1 & _ & _ & H4).
    apply (IH _ _ Hrest); [lia|]. intros Ht. apply Hun. by apply (H4 a Ha).
Qed.

(** X10.  Readiness is published once: after [waitCh] is closed it stays
    closed, and [waitErr] and the path, hence the outcome every waiter
    reads, never change. *)
Theorem readiness_is_single_shot (s s' : system) (acts : list action) (tr : list label)
    (a : nat) :
  run Sprintf s acts = Some (s', tr) ->
  waitCh (deref (manager s) a) = ChanClosed ->
  waitCh (deref (manager s') a) = ChanClosed /\
  waitErr (deref (manager s') a) = waitErr (deref (manager s) a) /\
  result (deref (manager s') a) = result (deref (manager s) a).
Proof.
  revert s tr. induction acts as [|act acts IH]; intros s tr Hrun Hcl; simpl in Hrun.
  - by inversion Hrun; subst.
  - destruct (step Sprintf s act) as [[s1 ls]|] eqn:Hstep; [|done].
    destruct (run Sprintf s1 acts) as [[s2 tr2]|] eqn:Hrest; [|done].
    inversion Hrun; subst.
    assert (Ha : (a < length (heap (manager s)))%nat).
    { destruct (decide (a < length (heap (manager s)))%nat) as [|Hge]; [done|].
      rewrite deref_beyond in Hcl by lia. done. }
    destruct (step_entries _ _ _ _ Hstep) as (_ & _ & _ & H4).
    destruct (H4 a Ha) as (Hp & _ & _ & _ & _ & Hkeep & _).
    destruct (Hkeep Hcl) as [Hcl1 He1].
    destruct (IH _ _ Hrest Hcl1) as (Hcl2 & He2 & Hr2).
    split; [done|]. split; [congruence|].
    rewrite Hr2. unfold result. by rewrite He1, Hp.
Qed.

End scsi_more.

(** * Invariants of the mount table *)

Section scsi_invariants.

Import scsi.

Variable Sprintf : string -> Z -> string.

Lemma sortOptions_idemp (c : mountConfig) : sortOptions (sortOptions c) = sortOptions c.
Proof.
  destruct c as [p r e b o f fs]. unfold sortOptions. simpl. f_equal.
  destruct o as [l|]; simpl; [|done]. f_equal.
  apply sortStrings_unique. apply sortStrings_perm.
Qed.

(** The mounter invocations of one action, and the pioneers it starts. *)
Lemma step_calls (s s' : system) (act : action) (ls : list label) :
  step Sprintf s act = Some (s', ls) ->
  (forall a call res, MountCall a call res ∈ ls ->
     (exists g, goroutines s !! g
        = Some (InMounter a (call_controller call) (call_lun call) (call_config call))) /\
     call_path call = path (deref (manager s) a)) /\
  (forall a call res, UnmountCall a call res ∈ ls ->
     tracked (manager s) a /\
     call = MounterCall (controller (deref (manager s) a)) (lun (deref (manager s) a))
              (path (deref (manager s) a)) (config (deref (manager s) a))) /\
  (forall g a controller_ lun_ c,
     goroutines s' !! g = Some (InMounter a controller_ lun_ c) ->
     goroutines s !! g = Some (InMounter a controller_ lun_ c) \/
     (a = length (heap (manager s)) /\
      keyEqual (deref (manager s') a) controller_ lun_ c /\
      sortOptions c = c)).
Proof.
  intros Hstep.
  destruct act as [controller_ lun_ path_ c|path_ res|g0 res|g0|g0|g0 cancelled];
    simpl in Hstep.
  - pose proof (mount_track_cases Sprintf (manager s) controller_ lun_ path_ c) as Hcases.
    destruct (trackScan (heap (manager s)) controller_ lun_ path_ (sortOptions c) 0 (-1)
                (mounts (manager s))) as [a| |freeIndex].
    + destruct Hcases as [_ Heq]. rewrite Heq in Hstep. inversion Hstep; subst s' ls.
      split; [|split].
      * intros a' call res Hin. apply list_elem_of_singleton in Hin. done.
      * intros a' call res Hin. apply list_elem_of_singleton in Hin. done.
      * intros g b ctl l c' Hg. cbn [goroutines] in Hg.
        apply lookup_snoc_Some in Hg. destruct Hg as [[_ Hg]|[_ Hg]]; [by left|done].
    + rewrite Hcases in Hstep. inversion Hstep; subst s' ls.
      split; [|split].
      * intros a' call res Hin. by apply elem_of_nil in Hin.
      * intros a' call res Hin. by apply elem_of_nil in Hin.
      * intros g b ctl l c' Hg. cbn [goroutines] in Hg.
        apply lookup_snoc_Some in Hg. destruct Hg as [[_ Hg]|[_ Hg]]; [by left|done].
    + destruct Hcases as (_ & i & p & mounts' & _ & Heq).
      rewrite Heq in Hstep. inversion Hstep; subst s' ls.
      split; [|split].
      * intros a' call res Hin. apply list_elem_of_singleton in Hin. done.
      * intros a' call res Hin. apply list_elem_of_singleton in Hin. done.
      * intros g b ctl l c' Hg. cbn [goroutines] in Hg.
        apply lookup_snoc_Some in Hg. destruct Hg as [[_ Hg]|[_ Hg]]; [by left|].
        inversion Hg; subst. right. split; [done|]. split; [|apply sortOptions_idemp].
        unfold deref. cbn [manager heap]. by rewrite list_lookup_total_middle.
  - destruct (unmountScan (heap (manager s)) path_ None (mounts (manager s))) as [a|] eqn:Hscan;
      [|done].
    destruct (unmount (manager s) path_ res) as [[[mm' err] calls]|] eqn:Hu; [|done].
    inversion Hstep; subst s' ls.
    split; [|split].
    + intros a' call res' Hin. apply elem_of_cons in Hin. destruct Hin as [Hin|Hin]; [done|].
      apply list_elem_of_fmap in Hin. by destruct Hin as (? & ? & _).
    + intros a' call res' Hin. apply elem_of_cons in Hin. destruct Hin as [Hin|Hin]; [done|].
      apply list_elem_of_fmap in Hin. destruct Hin as (call' & Heq & Hin).
      inversion Heq; subst a' call' res'.
      split.
      { apply unmountScan_live in Hscan. destruct Hscan as [|[k Hk]]; [done|]. by exists k. }
      unfold unmount in Hu. rewrite Hscan in Hu.
      destruct (0 <? _).
      { inversion Hu; subst. by apply elem_of_nil in Hin. }
      destruct res as [e|].
      { inversion Hu; subst. by apply list_elem_of_singleton in Hin. }
      destruct (untrackMount _ a); [|done].
      inversion Hu; subst. by apply list_elem_of_singleton in Hin.
    + intros g b ctl l c' Hg. by left.
  - destruct (goroutines s !! g0) as [[| b controller_ lun_ c | | |]|] eqn:Hg0; try done.
    inversion Hstep; subst s' ls. split; [|split].
    + intros a' call res' Hin. apply list_elem_of_singleton in Hin. inversion Hin; subst.
      simpl. split; [by exists g0|done].
    + intros a' call res' Hin. apply list_elem_of_singleton in Hin. done.
    + intros g b' ctl l c' Hg. left. cbn [goroutines set_frame] in Hg.
      apply list_lookup_insert_Some in Hg. destruct Hg as [(_ & Hg & _)|[_ Hg]]; [|done].
      by destruct res.
  - destruct (goroutines s !! g0) as [[| | b ret err | |]|] eqn:Hg0; try done.
    destruct (mount_defer_untrack _ _); [|done].
    inversion Hstep; subst s' ls. split; [|split].
    + intros a' call res' Hin. by apply elem_of_nil in Hin.
    + intros a' call res' Hin. by apply elem_of_nil in Hin.
    + intros g b' ctl l c' Hg. left. cbn [goroutines] in Hg.
      apply list_lookup_insert_Some in Hg. destruct Hg as [(_ & Hg & _)|[_ Hg]]; done.
  - destruct (goroutines s !! g0) as [[| | | b ret err |]|] eqn:Hg0; try done.
    destruct (mount_defer_publish _ _ _); [|done].
    inversion Hstep; subst s' ls. split; [|split].
    + intros a' call res' Hin. by apply elem_of_nil in Hin.
    + intros a' call res' Hin. by apply elem_of_nil in Hin.
    + intros g b' ctl l c' Hg. left. cbn [goroutines] in Hg.
      apply list_lookup_insert_Some in Hg. destruct Hg as [(_ & Hg & _)|[_ Hg]]; done.
  - destruct (goroutines s !! g0) as [[b | | | |]|] eqn:Hg0; try done.
    destruct (mount_select (manager s) b cancelled) as [f|] eqn:Hsel; [|done].
    inversion Hstep; subst s' ls. split; [|split].
    + intros a' call res' Hin. by apply elem_of_nil in Hin.
    + intros a' call res' Hin. by apply elem_of_nil in Hin.
    + intros g b' ctl l c' Hg. left. cbn [goroutines set_frame] in Hg.
      apply list_lookup_insert_Some in Hg. destruct Hg as [(_ & Hg & _)|[_ Hg]]; [|done].
      subst f. unfold mount_select in Hsel. destruct cancelled; [done|].
      destruct (waitCh _); [done|]. by destruct (waitErr _).
Qed.

(** What every schedule keeps true of keys and of mounter invocations. *)
Lemma reachable_calls (mountFmt_ : string) (s : system) (tr : list label) :
  reachable Sprintf mountFmt_ s tr ->
  (forall a, (a < length (heap (manager s)))%nat ->
     sortOptions (config (deref (manager s) a)) = config (deref (manager s) a)) /\
  (forall g a controller_ lun_ c,
     goroutines s !! g = Some (InMounter a controller_ lun_ c) ->
     keyEqual (deref (manager s) a) controller_ lun_ c) /\
  (forall a call res, MountCall a call res ∈ tr \/ UnmountCall a call res ∈ tr ->
     (a < length (heap (manager s)))%nat /\
     call = MounterCall (controller (deref (manager s) a)) (lun (deref (manager s) a))
              (path (deref (manager s) a)) (config (deref (manager s) a))).
Proof.
  revert s tr. apply (reachable_ind Sprintf mountFmt_).
  - split; [|split].
    + simpl. intros a Ha. lia.
    + intros g a ctl l c Hg. done.
    + intros a call res [Hin|Hin]; by apply elem_of_nil in Hin.
  - intros s tr act s' ls Hreach (IH1 & IH2 & IH3) Hstep.
    pose proof (reachable_consistent Sprintf _ _ _ Hreach) as Hc.
    destruct (step_entries Sprintf _ _ _ _ Hstep) as (Hlen & _ & _ & Hstable).
    destruct (step_calls _ _ _ _ Hstep) as (Hmount & Hunmount & Hframes).
    assert (Hold : forall a call,
              (a < length (heap (manager s)))%nat ->
              call = MounterCall (controller (deref (manager s) a))
                       (lun (deref (manager s) a)) (path (deref (manager s) a))
                       (config (deref (manager s) a)) ->
              (a < length (heap (manager s')))%nat /\
              call = MounterCall (controller (deref (manager s') a))
                       (lun (deref (manager s') a)) (path (deref (manager s') a))
                       (config (deref (manager s') a))).
    { intros a call Ha ->. split; [lia|].
      destruct (Hstable a Ha) as (-> & _ & -> & -> & -> & _). done. }
    split; [|split].
    + intros a Ha.
      destruct (decide (a < length (heap (manager s)))%nat) as [Hlt|Hge].
      { destruct (Hstable a Hlt) as (_ & _ & _ & _ & -> & _). by apply IH1. }
      destruct (step_manager Sprintf _ _ _ _ Hstep) as [_ Hcases].
      destruct Hcases as [Hs|[(a0 & err & _ & Heq)|
                              (ctl & l & p & c & i & mounts' & _ & _ & Heq)]].
      * destruct Hs as (Hh & _). lia.
      * rewrite Heq, length_heap_store in Ha. lia.
      * rewrite Heq in Ha |- *. cbn [heap] in Ha. rewrite length_app in Ha. simpl in Ha.
        assert (a = length (heap (manager s))) as -> by lia.
        unfold deref. cbn [heap]. rewrite list_lookup_total_middle by done.
        apply sortOptions_idemp.
    + intros g a ctl l c Hg.
      destruct (Hframes _ _ _ _ _ Hg) as [Hg'|(_ & Hkey & _)]; [|done].
      pose proof (IH2 _ _ _ _ _ Hg') as (Hk1 & Hk2 & Hk3).
      assert (Ha : (a < length (heap (manager s)))%nat)
        by (by eapply (c_frames _ Hc); [exact Hg'|]).
      destruct (Hstable a Ha) as (_ & _ & E3 & E4 & E5 & _).
      unfold keyEqual. by rewrite E3, E4, E5.
    + intros a call res Hin.
      assert (Hcase : (MountCall a call res ∈ tr \/ UnmountCall a call res ∈ tr) \/
                      MountCall a call res ∈ ls \/ UnmountCall a call res ∈ ls).
      { destruct Hin as [Hin|Hin]; apply elem_of_app in Hin; tauto. }
      clear Hin. destruct Hcase as [Hin|[Hin|Hin]].
      * destruct (IH3 _ _ _ Hin) as [Ha Hcall]. by apply Hold.
      * destruct (Hmount _ _ _ Hin) as [[g Hg] Hpath].
        pose proof (IH2 _ _ _ _ _ Hg) as (Hk1 & Hk2 & Hk3).
        apply Hold; [by eapply (c_frames _ Hc); [exact Hg|]|].
        destruct call as [cc cl cp ccfg]. simpl in *. by subst.
      * destruct (Hunmount _ _ _ Hin) as [[k Hk] Hcall].
        apply Hold; [|done]. by apply (c_wf _ Hc) in Hk as [? _].
Qed.

(** X11.  The mounter is always invoked with the fields of the entry it is
    invoked for: the key the entry was created with, options sorted,
    and the path of the entry.  Hence [mounter.unmount] gets the
    arguments [mounter.mount] got for the same entry. *)
Theorem mounter_sees_entry (mountFmt_ : string) (s : system) (tr : list label) :
  reachable Sprintf mountFmt_ s tr ->
  (forall a call res, MountCall a call res ∈ tr \/ UnmountCall a call res ∈ tr ->
     exists m, heap (manager s) !! a = Some m /\
       call = MounterCall (controller m) (lun m) (path m) (config m) /\
       sortOptions (config m) = config m) /\
  (forall a call res call' res',
     MountCall a call res ∈ tr -> UnmountCall a call' res' ∈ tr -> call' = call) /\
  (forall a call res call' res',
     MountCall a call res ∈ tr -> MountCall a call' res' ∈ tr -> call' = call).
Proof.
  intros Hreach. destruct (reachable_calls _ _ _ Hreach) as (Hsorted & _ & Hcalls).
  split; [|split].
  - intros a call res Hin. destruct (Hcalls _ _ _ Hin) as [Ha ->].
    exists (deref (manager s) a). split; [|split; [done|by apply Hsorted]].
    unfold deref. rewrite list_lookup_total_alt.
    destruct (heap (manager s) !! a) as [m|] eqn:Hm; [done|].
    apply lookup_ge_None in Hm. lia.
  - intros a call res call' res' H1 H2.
    destruct (Hcalls a call res (or_introl H1)) as [_ ->].
    by destruct (Hcalls a call' res' (or_intror H2)) as [_ ->].
  - intros a call res call' res' H1 H2.
    destruct (Hcalls a call res (or_introl H1)) as [_ ->].
    by destruct (Hcalls a call' res' (or_introl H2)) as [_ ->].
Qed.

(** What every schedule keeps true of paths. *)
Lemma reachable_paths (mountFmt_ : string) (s : system) (tr : list label) :
  reachable Sprintf mountFmt_ s tr ->
  mountFmt (manager s) = mountFmt_ /\
  forall a b, tracked (manager s) a -> tracked (manager s) b -> (a < b)%nat ->
    path (deref (manager s) a) = path (deref (manager s) b) ->
    path (deref (manager s) b) = Sprintf mountFmt_ (index (deref (manager s) b)).
Proof.
  revert s tr. apply (reachable_ind Sprintf mountFmt_).
  - split; [done|]. intros a b [k Hk] _ _ _. done.
  - intros s tr act s' ls Hreach [IHfmt IH] Hstep.
    pose proof (reachable_consistent Sprintf _ _ _ Hreach) as Hc.
    destruct (step_entries Sprintf _ _ _ _ Hstep) as (Hlen & _ & Hfmt & Hstable).
    split; [congruence|]. intros a b Hta Htb Hab Hpath.
    pose proof (step_consistent Sprintf _ _ _ _ Hc Hstep) as Hc'.
    assert (Hb' : (b < length (heap (manager s')))%nat).
    { destruct Htb as [k Hk]. by apply (c_wf _ Hc') in Hk as [? _]. }
    destruct (decide (b < length (heap (manager s)))%nat) as [Hb|Hb].
    + destruct (Hstable a ltac:(lia)) as (Ea & _ & _ & _ & _ & _ & Hka).
      destruct (Hstable b Hb) as (Eb & Ei & _ & _ & _ & _ & Hkb).
      rewrite Eb, Ei. apply (IH a b); [by apply Hka|by apply Hkb|done|congruence].
    + destruct (step_manager Sprintf _ _ _ _ Hstep) as [_ Hcases].
      destruct Hcases as [Hs|[(a0 & err & _ & Heq)|
                              (ctl & l & p & c & i & mounts' & Hall & _ & Heq)]].
      * destruct Hs as (Hh & _). lia.
      * rewrite Heq, length_heap_store in Hb'. lia.
      * pose proof Hb' as Hb2. rewrite Heq in Hb2. cbn [heap] in Hb2.
        rewrite length_app in Hb2. simpl in Hb2.
        assert (b = length (heap (manager s))) as -> by lia.
        destruct (Hstable a Hab) as (Ea & _ & _ & _ & _ & _ & Hka).
        destruct (Hka Hta) as [k Hk].
        assert (Hnew : deref (manager s') (length (heap (manager s)))
                       = Mount (if String.eqb p "" then Sprintf (mountFmt (manager s)) (Z.of_nat i)
                                else p)
                           (Z.of_nat i) ctl l (sortOptions c) None ChanOpen 1).
        { rewrite Heq. unfold deref. cbn [heap]. by rewrite list_lookup_total_middle. }
        rewrite Hnew in Hpath |- *. simpl in Hpath |- *.
        destruct (String.eqb p "") eqn:Hp; [by rewrite IHfmt|].
        exfalso. apply (Hall _ _ Hk). right. apply String.eqb_neq in Hp.
        split; [done|]. unfold deref in Ea, Hpath. congruence.
Qed.

(** X12.  In every state a schedule can produce, the table is sound: a live
    entry is allocated and knows the slot it is in, so that no entry is
    in two slots; its options are stored sorted; and no two live entries
    are for the same controller, lun and configuration, not even up to
    the order of the options. *)
Theorem table_integrity (mountFmt_ : string) (s : system) (tr : list label) :
  reachable Sprintf mountFmt_ s tr ->
  mountFmt (manager s) = mountFmt_ /\
  (forall i a, live (manager s) i a ->
     exists m, heap (manager s) !! a = Some m /\ index m = Z.of_nat i /\
       sortOptions (config m) = config m) /\
  (forall i j a, live (manager s) i a -> live (manager s) j a -> i = j) /\
  (forall i j a b, live (manager s) i a -> live (manager s) j b ->
     controller (deref (manager s) a) = controller (deref (manager s) b) ->
     lun (deref (manager s) a) = lun (deref (manager s) b) ->
     sortOptions (config (deref (manager s) a)) = sortOptions (config (deref (manager s) b)) ->
     i = j /\ a = b).
Proof.
  intros Hreach.
  pose proof (reachable_consistent Sprintf _ _ _ Hreach) as Hc.
  destruct (reachable_calls _ _ _ Hreach) as (Hsorted & _ & _).
  destruct (reachable_paths _ _ _ Hreach) as [Hfmt _].
  split; [done|]. split; [|split].
  - intros i a Hl. destruct (c_wf _ Hc _ _ Hl) as [Ha Hi].
    exists (deref (manager s) a). split; [|split; [done|by apply Hsorted]].
    unfold deref. rewrite list_lookup_total_alt.
    destruct (heap (manager s) !! a) as [m|] eqn:Hm; [done|].
    apply lookup_ge_None in Hm. lia.
  - intros i j a Hi Hj.
    destruct (c_wf _ Hc _ _ Hi) as [_ Hi'], (c_wf _ Hc _ _ Hj) as [_ Hj']. lia.
  - intros i j a b Hi Hj Hctl Hlun Hcfg.
    destruct (c_wf _ Hc _ _ Hi) as [Ha _], (c_wf _ Hc _ _ Hj) as [Hb _].
    rewrite !Hsorted in Hcfg by done.
    assert (i = j) as -> by (by apply (c_keys _ Hc i j a b)).
    split; [done|]. unfold live in Hi, Hj. congruence.
Qed.

(** X13.  Two live entries have the same path only if the one created later
    was given a path the manager generated, from [mountFmt] and the
    index of its slot: a caller-supplied path is never given to an
    entry while a live entry has it. *)
Theorem shared_path_is_generated (mountFmt_ : string) (s : system) (tr : list label)
    (i j : nat) (a b : addr) :
  reachable Sprintf mountFmt_ s tr ->
  live (manager s) i a -> live (manager s) j b -> (a < b)%nat ->
  path (deref (manager s) a) = path (deref (manager s) b) ->
  path (deref (manager s) b) = Sprintf mountFmt_ (Z.of_nat j).
Proof.
  intros Hreach Hi Hj Hab Hpath.
  pose proof (reachable_consistent Sprintf _ _ _ Hreach) as Hc.
  destruct (reachable_paths _ _ _ Hreach) as [_ Hgen].
  destruct (c_wf _ Hc _ _ Hj) as [_ <-].
  apply (Hgen a b); [by exists i|by exists j|done|done].
Qed.

(** X14.  The caller that created an entry always gets through, whatever the
    mounter answers: neither the index in [untrackMount] nor the
    [close] of the deferred function panics.  It returns the path of
    the entry when the mounter succeeds and the wrapped error of the
    mounter otherwise, after publishing the same outcome to the waiters
    and, on failure, taking the entry off the table. *)
Theorem pioneer_completes (mountFmt_ : string) (s : system) (tr : list label) (g : nat)
    (a : addr) controller_ lun_ c (res : option error) :
  reachable Sprintf mountFmt_ s tr ->
  goroutines s !! g = Some (InMounter a controller_ lun_ c) ->
  let p := path (deref (manager s) a) in
  let ret := match res with Some _ => "" | None => p end in
  let err := match res with
             | Some e => Some (ErrMountScsi controller_ lun_ p e)
             | None => None
             end in
  exists s',
    run Sprintf s
      (MounterReturns g res ::
       (match res with Some _ => [DeferUntrack g] | None => [] end ++ [DeferPublish g]))
    = Some (s', [MountCall a (MounterCall controller_ lun_ p c) res]) /\
    goroutines s' !! g = Some (Returned (ExitPioneer a) ret err) /\
    waitCh (deref (manager s') a) = ChanClosed /\
    waitErr (deref (manager s') a) = err /\
    path (deref (manager s') a) = p /\
    match res with
    | Some _ => ~ tracked (manager s') a
    | None => mounts (manager s') = mounts (manager s)
    end.
Proof.
  intros Hreach Hg p ret err.
  pose proof (reachable_consistent Sprintf _ _ _ Hreach) as Hc.
  assert (Ha : (a < length (heap (manager s)))%nat)
    by (by eapply (c_frames _ Hc); [exact Hg|]).
  assert (Hopen : waitCh (deref (manager s) a) = ChanOpen)
    by (by eapply (c_open _ Hc); [exact Hg|]).
  assert (Hlt : (g < length (goroutines s))%nat) by (by eapply lookup_lt_Some).
  assert (H1 : step Sprintf s (MounterReturns g res)
               = Some (set_frame s g (mount_mounter (manager s) a controller_ lun_ res),
                       [MountCall a (MounterCall controller_ lun_ p c) res])).
  { simpl. by rewrite Hg. }
  destruct res as [e|]; cbn [app run]; rewrite H1; cbn [mount_mounter].
  - destruct (untrackMount (manager s) a) as [mm1|] eqn:Hu.
    2:{ exfalso. unfold untrackMount in Hu. pose proof (c_index _ Hc a Ha) as Hr.
        destruct (0 <=? index (deref (manager s) a)) eqn:H0; [|apply Z.leb_gt in H0; lia].
        destruct (index (deref (manager s) a) <? Z.of_nat (length (mounts (manager s))))
          eqn:H2; [|apply Z.ltb_ge in H2; lia].
        done. }
    pose proof (untrackMount_untracked _ _ _ (c_wf _ Hc) Hu) as Hgone.
    apply untrackMount_shrinks in Hu. destruct Hu as (Hs & Hmm1 & _).
    destruct (shrinks_fields _ _ a Hs) as (Ep & _ & _ & _ & _ & _ & Ew & _).
    assert (H2 : step Sprintf
                   (set_frame s g (InDeferUntrack a "" (ErrMountScsi controller_ lun_ p e)))
                   (DeferUntrack g)
                 = Some (System mm1
                           (<[g := InDeferPublish a ""
                                     (Some (ErrMountScsi controller_ lun_ p e))]>
                              (<[g := InDeferUntrack a ""
                                        (ErrMountScsi controller_ lun_ p e)]> (goroutines s))),
                         [])).
    { simpl. rewrite list_lookup_insert_eq by done. unfold mount_defer_untrack.
      unfold untrackMount. rewrite Hmm1. pose proof (c_index _ Hc a Ha) as Hr.
      destruct (0 <=? index (deref (manager s) a)) eqn:H0; [|apply Z.leb_gt in H0; lia].
      destruct (index (deref (manager s) a) <? Z.of_nat (length (mounts (manager s))))
        eqn:H2; [|apply Z.ltb_ge in H2; lia].
      done. }
    fold p. rewrite H2. clear H2. rewrite list_insert_insert_eq.
    assert (Ha1 : (a < length (heap mm1))%nat) by (destruct Hs as (-> & _); done).
    assert (H3 : step Sprintf
                   (System mm1
                      (<[g := InDeferPublish a ""
                                (Some (ErrMountScsi controller_ lun_ p e))]> (goroutines s)))
                   (DeferPublish g)
                 = Some (System (store mm1 a (set_ready (deref mm1 a) err))
                           (<[g := Returned (ExitPioneer a) ret err]>
                              (<[g := InDeferPublish a ""
                                        (Some (ErrMountScsi controller_ lun_ p e))]>
                                 (goroutines s))),
                         [])).
    { simpl. rewrite list_lookup_insert_eq by done. unfold mount_defer_publish.
      by rewrite Ew, Hopen. }
    rewrite H3. clear H3. eexists. split; [reflexivity|].
    cbn [goroutines manager]. rewrite deref_store_eq by done. simpl.
    split; [rewrite list_lookup_insert_eq; [done|by rewrite length_insert]|].
    do 3 (split; [done|]). intros [k Hk]. apply Hgone. by exists k.
  - fold p.
    assert (H3 : step Sprintf (set_frame s g (InDeferPublish a p None)) (DeferPublish g)
                 = Some (System (store (manager s) a (set_ready (deref (manager s) a) None))
                           (<[g := Returned (ExitPioneer a) p None]>
                              (<[g := InDeferPublish a p None]> (goroutines s))),
                         [])).
    { simpl. rewrite list_lookup_insert_eq by done. unfold mount_defer_publish.
      by rewrite Hopen. }
    rewrite H3. clear H3. eexists. split; [reflexivity|].
    cbn [goroutines manager]. rewrite deref_store_eq by done. simpl.
    split; [rewrite list_lookup_insert_eq; [done|by rewrite length_insert]|].
    done.
Qed.

(** X15.  [trackMount] and [unmount] are inverse to each other on the table:
    when [trackMount] creates an entry and its path is then unmounted
    with a mounter that succeeds, the one invocation of the mounter
    names the new entry, every entry that was live is live again in its
    slot with its reference count, and the slot that was taken is again
    the lowest free one; the table is the old one with at most a nil
    slot added at its end.  A generated path has to differ from the
    paths of the live entries for this, a caller-supplied one always
    does. *)
Theorem mount_unmount_round_trip (mm mm1 : mountManager) controller_ lun_ path_ c
    (a : addr) :
  wf mm ->
  trackMount Sprintf mm controller_ lun_ path_ c = (mm1, (Some a, false, None)) ->
  (path_ = "" -> forall j b, live mm j b -> path (deref mm b) <> path (deref mm1 a)) ->
  exists (mm2 : mountManager) (i : nat),
    unmount mm1 (path (deref mm1 a)) None
    = Normal (mm2, None, [MounterCall controller_ lun_ (path (deref mm1 a)) c]) /\
    index (deref mm1 a) = Z.of_nat i /\
    (mounts mm2 = mounts mm \/
     (i = length (mounts mm) /\ mounts mm2 = mounts mm ++ [None])) /\
    (forall k b, live mm2 k b <-> live mm k b) /\
    (forall b, (b < length (heap mm))%nat -> deref mm2 b = deref mm b) /\
    refCount (deref mm2 a) = 0 /\
    mounts mm2 !! i = Some None /\
    (forall j, (j < i)%nat -> mounts mm2 !! j <> Some None).
Proof.
  intros Hwf Htrack Hfresh.
  pose proof (trackMount_cases Sprintf mm controller_ lun_ path_ c) as Hcases.
  pose proof (trackScan_spec Sprintf (heap mm) controller_ lun_ path_ c (mounts mm)
                0 (-1) ltac:(lia)) as Hspec.
  destruct (trackScan (heap mm) controller_ lun_ path_ c 0 (-1) (mounts mm))
    as [a0| |freeIndex].
  { rewrite Hcases in Htrack. by inversion Htrack. }
  { rewrite Hcases in Htrack. by inversion Htrack. }
  destruct Hspec as [Hall _]. destruct Hcases as (i & Hfree & Heq).
  rewrite Heq in Htrack. clear Heq. injection Htrack as Hmm1 Ha.
  set (p := if String.eqb path_ "" then Sprintf (mountFmt mm) (Z.of_nat i) else path_) in *.
  set (new := Mount p (Z.of_nat i) controller_ lun_ c None ChanOpen 1) in *.
  set (mounts1 := if freeIndex =? -1 then mounts mm ++ [Some (length (heap mm))]
                  else <[i := Some (length (heap mm))]> (mounts mm)) in *.
  assert (Hnew : deref mm1 a = new).
  { subst mm1 a. unfold deref. cbn [heap]. by rewrite list_lookup_total_middle. }
  assert (Hold : forall b, (b < length (heap mm))%nat -> deref mm1 b = deref mm b).
  { intros b Hb. subst mm1. unfold deref. cbn [heap]. by apply lookup_total_app_l. }
  assert (Hm1 : mounts mm1 = mounts1) by (by subst mm1).
  assert (Hh1 : heap mm1 = heap mm ++ [new]) by (by subst mm1).
  clear Hmm1. rewrite Hnew in Hfresh |- *. cbn [path index new].
  assert (Hi : mounts1 !! i = Some (Some a)).
  { subst mounts1 a. destruct Hfree as [(-> & -> & _)|(-> & Hi & _)].
    - simpl. by rewrite list_lookup_middle.
    - destruct (Z.of_nat i =? -1) eqn:Hi1; [apply Z.eqb_eq in Hi1; lia|].
      apply list_lookup_insert_eq. by eapply lookup_lt_Some. }
  assert (Hother : forall k b, k <> i -> mounts1 !! k = Some (Some b) -> live mm k b).
  { intros k b Hk Hl. subst mounts1. unfold live.
    destruct Hfree as [(-> & -> & _)|(-> & Hi' & _)].
    - simpl in Hl. apply lookup_snoc_Some in Hl. destruct Hl as [[_ Hl]|[Hl _]]; [done|lia].
    - destruct (Z.of_nat i =? -1) eqn:Hi1; [apply Z.eqb_eq in Hi1; lia|].
      by rewrite list_lookup_insert_ne in Hl. }
  assert (Hwf1 : wf mm1).
  { intros k b Hk. unfold live in Hk. rewrite Hm1 in Hk.
    destruct (decide (k = i)) as [->|Hne].
    - rewrite Hi in Hk. inversion Hk; subst b. rewrite Hnew, Hh1, length_app. simpl.
      split; [rewrite <- Ha; lia|done].
    - pose proof (Hother _ _ Hne Hk) as Hl. destruct (Hwf _ _ Hl) as [Hb Hidx].
      rewrite Hh1, length_app, Hold by done. split; [lia|done]. }
  assert (Hpaths : forall k b, live mm k b -> path (deref mm b) <> p).
  { intros k b Hk. destruct (String.eqb path_ "") eqn:Hp.
    - apply String.eqb_eq in Hp. by eapply Hfresh.
    - apply String.eqb_neq in Hp. intros Hpath. apply (Hall _ _ Hk). right.
      split; [done|]. exact Hpath. }
  assert (Howns : owns mm1 i a p).
  { split; [unfold live; by rewrite Hm1|]. split; [by rewrite Hnew|].
    intros j b Hj Hl. unfold live in Hl. rewrite Hm1 in Hl.
    assert (Hlive : live mm j b) by (apply Hother; [lia|done]).
    destruct (Hwf _ _ Hlive) as [Hb _]. rewrite Hold by done. by eapply Hpaths. }
  pose proof (owns_unmountScan _ _ _ _ Howns) as Hscan.
  assert (Hlive1 : live mm1 i a) by (unfold live; by rewrite Hm1).
  pose proof (unmount_at mm1 p None i a Hwf1 Hlive1 Hscan) as Hu.
  rewrite Hnew in Hu. cbn [new refCount set_refCount path index controller lun config] in Hu.
  change (uint (1 - 1)) with 0 in Hu. change (0 <? 0) with false in Hu. cbv iota in Hu.
  eexists _, i. split; [exact Hu|]. split; [done|].
  cbn [set_mounts mounts heap store].
  assert (Hha : heap mm1 !! a = Some new).
  { rewrite Hh1, <- Ha. by apply list_lookup_middle. }
  assert (Hderef : forall b, deref (MountManager
                     (<[a := Mount p (Z.of_nat i) controller_ lun_ c None ChanOpen 0]>
                        (heap mm1))
                     (<[i := None]> (mounts mm1)) (mountFmt mm1)) b
                   = <[a := Mount p (Z.of_nat i) controller_ lun_ c None ChanOpen 0]>
                       (heap mm1) !!! b) by done.
  assert (Hmounts2 : (<[i := None]> (mounts mm1) = mounts mm /\ mounts mm !! i = Some None /\
                      forall j, (j < i)%nat -> mounts mm !! j <> Some None) \/
                     (i = length (mounts mm) /\
                      <[i := None]> (mounts mm1) = mounts mm ++ [None] /\
                      forall j, mounts mm !! j <> Some None)).
  { rewrite Hm1. subst mounts1. destruct Hfree as [(-> & -> & Hnone)|(-> & Hi' & Hlow)].
    - right. split; [done|]. split; [|done]. simpl.
      rewrite insert_app_r_alt by done. by rewrite Nat.sub_diag.
    - left. destruct (Z.of_nat i =? -1) eqn:Hi1; [apply Z.eqb_eq in Hi1; lia|].
      split; [|done]. rewrite list_insert_insert_eq. by apply list_insert_id. }
  split.
  { destruct Hmounts2 as [(-> & _)|(-> & -> & _)]; [by left|by right]. }
  split.
  { intros k b. unfold live. cbn [mounts].
    destruct Hmounts2 as [(-> & _)|(_ & -> & _)]; [done|].
    split.
    - intros Hk. apply lookup_snoc_Some in Hk. by destruct Hk as [[_ Hk]|[_ Hk]].
    - intros Hk. apply lookup_snoc_Some. left. split; [by eapply lookup_lt_Some|done]. }
  split.
  { intros b Hb. rewrite Hderef. rewrite list_lookup_total_insert_ne by lia.
    by apply Hold. }
  split.
  { rewrite Hderef. rewrite list_lookup_total_insert_eq; [done|].
    by eapply lookup_lt_Some. }
  destruct Hmounts2 as [(-> & Hi2 & Hlow)|(-> & -> & Hnone)].
  - done.
  - split; [by apply list_lookup_middle|].
    intros j Hj. rewrite lookup_app_l by done. apply Hnone.
Qed.

Lemma wf_store_refCount (mm : mountManager) (a : addr) (n : Z) :
  wf mm -> wf (store mm a (set_refCount (deref mm a) n)).
Proof.
  intros Hwf k b Hk. destruct (Hwf k b Hk) as [Hb Hidx].
  rewrite length_heap_store. split; [done|].
  destruct (decide (a = b)) as [->|Hne].
  - by rewrite deref_store_eq.
  - by rewrite deref_store_ne.
Qed.

Lemma owns_store_refCount (mm : mountManager) (a : addr) (n : Z) (i : nat) (path_ : string) :
  wf mm -> owns mm i a path_ -> owns (store mm a (set_refCount (deref mm a) n)) i a path_.
Proof.
  intros Hwf (Hl & Hp & Hfirst). destruct (Hwf _ _ Hl) as [Ha _].
  split; [done|]. split; [by rewrite deref_store_eq|].
  intros j b Hj Hb. destruct (decide (a = b)) as [<-|Hne].
  - rewrite deref_store_eq by done. simpl. by apply (Hfirst j a).
  - rewrite deref_store_ne by done. by apply (Hfirst j b).
Qed.

(** X16.  A failed [unmount] cannot be retried.  When the last reference is
    dropped and the mounter fails, the entry stays in the table with
    [refCount] 0; the next [unmount] of the path takes the count below
    zero, where it wraps to the largest [uint], so that the call
    returns nil without invoking the mounter and the entry stays
    live. *)
Theorem unmount_retry_is_silent (mm : mountManager) (path_ : string) (i : nat) (a : addr)
    (e : error) (res : option error) :
  wf mm -> owns mm i a path_ -> refCount (deref mm a) = 1 ->
  exists mm1 mm2 : mountManager,
    unmount mm path_ (Some e)
    = Normal (mm1,
              Some (ErrUnmountScsi (controller (deref mm a)) (lun (deref mm a)) path_ e),
              [MounterCall (controller (deref mm a)) (lun (deref mm a)) path_
                 (config (deref mm a))]) /\
    unmount mm1 path_ res = Normal (mm2, None, []) /\
    refCount (deref mm2 a) = 2 ^ uintSize - 1 /\
    mounts mm2 = mounts mm /\ owns mm2 i a path_.
Proof.
  intros Hwf Howns Hrc.
  pose proof (owns_unmountScan _ _ _ _ Howns) as Hscan.
  pose proof Howns as (Hl & Hp & Hfirst). destruct (Hwf _ _ Hl) as [Ha _].
  pose proof (unmount_at mm path_ (Some e) i a Hwf Hl Hscan) as H1.
  cbv zeta in H1. rewrite Hrc in H1. change (uint (1 - 1)) with 0 in H1.
  cbn [refCount set_refCount path controller lun config] in H1.
  change (0 <? 0) with false in H1. cbv iota in H1. rewrite Hp in H1.
  pose proof (wf_store_refCount mm a 0 Hwf) as Hwf1.
  pose proof (owns_store_refCount mm a 0 i path_ Hwf Howns) as Howns1.
  set (mm1 := store mm a (set_refCount (deref mm a) 0)) in *.
  pose proof (owns_unmountScan _ _ _ _ Howns1) as Hscan1.
  pose proof (unmount_at mm1 path_ res i a Hwf1 (proj1 Howns1) Hscan1) as H2.
  cbv zeta in H2.
  assert (Hrc1 : refCount (deref mm1 a) = 0) by (subst mm1; by rewrite deref_store_eq).
  rewrite Hrc1 in H2. change (uint (0 - 1)) with (2 ^ uintSize - 1) in H2.
  cbn [refCount set_refCount] in H2.
  change (0 <? 2 ^ uintSize - 1) with true in H2. cbv iota in H2.
  pose proof (owns_store_refCount mm1 a (2 ^ uintSize - 1) i path_ Hwf1 Howns1) as Howns2.
  do 2 eexists. split; [exact H1|]. split; [exact H2|].
  split; [|split; [done|exact Howns2]].
  rewrite deref_store_eq; [done|]. subst mm1. by rewrite length_heap_store.
Qed.

End scsi_invariants.

(** ** The properties above, on the scenarios *)

Lemma entries_are_stable_witness :
  let s := (outcome_of in_flight).1 in
  let s' := (outcome_of mounted).1 in
  run SprintfInt s [MounterReturns 0 None; DeferPublish 0]
  = Some (s', [MountCall 0%nat (MounterCall 0 3 "/mnt/scsi/0" (sortOptions cfgA)) None]) /\
  path (deref (manager s') 0%nat) = path (deref (manager s) 0%nat) /\
  config (deref (manager s') 0%nat) = config (deref (manager s) 0%nat).
Proof.
  intros s s'.
  assert (Hrun : run SprintfInt s [MounterReturns 0 None; DeferPublish 0]
                 = Some (s', [MountCall 0%nat
                                (MounterCall 0 3 "/mnt/scsi/0" (sortOptions cfgA)) None]))
    by (vm_compute; reflexivity).
  assert (Ha : (0 < length (heap (manager s)))%nat) by (vm_compute; lia).
  destruct (entries_are_stable SprintfInt s s' _ _ Hrun) as (_ & _ & _ & Hkeep).
  destruct (Hkeep 0%nat Ha) as (Hp & _ & _ & _ & Hcfg).
  split; [exact Hrun|]. split; [exact Hp|exact Hcfg].
Defined.

Lemma untracked_is_final_witness :
  let s := (outcome_of with_tombstone).1 in
  exists s' tr,
    run SprintfInt s [CallMount 0 3 "" cfg0] = Some (s', tr) /\
    ~ tracked (manager s) 0 /\ ~ tracked (manager s') 0.
Proof.
  intros s.
  assert (Hrun : run SprintfInt s [CallMount 0 3 "" cfg0]
                 = Some (default (s, []) (run SprintfInt s [CallMount 0 3 "" cfg0])))
    by (vm_compute; reflexivity).
  assert (Ha : (0 < length (heap (manager s)))%nat) by (vm_compute; lia).
  assert (Hun : ~ tracked (manager s) 0).
  { intros [k Hk]. unfold live in Hk.
    destruct k as [|[|k]]; vm_compute in Hk; discriminate Hk. }
  destruct (default (s, []) (run SprintfInt s [CallMount 0 3 "" cfg0])) as [s' tr].
  exists s', tr. split; [exact Hrun|]. split; [exact Hun|].
  exact (untracked_is_final SprintfInt s s' _ tr 0%nat Hrun Ha Hun).
Defined.

Lemma readiness_is_single_shot_witness :
  let s := (outcome_of mounted).1 in
  exists s' tr,
    run SprintfInt s [CallMount 0 3 "" cfgB; Select 1 None] = Some (s', tr) /\
    waitCh (deref (manager s) 0%nat) = ChanClosed /\
    waitCh (deref (manager s') 0%nat) = ChanClosed /\
    result (deref (manager s') 0%nat) = ("/mnt/scsi/0", None).
Proof.
  intros s.
  assert (Hrun : run SprintfInt s [CallMount 0 3 "" cfgB; Select 1 None]
                 = Some (default (s, [])
                           (run SprintfInt s [CallMount 0 3 "" cfgB; Select 1 None])))
    by (vm_compute; reflexivity).
  assert (Hcl : waitCh (deref (manager s) 0%nat) = ChanClosed) by reflexivity.
  destruct (default (s, []) (run SprintfInt s [CallMount 0 3 "" cfgB; Select 1 None]))
    as [s' tr].
  destruct (readiness_is_single_shot SprintfInt s s' _ tr 0%nat Hrun Hcl)
    as (Hcl' & _ & Hres).
  exists s', tr. split; [exact Hrun|]. split; [exact Hcl|]. split; [exact Hcl'|].
  rewrite Hres. reflexivity.
Defined.

Lemma table_integrity_witness :
  let s := (outcome_of two_paths).1 in
  reachable SprintfInt mountFmt0 s (outcome_of two_paths).2 /\
  mountFmt (manager s) = mountFmt0 /\
  forall i j a, live (manager s) i a -> live (manager s) j a -> i = j.
Proof.
  intros s.
  assert (Hr : reachable SprintfInt mountFmt0 s (outcome_of two_paths).2) by reach two_paths.
  destruct (table_integrity SprintfInt mountFmt0 s _ Hr) as (Hfmt & _ & Hslot & _).
  split; [exact Hr|]. split; [exact Hfmt|exact Hslot].
Defined.

Lemma mounter_sees_entry_witness :
  let s := (outcome_of with_tombstone).1 in
  let tr := (outcome_of with_tombstone).2 in
  let call := MounterCall 0 3 "/mnt/scsi/0" cfg0 in
  reachable SprintfInt mountFmt0 s tr /\
  MountCall 0%nat call None ∈ tr /\ UnmountCall 0%nat call None ∈ tr /\
  exists m, heap (manager s) !! 0%nat = Some m /\
    call = MounterCall (controller m) (lun m) (path m) (config m).
Proof.
  intros s tr call.
  assert (Hr : reachable SprintfInt mountFmt0 s tr) by reach with_tombstone.
  assert (Hm : MountCall 0%nat call None ∈ tr).
  { apply list_elem_of_In. vm_compute. tauto. }
  assert (Hu : UnmountCall 0%nat call None ∈ tr).
  { apply list_elem_of_In. vm_compute. tauto. }
  destruct (mounter_sees_entry SprintfInt mountFmt0 s tr Hr) as (Hsee & _).
  destruct (Hsee 0%nat call None (or_introl Hm)) as (m & Hlook & Hcall & _).
  split; [exact Hr|]. split; [exact Hm|]. split; [exact Hu|].
  exists m. split; [exact Hlook|exact Hcall].
Defined.

Lemma shared_path_is_generated_witness :
  let s := (outcome_of supplied_then_generated).1 in
  reachable SprintfInt mountFmt0 s (outcome_of supplied_then_generated).2 /\
  live (manager s) 0 0 /\ live (manager s) 1 1 /\
  path (deref (manager s) 0%nat) = path (deref (manager s) 1%nat) /\
  path (deref (manager s) 1%nat) = SprintfInt mountFmt0 1.
Proof.
  intros s.
  assert (Hr : reachable SprintfInt mountFmt0 s (outcome_of supplied_then_generated).2)
    by reach supplied_then_generated.
  assert (H0 : live (manager s) 0 0) by reflexivity.
  assert (H1 : live (manager s) 1 1) by reflexivity.
  assert (Hlt : (0 < 1)%nat) by lia.
  assert (Hp : path (deref (manager s) 0%nat) = path (deref (manager s) 1%nat))
    by reflexivity.
  split; [exact Hr|]. split; [exact H0|]. split; [exact H1|]. split; [exact Hp|].
  exact (shared_path_is_generated SprintfInt mountFmt0 s _ 0 1 0 1 Hr H0 H1 Hlt Hp).
Defined.

Lemma pioneer_completes_witness :
  let s := (outcome_of in_flight).1 in
  reachable SprintfInt mountFmt0 s (outcome_of in_flight).2 /\
  goroutines s !! 0%nat = Some (InMounter 0 0 3 (sortOptions cfgA)) /\
  exists s',
    run SprintfInt s [MounterReturns 0 (Some busy); DeferUntrack 0; DeferPublish 0]
    = Some (s', [MountCall 0%nat (MounterCall 0 3 "/mnt/scsi/0" (sortOptions cfgA))
                   (Some busy)]) /\
    goroutines s' !! 0%nat
    = Some (Returned (ExitPioneer 0) "" (Some (ErrMountScsi 0 3 "/mnt/scsi/0" busy))) /\
    ~ tracked (manager s') 0.
Proof.
  intros s.
  assert (Hr : reachable SprintfInt mountFmt0 s (outcome_of in_flight).2) by reach in_flight.
  assert (Hg : goroutines s !! 0%nat = Some (InMounter 0 0 3 (sortOptions cfgA)))
    by reflexivity.
  destruct (pioneer_completes SprintfInt mountFmt0 s _ 0 0 0 3 (sortOptions cfgA)
              (Some busy) Hr Hg) as (s' & Hrun & Hret & _ & _ & _ & Hgone).
  split; [exact Hr|]. split; [exact Hg|].
  exists s'. split; [exact Hrun|]. split; [exact Hret|exact Hgone].
Defined.

Lemma mount_unmount_round_trip_witness :
  let mm := manager (outcome_of mounted).1 in
  let mm1 := (trackMount SprintfInt mm 0 4 "" cfg0).1 in
  wf mm /\
  trackMount SprintfInt mm 0 4 "" cfg0 = (mm1, (Some 1%nat, false, None)) /\
  exists mm2,
    unmount mm1 "/mnt/scsi/1" None
    = Normal (mm2, None, [MounterCall 0 4 "/mnt/scsi/1" cfg0]) /\
    forall k b, live mm2 k b <-> live mm k b.
Proof.
  intros mm mm1.
  assert (Hwf : wf mm) by wf_by_computation.
  assert (Htrack : trackMount SprintfInt mm 0 4 "" cfg0 = (mm1, (Some 1%nat, false, None)))
    by (vm_compute; reflexivity).
  assert (Hfresh : "" = "" -> forall j b, live mm j b ->
                   path (deref mm b) <> path (deref mm1 1%nat)).
  { intros _ j b Hl. unfold live in Hl.
    destruct j as [|j]; vm_compute in Hl; [|discriminate Hl].
    injection Hl as <-. vm_compute. discriminate. }
  destruct (mount_unmount_round_trip SprintfInt mm mm1 0 4 "" cfg0 1%nat Hwf Htrack Hfresh)
    as (mm2 & i & Hu & _ & _ & Hlive & _).
  split; [exact Hwf|]. split; [exact Htrack|].
  exists mm2. split; [exact Hu|exact Hlive].
Defined.

Lemma unmount_retry_is_silent_witness :
  let mm := manager (outcome_of mounted).1 in
  wf mm /\ owns mm 0 0 "/mnt/scsi/0" /\ refCount (deref mm 0%nat) = 1 /\
  exists mm1 mm2,
    unmount mm "/mnt/scsi/0" (Some busy)
    = Normal (mm1, Some (ErrUnmountScsi 0 3 "/mnt/scsi/0" busy),
              [MounterCall 0 3 "/mnt/scsi/0" (sortOptions cfgA)]) /\
    unmount mm1 "/mnt/scsi/0" None = Normal (mm2, None, []) /\
    refCount (deref mm2 0%nat) = 2 ^ 64 - 1.
Proof.
  intros mm.
  assert (Hwf : wf mm) by wf_by_computation.
  assert (Howns : owns mm 0 0 "/mnt/scsi/0").
  { split; [reflexivity|]. split; [reflexivity|]. intros j b Hj. lia. }
  assert (Hrc : refCount (deref mm 0%nat) = 1) by reflexivity.
  destruct (unmount_retry_is_silent mm "/mnt/scsi/0" 0 0 busy None Hwf Howns Hrc)
    as (mm1 & mm2 & H1 & H2 & Hmax & _).
  split; [exact Hwf|]. split; [exact Howns|]. split; [exact Hrc|].
  exists mm1, mm2. split; [exact H1|]. split; [exact H2|exact Hmax].
Defined.
